(** * A verification model of the DeepSeek reasoner chat proxy

    The development follows [src/app/api/chat/route.ts]: request
    validation, history normalisation, the upstream call with its error
    mapping and the re-framing of the upstream event stream.

    JavaScript facilities the route relies on but does not define are kept
    abstract in the class [Runtime] ([JSON.parse], the truthiness and the
    printing of numbers, string conversion of non-string values); the
    WHATWG default stream controller and the exception discipline are
    modelled explicitly.  The handler is followed on every body
    [req.json()] can yield, of the declared types or not. *)

From Stdlib Require Import Ascii String.
From stdpp Require Import gmap strings list pretty.

Local Open Scope string_scope.
Local Open Scope list_scope.

(** ** Constants of the route *)

Definition nl : string := String "010"%char "".
Definition dq : string := String "034"%char "".

Definition TIMEOUT_MS : N := 30000.
Definition MAX_TOKENS : N := 4000.

Module API_ERROR_MESSAGES.
Definition DEFAULT : string := "与 DeepSeek API 通信时发生错误。".
Definition RATE_LIMIT : string := "速率限制超出。请稍后重试。".
Definition INVALID_KEY : string := "API 密钥无效。请检查您的配置。".
Definition BAD_REQUEST : string := "请求格式无效".
Definition SERVICE_UNAVAILABLE : string := "DeepSeek 服务暂时不可用。请稍后重试。".
Definition TIMEOUT : string := "请求超时".
Definition STREAM_FAILED : string := "流处理失败".
Definition PARSE_ERROR : string := "解析响应数据时发生错误".
Definition INVALID_MESSAGE_SEQUENCE : string :=
  "消息序列无效：用户和助手的消息必须交替出现".
Definition REASONING_CONTENT_NOT_ALLOWED : string :=
  "消息历史中不允许包含思维链内容".
End API_ERROR_MESSAGES.

Definition INVALID_REQUEST : string := "无效的请求参数".
Definition KEY_NOT_CONFIGURED : string := "API密钥未配置".

(** ** JavaScript values and exceptions *)

(** A value produced by [JSON.parse].  A number keeps its source text: its
    numeric value, hence its truthiness and its printed form, is a
    function of that text.  The fields of an object are listed in lookup
    order (the first binding of a key is the one a property read sees);
    [undefined] is the [None] of [option json]. *)
#[warnings="-register-all"]
Inductive json :=
| JNull
| JBool (b : bool)
| JNum (lexeme : string)
| JStr (s : string)
| JArr (items : list json)
| JObj (fields : list (string * json)).

Class Runtime := {
  (** [JSON.parse]: [None] when it throws a SyntaxError. *)
  JSON_parse : string → option json;
  (** whether the number written [lexeme] is neither zero nor NaN *)
  number_truthy : string → bool;
  (** string conversion of a value that is not a string, as performed by a
      template literal; [None] when the conversion throws *)
  ToString_other : json → option string
}.

(** What a [throw] carries: the route's own [ApiError], another instance of
    [Error] (with its [name] and [message]), or a value that is no [Error]. *)
Inductive exn :=
| ApiError (message : string) (status : N)
| JsError (name message : string)
| Thrown.

Definition exn_is_Error (e : exn) : bool :=
  match e with Thrown => false | _ => true end.

Definition exn_name (e : exn) : string :=
  match e with
  | ApiError _ _ => "ApiError"
  | JsError n _ => n
  | Thrown => ""
  end.

Definition exn_message (e : exn) : string :=
  match e with
  | ApiError m _ => m
  | JsError _ m => m
  | Thrown => ""
  end.

(** [e instanceof ApiError], and [e.status] when it is *)
Definition instanceof_ApiError (e : exn) : bool :=
  match e with ApiError _ _ => true | _ => false end.

Definition exn_status (e : exn) : N :=
  match e with ApiError _ st => st | _ => 0%N end.

Definition TypeError (m : string) : exn := JsError "TypeError" m.
Definition SyntaxError (m : string) : exn := JsError "SyntaxError" m.

(** The result of a computation that may throw. *)
Inductive outcome (A : Type) :=
| Ok (a : A)
| Throw (e : exn).
Arguments Ok {A} a.
Arguments Throw {A} e.

Definition obind {A B} (m : outcome A) (k : A → outcome B) : outcome B :=
  match m with
  | Ok a => k a
  | Throw e => Throw e
  end.

(** Computations that act on a state of type [S] and may throw; the state
    reached when the exception is raised is kept, since the handler that
    catches it goes on from there. *)
Definition M (St A : Type) : Type := St → outcome A * St.

Definition ret {St A} (a : A) : M St A := λ s, (Ok a, s).

Definition bind {St A B} (m : M St A) (k : A → M St B) : M St B :=
  λ s, match m s with
       | (Ok a, s') => k a s'
       | (Throw e, s') => (Throw e, s')
       end.

Definition lift {St A} (o : outcome A) : M St A := λ s, (o, s).

Definition throw {St A} (e : exn) : M St A := λ s, (Throw e, s).

(** [try { body } catch (error) { handler }] *)
Definition try_catch {St A} (body : M St A) (handler : exn → M St A) : M St A :=
  λ s, match body s with
       | (Ok a, s') => (Ok a, s')
       | (Throw e, s') => handler e s'
       end.

Notation "'let*' x ':=' m 'in' k" := (bind m (λ x, k))
  (at level 10, x name, m at level 100, k at level 200, only parsing).
Notation "m '>>' k" := (bind m (λ _, k))
  (at level 100, k at level 200, right associativity, only parsing).

Fixpoint assoc (k : string) (fields : list (string * json)) : option json :=
  match fields with
  | [] => None
  | (k', v) :: rest => if String.eqb k k' then Some v else assoc k rest
  end.

Section Values.
Context `{Runtime}.

(** ToBoolean. *)
Definition truthy (v : option json) : bool :=
  match v with
  | None | Some JNull => false
  | Some (JBool b) => b
  | Some (JNum lexeme) => number_truthy lexeme
  | Some (JStr s) => negb (String.eqb s "")
  | Some (JArr _) | Some (JObj _) => true
  end.

(** [v.k] for one of the property names the route reads ([prompt],
    [messages], [input], [reasoning_content], [choices], [delta],
    [content], [error], [message]): none of them is defined on a
    prototype, so only an object's own fields answer.  Reading a property
    of [null] or [undefined] throws. *)
Definition get (v : option json) (k : string) : outcome (option json) :=
  match v with
  | None | Some JNull =>
      Throw (TypeError ("Cannot read properties of null or undefined, reading " +:+ k))
  | Some (JObj fields) => Ok (assoc k fields)
  | Some _ => Ok None
  end.

(** [v?.k] *)
Definition get_opt (v : option json) (k : string) : option json :=
  match v with
  | Some (JObj fields) => assoc k fields
  | _ => None
  end.

(** [v?.[0]]: the first element of an array, the first code unit of a
    string, the field ["0"] of an object. *)
Definition index0_opt (v : option json) : option json :=
  match v with
  | Some (JArr items) => head items
  | Some (JStr (String c _)) => Some (JStr (String c ""))
  | Some (JObj fields) => assoc "0" fields
  | _ => None
  end.

(** The conversion a template literal applies to an interpolated value. *)
Definition ToString (v : json) : outcome string :=
  match v with
  | JStr s => Ok s
  | _ => match ToString_other v with
         | Some s => Ok s
         | None => Throw (TypeError "Cannot convert object to primitive value")
         end
  end.
End Values.

(** ** The outbound stream: a WHATWG default controller

    [createResponseStream] hands its [start] callback a
    [ReadableStreamDefaultController].  The record below is that
    controller together with the reader on the other side: [queue] holds
    the chunks enqueued and not yet read, [readRequests] counts the reads
    the consumer has pending, [consumed] is what the consumer has been
    handed so far.  The operations follow the Streams standard
    (ReadableStreamDefaultControllerEnqueue, Close and Error, and the pull
    steps of the default reader).  The consumer reads and never cancels. *)

Inductive StreamState :=
| readable
| closed
| errored (reason : string).

Record Controller := {
  state : StreamState;
  closeRequested : bool;
  queue : list string;
  readRequests : nat;
  consumed : list string
}.

Definition fresh_controller : Controller :=
  {| state := readable; closeRequested := false; queue := [];
     readRequests := 0; consumed := [] |}.

Definition is_readable (s : StreamState) : bool :=
  match s with readable => true | _ => false end.

Definition is_errored (s : StreamState) : bool :=
  match s with errored _ => true | _ => false end.

(** ReadableStreamDefaultControllerCanCloseOrEnqueue *)
Definition canCloseOrEnqueue (c : Controller) : bool :=
  negb (closeRequested c) && is_readable (state c).

(** [controller.enqueue(chunk)]: a pending read is served at once,
    otherwise the chunk joins the queue. *)
Definition enqueue (chunk : string) : M Controller () := λ c,
  if canCloseOrEnqueue c then
    match readRequests c with
    | S n => (Ok (), {| state := state c; closeRequested := closeRequested c;
                        queue := queue c; readRequests := n;
                        consumed := consumed c ++ [chunk] |})
    | O => (Ok (), {| state := state c; closeRequested := closeRequested c;
                      queue := queue c ++ [chunk]; readRequests := 0;
                      consumed := consumed c |})
    end
  else (Throw (TypeError "Invalid state: Controller is already closed"), c).

(** [controller.close()]: the stream closes at once when nothing is
    queued (pending reads then complete with [done]), and after the last
    queued chunk has been read otherwise. *)
Definition close : M Controller () := λ c,
  if canCloseOrEnqueue c then
    match queue c with
    | [] => (Ok (), {| state := closed; closeRequested := true; queue := [];
                       readRequests := 0; consumed := consumed c |})
    | _ :: _ => (Ok (), {| state := state c; closeRequested := true;
                           queue := queue c; readRequests := readRequests c;
                           consumed := consumed c |})
    end
  else (Throw (TypeError "Invalid state: Controller is already closed"), c).

(** [controller.error(new Error(reason))]: without effect unless the stream
    is still readable; otherwise the queue is reset and the stream errors. *)
Definition error (reason : string) (c : Controller) : Controller :=
  if is_readable (state c) then
    {| state := errored reason; closeRequested := closeRequested c;
       queue := []; readRequests := 0; consumed := consumed c |}
  else c.

(** One [read()] of the consumer. *)
Definition consumer_read (c : Controller) : Controller :=
  match state c with
  | readable =>
      match queue c with
      | chunk :: rest =>
          {| state := if closeRequested c && bool_decide (rest = [])
                      then closed else readable;
             closeRequested := closeRequested c; queue := rest;
             readRequests := readRequests c;
             consumed := consumed c ++ [chunk] |}
      | [] =>
          {| state := readable; closeRequested := closeRequested c;
             queue := []; readRequests := S (readRequests c);
             consumed := consumed c |}
      end
  | _ => c
  end.

(** ** The stream reframer *)

(** What the [eventsource-parser] callback receives. *)
Inductive ParserEvent :=
| ParsedEvent (data : string)
| ReconnectInterval (value : N).

Section Reframer.
Context `{Runtime}.

(** [json.choices?.[0]?.delta] *)
Definition delta_of (j : json) : outcome (option json) :=
  obind (get (Some j) "choices") (λ choices,
    Ok (get_opt (index0_opt choices) "delta")).

(** [if (fragment) controller.enqueue(encoder.encode(`[Tag]${fragment}[/Tag]`))] *)
Definition emit_fragment (tag : string) (fragment : option json) : M Controller () :=
  match fragment with
  | Some v =>
      if truthy fragment then
        let* s := lift (ToString v) in
        enqueue ("[" +:+ tag +:+ "]" +:+ s +:+ "[/" +:+ tag +:+ "]")
      else ret ()
  | None => ret ()
  end.

(** The callback given to [createParser]. *)
Definition onParse (event : ParserEvent) : M Controller () :=
  match event with
  | ReconnectInterval _ => ret ()
  | ParsedEvent data =>
      if String.eqb data "[DONE]" || String.eqb data "keep-alive" then
        if String.eqb data "[DONE]" then close else ret ()
      else
        try_catch
          (let* json := lift (match JSON_parse data with
                              | Some j => Ok j
                              | None => Throw (SyntaxError "Unexpected token")
                              end) in
           let* delta := lift (delta_of json) in
           if negb (truthy delta) then ret ()
           else
             emit_fragment "Reasoning" (get_opt delta "reasoning_content") >>
             emit_fragment "Content" (get_opt delta "content"))
          (λ _, enqueue (API_ERROR_MESSAGES.PARSE_ERROR +:+ nl) >> close)
  end.

(** [parser.feed(decodedChunk)], for a chunk that completes [events]: the
    callback runs once per event; an exception leaving the callback
    leaves [feed]. *)
Fixpoint feed (events : list ParserEvent) : M Controller () :=
  match events with
  | [] => ret ()
  | event :: rest => onParse event >> feed rest
  end.

(** What happens around the proxy while the stream is alive: the
    consumer reads, or the upstream reader answers the pending
    [reader.read()] with a chunk, a failure or the end of the body.  The
    callback runs synchronously inside [parser.feed], so the consumer
    reads between chunks, not between the events of one chunk. *)
Inductive Tick :=
| ConsumerRead
| UpstreamChunk (events : list ParserEvent)
| UpstreamFailure
| UpstreamDone.

(** The state of [start]: the controller, and whether the read loop is
    still running. *)
Record Pipe := { controller : Controller; reading : bool }.

Definition tick (p : Pipe) (t : Tick) : Pipe :=
  match t with
  | ConsumerRead =>
      {| controller := consumer_read (controller p); reading := reading p |}
  | UpstreamChunk events =>
      if reading p then
        match feed events (controller p) with
        | (Ok _, c) => {| controller := c; reading := true |}
        | (Throw _, c) =>
            {| controller := error API_ERROR_MESSAGES.STREAM_FAILED c;
               reading := false |}
        end
      else p
  | UpstreamFailure =>
      if reading p then
        {| controller := error API_ERROR_MESSAGES.STREAM_FAILED (controller p);
           reading := false |}
      else p
  | UpstreamDone =>
      if reading p then {| controller := controller p; reading := false |}
      else p
  end.

(** [createResponseStream(response, config)]: [has_body] tells whether
    [response.body] is non-null; [ticks] is what then happens, in order. *)
Definition start (has_body : bool) : Pipe :=
  if has_body then {| controller := fresh_controller; reading := true |}
  else {| controller := error API_ERROR_MESSAGES.STREAM_FAILED fresh_controller;
          reading := false |}.

Definition createResponseStream (has_body : bool) (ticks : list Tick) : Pipe :=
  fold_left tick ticks (start has_body).
End Reframer.

(** ** Conversation history

    Messages are objects: an array holds references to them and
    [normalizeMessages] writes to the object it keeps.  The heap maps a
    reference to the fields declared by the interface [Message]: this
    section follows the functions on objects of the declared type, with
    the sharing a caller may have set up between them.  What the
    functions do on other values is followed in the section on untyped
    values below. *)

Record Message := {
  role : string;
  content : string;
  reasoning_content : option string
}.

#[export] Instance Message_inhabited : Inhabited Message :=
  populate {| role := ""; content := ""; reasoning_content := None |}.

Abbreviation Heap := (gmap nat Message).

(** a new object *)
Definition alloc (m : Message) : M Heap nat :=
  λ h, let l := fresh (dom h) in (Ok l, <[l := m]> h).

Definition deref (l : nat) : M Heap Message := λ h, (Ok (h !!! l), h).

(** [l.content = text] *)
Definition set_content (l : nat) (text : string) : M Heap () :=
  λ h, (Ok (), <[l := {| role := role (h !!! l); content := text;
                         reasoning_content := reasoning_content (h !!! l) |}]> h).

(** [items.reduce(callback, acc)], the callback receiving the index too *)
Fixpoint reduce {St A B} (callback : B → A → nat → M St B)
    (items : list A) (index : nat) (acc : B) : M St B :=
  match items with
  | [] => ret acc
  | curr :: rest =>
      let* acc' := callback acc curr index in
      reduce callback rest (S index) acc'
  end.

(** [for (const i of indices) body(i)] *)
Fixpoint for_each {St A} (items : list A) (body : A → M St ()) : M St () :=
  match items with
  | [] => ret ()
  | i :: rest => body i >> for_each rest body
  end.

(** The callback of the reduction in [normalizeMessages]. *)
Definition merge (acc : list nat) (curr : nat) (index : nat) : M Heap (list nat) :=
  if (index =? 0)%nat then ret (acc ++ [curr])
  else
    match last acc with
    | None => throw (TypeError "Cannot read properties of undefined, reading role")
    | Some prevMsg =>
        let* prev := deref prevMsg in
        let* cur := deref curr in
        if String.eqb (role prev) (role cur) then
          set_content prevMsg (content prev +:+ nl +:+ content cur) >> ret acc
        else ret (acc ++ [curr])
    end.

(** [for (let i = 1; i < messages.length; i++)] *)
Definition validateMessageSequence (messages : list nat) : M Heap () :=
  for_each (seq 1 (length messages - 1)) (λ i,
    let* a := deref (messages !!! i) in
    let* b := deref (messages !!! (i - 1)%nat) in
    if String.eqb (role a) (role b)
    then throw (ApiError API_ERROR_MESSAGES.INVALID_MESSAGE_SEQUENCE 400)
    else ret ()).

Definition normalizeMessages (messages : list nat) : M Heap (list nat) :=
  let* normalized := reduce merge messages 0%nat [] in
  validateMessageSequence normalized >> ret normalized.

Definition buildMessageHistory (prompt : string) (messages : list nat)
    (input : string) : M Heap (list nat) :=
  let* system := alloc {| content := prompt; role := "system";
                          reasoning_content := None |} in
  let* user := alloc {| content := input; role := "user";
                        reasoning_content := None |} in
  normalizeMessages ([system] ++ messages ++ [user]).

(** ** Request validation

    The body of the request is whatever [req.json()] yields: the
    annotation [as { prompt: string, messages: Message[], input: string }]
    checks nothing, so the validators run on untyped values. *)

Section Request.
Context `{Runtime}.

Definition isArray (v : option json) : bool :=
  match v with Some (JArr _) => true | _ => false end.

Definition items_of (v : option json) : list json :=
  match v with Some (JArr items) => items | _ => [] end.

(** [try { body } catch (error) { handler }] without state *)
Definition otry {A} (body : outcome A) (handler : exn → outcome A) : outcome A :=
  match body with
  | Ok a => Ok a
  | Throw e => handler e
  end.

(** [req_json] is the result of [await req.json()]. *)
Definition validateAndParseRequest (req_json : outcome json)
  : outcome (option json * list json * option json) :=
  otry
    (obind req_json (λ data,
     obind (get (Some data) "prompt") (λ prompt,
     obind (get (Some data) "messages") (λ messages,
     obind (get (Some data) "input") (λ input,
       if negb (truthy prompt) || negb (isArray messages) || negb (truthy input)
       then Throw (ApiError INVALID_REQUEST 400)
       else Ok (prompt, items_of messages, input))))))
    (λ _, Throw (ApiError INVALID_REQUEST 400)).

Fixpoint validateNoReasoningContent (messages : list json) : outcome () :=
  match messages with
  | [] => Ok ()
  | message :: rest =>
      obind (get (Some message) "reasoning_content") (λ r,
        if truthy r
        then Throw (ApiError API_ERROR_MESSAGES.REASONING_CONTENT_NOT_ALLOWED 400)
        else validateNoReasoningContent rest)
  end.

(** The values of the declared types among the untyped ones. *)
Definition as_string (v : option json) : option string :=
  match v with Some (JStr s) => Some s | _ => None end.

Definition as_Message (v : json) : option Message :=
  match v with
  | JObj fields =>
      match as_string (assoc "role" fields), as_string (assoc "content" fields),
            assoc "reasoning_content" fields with
      | Some r, Some c, None =>
          Some {| role := r; content := c; reasoning_content := None |}
      | Some r, Some c, Some (JStr rc) =>
          Some {| role := r; content := c; reasoning_content := Some rc |}
      | _, _, _ => None
      end
  | _ => None
  end.

Fixpoint as_Messages (vs : list json) : option (list Message) :=
  match vs with
  | [] => Some []
  | v :: rest =>
      match as_Message v, as_Messages rest with
      | Some m, Some ms => Some (m :: ms)
      | _, _ => None
      end
  end.
End Request.

(** ** The history on untyped values

    The annotations of [buildMessageHistory] and [normalizeMessages]
    check nothing either: the two functions run on whatever the validators
    have let through, and an element of [messages] is a value of any kind.
    The elements are the values of one parsed body and the two wrappers
    are new objects: no two of them are the same object and nothing else
    refers to them, so a write to one of them is seen at its place in the
    array and nowhere else.  The functions are therefore followed on the
    elements themselves, the element written to being replaced by the
    written one; on distinct objects of the declared type this is what the
    functions of the previous section compute. *)

Module Untyped.

(** An element of the history: a value and, when it is an array, the
    property [content] the merge may have given to it (a property
    [JSON.stringify] does not print). *)
Record Element := { js : json; own_content : option string }.

#[global] Instance Element_inhabited : Inhabited Element :=
  populate {| js := JNull; own_content := None |}.

Definition plain (v : json) : Element := {| js := v; own_content := None |}.

(** The fields of an object after [object[k] = v]. *)
Fixpoint set_field (k : string) (v : json) (fields : list (string * json))
  : list (string * json) :=
  match fields with
  | [] => [(k, v)]
  | (k', v') :: rest =>
      if String.eqb k k' then (k, v) :: rest else (k', v') :: set_field k v rest
  end.

(** [items.reduce(callback, acc)] and [for (const i of indices) body(i)]
    for computations without state. *)
Fixpoint oreduce {A B} (callback : B → A → nat → outcome B)
    (items : list A) (index : nat) (acc : B) : outcome B :=
  match items with
  | [] => Ok acc
  | curr :: rest =>
      obind (callback acc curr index) (λ acc', oreduce callback rest (S index) acc')
  end.

Fixpoint ofor_each {A} (items : list A) (body : A → outcome ()) : outcome () :=
  match items with
  | [] => Ok ()
  | i :: rest => obind (body i) (λ _, ofor_each rest body)
  end.

Section Untyped.
Context `{Runtime}.

(** [a === b] on two values of the history.  Two numbers are the same
    value exactly when they print alike ([JSON.parse] yields no NaN, and
    the two zeros, which are equal, both print as [0]); an object or an
    array is equal to itself only, and the values compared here are parts
    of different elements. *)
Definition strict_eq (a b : option json) : bool :=
  match a, b with
  | None, None => true
  | Some JNull, Some JNull => true
  | Some (JBool x), Some (JBool y) => Bool.eqb x y
  | Some (JNum x), Some (JNum y) =>
      bool_decide (ToString_other (JNum x) = ToString_other (JNum y))
  | Some (JStr x), Some (JStr y) => String.eqb x y
  | _, _ => false
  end.

(** [m.role] *)
Definition read_role (m : Element) : outcome (option json) :=
  get (Some (js m)) "role".

(** [m.content] *)
Definition read_content (m : Element) : outcome (option json) :=
  match js m with
  | JArr _ => Ok (JStr <$> own_content m)
  | v => get (Some v) "content"
  end.

(** [m.content = text]; the module is in strict mode, where writing a
    property of a primitive value throws. *)
Definition write_content (m : Element) (text : string) : outcome Element :=
  match js m with
  | JObj fields =>
      Ok {| js := JObj (set_field "content" (JStr text) fields);
            own_content := own_content m |}
  | JArr _ => Ok {| js := js m; own_content := Some text |}
  | JNull => Throw (TypeError "Cannot set properties of null, setting content")
  | _ => Throw (TypeError "Cannot create property content on a primitive value")
  end.

(** The conversion a template literal applies to a value that may be
    [undefined]. *)
Definition ToString_opt (v : option json) : outcome string :=
  match v with
  | None => Ok "undefined"
  | Some j => ToString j
  end.

(** The callback of the reduction in [normalizeMessages]. *)
Definition merge (acc : list Element) (curr : Element) (index : nat)
  : outcome (list Element) :=
  if (index =? 0)%nat then Ok (acc ++ [curr])
  else
    match last acc with
    | None => Throw (TypeError "Cannot read properties of undefined, reading role")
    | Some prevMsg =>
        obind (read_role prevMsg) (λ prev_role,
        obind (read_role curr) (λ curr_role,
          if strict_eq prev_role curr_role then
            obind (read_content prevMsg) (λ a,
            obind (ToString_opt a) (λ a',
            obind (read_content curr) (λ b,
            obind (ToString_opt b) (λ b',
            obind (write_content prevMsg (a' +:+ nl +:+ b')) (λ written,
              Ok (removelast acc ++ [written]))))))
          else Ok (acc ++ [curr])))
    end.

(** [for (let i = 1; i < messages.length; i++)] *)
Definition validateMessageSequence (messages : list Element) : outcome () :=
  ofor_each (seq 1 (length messages - 1)) (λ i,
    obind (read_role (messages !!! i)) (λ a,
    obind (read_role (messages !!! (i - 1)%nat)) (λ b,
      if strict_eq a b
      then Throw (ApiError API_ERROR_MESSAGES.INVALID_MESSAGE_SEQUENCE 400)
      else Ok ()))).

Definition normalizeMessages (messages : list Element) : outcome (list Element) :=
  obind (oreduce merge messages 0%nat []) (λ normalized,
  obind (validateMessageSequence normalized) (λ _, Ok normalized)).

(** [{ content: content, role: role }]; a property whose value is
    [undefined] reads like a missing one, and [JSON.stringify] leaves it
    out. *)
Definition wrapper (content : option json) (role : string) : Element :=
  plain (JObj (match content with
               | Some v => [("content", v)]
               | None => []
               end ++ [("role", JStr role)])).

Definition buildMessageHistory (prompt : option json) (messages : list json)
    (input : option json) : outcome (list Element) :=
  normalizeMessages
    ([wrapper prompt "system"] ++ (plain <$> messages) ++ [wrapper input "user"]).

(** The argument of [console.log] in [makeApiRequest]: for each message
    [{ role: m.role, contentLength: m.content.length }]; reading [length]
    throws when the content is [undefined] or [null]. *)
Definition log_entry (m : Element) : outcome () :=
  obind (read_role m) (λ _,
  obind (read_content m) (λ c,
    match c with
    | None | Some JNull =>
        Throw (TypeError "Cannot read properties of null or undefined, reading length")
    | Some _ => Ok ()
    end)).

Definition log_messages (messages : list Element) : outcome () :=
  ofor_each messages log_entry.
End Untyped.

End Untyped.

(** ** The upstream client and the handler *)

Record Env := {
  DEEPSEEK_API_KEY : option string;
  DEEPSEEKAPI_BASE_URL : option string;
  DEEPSEEK_MODEL : option string
}.

Record ApiConfig := {
  apiUrl : string;
  apiKey : string;
  model : string;
  maxTokens : N
}.

(** [v || fallback] on an environment variable *)
Definition or_else (v : option string) (fallback : string) : string :=
  match v with
  | Some s => if String.eqb s "" then fallback else s
  | None => fallback
  end.

Definition getApiConfig (env : Env) : outcome ApiConfig :=
  match DEEPSEEK_API_KEY env with
  | Some key =>
      if String.eqb key "" then Throw (ApiError KEY_NOT_CONFIGURED 500)
      else Ok {| apiUrl := or_else (DEEPSEEKAPI_BASE_URL env) "https://api.deepseek.com"
                           +:+ "/v1/chat/completions";
                 apiKey := key;
                 model := or_else (DEEPSEEK_MODEL env) "deepseek-chat";
                 maxTokens := MAX_TOKENS |}
  | None => Throw (ApiError KEY_NOT_CONFIGURED 500)
  end.

(** The single request [makeApiRequest] sends. *)
Record FetchRequest := {
  url : string;
  authorization : string;
  api_key : string;
  body_model : string;
  body_messages : list json;
  body_max_tokens : N;
  body_stream : bool
}.

(** The answer of the upstream: its status line (the status is the
    three-digit code of that line), the outcome of [response.text()], and
    whether [response.body] is non-null. *)
Record UpstreamResponse := {
  status : N;
  statusText : string;
  text : outcome string;
  has_body : bool
}.

(** [response.ok] *)
Definition ok (r : UpstreamResponse) : bool :=
  (200 <=? status r)%N && (status r <=? 299)%N.

(** How the upstream behaves when left alone: it answers or fails after
    some milliseconds, or never settles. *)
Inductive Upstream :=
| Responds (after : N) (response : UpstreamResponse)
| Fails (after : N) (e : exn)
| Silent.

(** What the handler does to the outside: the requests sent, and whether
    the abort controller was triggered. *)
Record Wire := { sent : list FetchRequest; aborted : bool }.

Definition AbortError : exn := JsError "AbortError" "This operation was aborted".

(** [fetch(url, { ..., signal })] under a timer that aborts the signal
    once [timeout] milliseconds have passed: an upstream that has settled
    by then decides the result, otherwise the abort rejects the call. *)
Definition fetch (net : Upstream) (timeout : N) (request : FetchRequest)
  : M Wire UpstreamResponse := λ w,
  let settled := {| sent := sent w ++ [request]; aborted := aborted w |} in
  let cancelled := {| sent := sent w ++ [request]; aborted := true |} in
  match net with
  | Responds after response =>
      if (after <=? timeout)%N then (Ok response, settled)
      else (Throw AbortError, cancelled)
  | Fails after e =>
      if (after <=? timeout)%N then (Throw e, settled)
      else (Throw AbortError, cancelled)
  | Silent => (Throw AbortError, cancelled)
  end.

(** The body a response of the handler carries: the serialisation of a
    JSON value, or the stream made by [createResponseStream]. *)
Inductive ResponseBody :=
| JsonBody (value : json)
| StreamBody (upstream_has_body : bool).

Record Response := {
  resp_status : N;
  content_type : string;
  resp_body : ResponseBody
}.

Section Handler.
Context `{Runtime}.

(** The request [makeApiRequest] builds; [body_messages] is what
    [JSON.stringify] prints of [messages]. *)
Definition request_of (config : ApiConfig) (messages : list Untyped.Element)
  : FetchRequest :=
  {| url := apiUrl config;
     authorization := "Bearer " +:+ apiKey config;
     api_key := apiKey config;
     body_model := model config;
     body_messages := Untyped.js <$> messages;
     body_max_tokens := maxTokens config;
     body_stream := true |}.

Definition makeApiRequest (config : ApiConfig) (messages : list Untyped.Element)
    (net : Upstream) (timeout : N) : M Wire UpstreamResponse :=
  let* _ := lift (Untyped.log_messages messages) in
  fetch net timeout (request_of config messages).

(** The [message] computed at the head of [getErrorData]. *)
Definition reported_message (responseBody : string) : json :=
  match JSON_parse responseBody with
  | Some errorResponse =>
      match get (Some errorResponse) "error" with
      | Ok err =>
          let m := get_opt err "message" in
          match m with
          | Some v => if truthy m then v else JStr API_ERROR_MESSAGES.DEFAULT
          | None => JStr API_ERROR_MESSAGES.DEFAULT
          end
      | Throw _ => JStr API_ERROR_MESSAGES.DEFAULT
      end
  | None => JStr API_ERROR_MESSAGES.DEFAULT
  end.

(** The field [message] of the object [getErrorData] returns. *)
Definition getErrorData (response : UpstreamResponse) : outcome string :=
  obind (text response) (λ responseBody,
    let message := reported_message responseBody in
    if (status response =? 429)%N then Ok API_ERROR_MESSAGES.RATE_LIMIT
    else if (status response =? 401)%N then Ok API_ERROR_MESSAGES.INVALID_KEY
    else if (status response =? 400)%N then
      obind (ToString message) (λ m,
        Ok (API_ERROR_MESSAGES.BAD_REQUEST +:+ ": " +:+ m))
    else if (status response =? 503)%N then Ok API_ERROR_MESSAGES.SERVICE_UNAVAILABLE
    else
      obind (ToString message) (λ m,
        Ok (API_ERROR_MESSAGES.DEFAULT +:+ " (" +:+ pretty (status response)
            +:+ " " +:+ statusText response +:+ "): " +:+ m))).

Definition validateApiResponse (response : UpstreamResponse) : outcome () :=
  if negb (ok response) then
    if (status response =? 401)%N
    then Throw (ApiError API_ERROR_MESSAGES.INVALID_KEY 401)
    else obind (getErrorData response) (λ errorData,
           Throw (ApiError errorData (status response)))
  else Ok ().

Definition handleStreamError {A} (error : exn) : outcome A :=
  if exn_is_Error error then
    if String.eqb (exn_name error) "AbortError"
    then Throw (ApiError API_ERROR_MESSAGES.TIMEOUT 408)
    else Throw error
  else Throw (ApiError API_ERROR_MESSAGES.STREAM_FAILED 500).

(** The result is the stream of [createResponseStream]; it is
    represented by whether the upstream response has a body.  The timer
    set at the start is the [timeout] of [fetch]; clearing it in
    [finally] changes nothing that is observed here. *)
Definition createDeepSeekStream (config : ApiConfig)
    (messages : list Untyped.Element) (net : Upstream) : M Wire ResponseBody :=
  try_catch
    (let* response := makeApiRequest config messages net TIMEOUT_MS in
     let* _ := lift (validateApiResponse response) in
     let* _ := (if negb (ok response) then
                  let* errorData := lift (getErrorData response) in
                  throw (ApiError errorData (status response))
                else ret ()) in
     ret (StreamBody (has_body response)))
    (λ error,
       if instanceof_ApiError error && (exn_status error =? 401)%N
       then throw (ApiError API_ERROR_MESSAGES.INVALID_KEY 401)
       else lift (handleStreamError error)).

(** The statuses of a response that has no body (Fetch standard). *)
Definition null_body_status (st : N) : bool :=
  (st =? 101)%N || (st =? 103)%N || (st =? 204)%N || (st =? 205)%N || (st =? 304)%N.

(** [new Response(body, { status, headers })] with a body that is not
    null and the content type of the route: the constructor throws a
    RangeError for a status outside 200..599 and a TypeError for a status
    that allows no body.  (The statuses met here are the route's own and
    the three-digit codes of upstream answers, which the conversion to
    [unsigned short] leaves as they are.) *)
Definition new_Response (body : ResponseBody) (st : N) : outcome Response :=
  if (st <? 200)%N || (599 <? st)%N
  then Throw (JsError "RangeError" "The status provided is outside the range 200 to 599")
  else if null_body_status st
  then Throw (TypeError "Response with null body status cannot have body")
  else Ok {| resp_status := st; content_type := "text/event-stream";
             resp_body := body |}.

(** The response built in the [catch] of [POST]. *)
Definition error_response (error : exn) : outcome Response :=
  new_Response
    (JsonBody (JObj [("success", JBool false);
                     ("error", JStr (if exn_is_Error error
                                     then exn_message error
                                     else "Unknown error"))]))
    (if instanceof_ApiError error then exn_status error else 500%N).

(** The messages an array of references to objects of the declared type
    refers to, as [JSON.stringify] reads them. *)
Definition snapshot (messages : list nat) : M Heap (list Message) :=
  λ h, (Ok ((λ l, h !!! l) <$> messages), h).

(** The objects [req.json()] has created for the elements of [messages]. *)
Fixpoint allocate (messages : list Message) : M Heap (list nat) :=
  match messages with
  | [] => ret []
  | m :: rest =>
      let* l := alloc m in
      let* ls := allocate rest in
      ret (l :: ls)
  end.

(** The handler.  [req_json] is the result of [await req.json()].  An
    exception that leaves the [catch] (the constructor of the error
    response throwing) leaves the handler. *)
Definition POST (req_json : outcome json) (env : Env) (net : Upstream)
  : M Wire Response :=
  try_catch
    (let* request := lift (validateAndParseRequest req_json) in
     let '(prompt, messages, input) := request in
     let* _ := lift (validateNoReasoningContent messages) in
     let* messagesWithHistory :=
       lift (Untyped.buildMessageHistory prompt messages input) in
     let* apiConfig := lift (getApiConfig env) in
     let* stream := createDeepSeekStream apiConfig messagesWithHistory net in
     ret {| resp_status := 200; content_type := "text/event-stream";
            resp_body := stream |})
    (λ error, lift (error_response error)).
End Handler.

Definition quiet : Wire := {| sent := []; aborted := false |}.

(** ** A reference runtime

    A reader for JSON texts and the string conversion of parsed values, to
    run the model on concrete payloads.  The reader covers the JSON grammar
    except [\u] escapes; a number is kept as written and counts as truthy
    when its mantissa has a non-zero digit. *)

Module Reference.

Definition is_ws (c : ascii) : bool :=
  match c with
  | " "%char | "009"%char | "010"%char | "013"%char => true
  | _ => false
  end.

Definition is_digit (c : ascii) : bool :=
  let n := nat_of_ascii c in (48 <=? n)%nat && (n <=? 57)%nat.

Fixpoint skip_ws (s : string) : string :=
  match s with
  | String c r => if is_ws c then skip_ws r else s
  | EmptyString => EmptyString
  end.

(** the longest prefix of digits, and what follows it *)
Fixpoint digits (s : string) : string * string :=
  match s with
  | String c r =>
      if is_digit c then let '(d, rest) := digits r in (String c d, rest)
      else (EmptyString, s)
  | EmptyString => (EmptyString, EmptyString)
  end.

Definition unescape (c : ascii) : option ascii :=
  match c with
  | "034"%char => Some "034"%char
  | "\"%char => Some "\"%char
  | "/"%char => Some "/"%char
  | "b"%char => Some "008"%char
  | "f"%char => Some "012"%char
  | "n"%char => Some "010"%char
  | "r"%char => Some "013"%char
  | "t"%char => Some "009"%char
  | _ => None
  end.

(** the characters of a string literal, after its opening quote *)
Fixpoint read_chars (s : string) : option (string * string) :=
  match s with
  | EmptyString => None
  | String c r =>
      if Ascii.eqb c "034"%char then Some (EmptyString, r)
      else if Ascii.eqb c "\"%char then
        match r with
        | String e r' =>
            match unescape e, read_chars r' with
            | Some c', Some (cs, rest) => Some (String c' cs, rest)
            | _, _ => None
            end
        | EmptyString => None
        end
      else if (nat_of_ascii c <? 32)%nat then None
      else match read_chars r with
           | Some (cs, rest) => Some (String c cs, rest)
           | None => None
           end
  end.

Definition read_fraction (s : string) : option (string * string) :=
  match s with
  | String "."%char r =>
      match digits r with
      | (EmptyString, _) => None
      | (d, rest) => Some (String "."%char d, rest)
      end
  | _ => Some (EmptyString, s)
  end.

Definition read_exponent (s : string) : option (string * string) :=
  match s with
  | String c r =>
      if Ascii.eqb c "e"%char || Ascii.eqb c "E"%char then
        let '(sign, r1) :=
          match r with
          | String "+"%char r' => ("+", r')
          | String "-"%char r' => ("-", r')
          | _ => (EmptyString, r)
          end in
        match digits r1 with
        | (EmptyString, _) => None
        | (d, rest) => Some (String c (sign +:+ d), rest)
        end
      else Some (EmptyString, s)
  | EmptyString => Some (EmptyString, s)
  end.

Definition read_number (s : string) : option (string * string) :=
  let '(sign, r0) :=
    match s with
    | String "-"%char r => ("-", r)
    | _ => (EmptyString, s)
    end in
  match digits r0 with
  | (EmptyString, _) => None
  | (String "0"%char (String _ _), _) => None
  | (int, r1) =>
      match read_fraction r1 with
      | Some (frac, r2) =>
          match read_exponent r2 with
          | Some (ex, r3) => Some (sign +:+ int +:+ frac +:+ ex, r3)
          | None => None
          end
      | None => None
      end
  end.

Definition read_literal (word : string) (v : json) (s : string)
  : option (json * string) :=
  if String.prefix word s
  then Some (v, String.substring (String.length word)
                  (String.length s - String.length word) s)
  else None.

(** A value, the elements of an array after its first one, the members
    of an object after its first one; [fuel] bounds the nesting and the
    number of items.  Members are accumulated so that a later duplicate
    of a key comes first. *)
Fixpoint read_value (fuel : nat) (s : string) : option (json * string) :=
  match fuel with
  | O => None
  | S fuel =>
      match skip_ws s with
      | String "{"%char r =>
          match skip_ws r with
          | String "}"%char rest => Some (JObj [], rest)
          | r' =>
              match read_member fuel r' with
              | Some (kv, rest) => read_members fuel [kv] rest
              | None => None
              end
          end
      | String "["%char r =>
          match skip_ws r with
          | String "]"%char rest => Some (JArr [], rest)
          | r' =>
              match read_value fuel r' with
              | Some (v, rest) => read_elements fuel [v] rest
              | None => None
              end
          end
      | String "034"%char r =>
          match read_chars r with
          | Some (cs, rest) => Some (JStr cs, rest)
          | None => None
          end
      | String "t"%char _ as w => read_literal "true" (JBool true) w
      | String "f"%char _ as w => read_literal "false" (JBool false) w
      | String "n"%char _ as w => read_literal "null" JNull w
      | w =>
          match read_number w with
          | Some (lexeme, rest) => Some (JNum lexeme, rest)
          | None => None
          end
      end
  end
with read_member (fuel : nat) (s : string) : option ((string * json) * string) :=
  match fuel with
  | O => None
  | S fuel =>
      match skip_ws s with
      | String "034"%char r =>
          match read_chars r with
          | Some (k, r1) =>
              match skip_ws r1 with
              | String ":"%char r2 =>
                  match read_value fuel r2 with
                  | Some (v, rest) => Some ((k, v), rest)
                  | None => None
                  end
              | _ => None
              end
          | None => None
          end
      | _ => None
      end
  end
with read_members (fuel : nat) (acc : list (string * json)) (s : string)
  : option (json * string) :=
  match fuel with
  | O => None
  | S fuel =>
      match skip_ws s with
      | String "}"%char rest => Some (JObj acc, rest)
      | String ","%char r =>
          match read_member fuel r with
          | Some (kv, rest) => read_members fuel (kv :: acc) rest
          | None => None
          end
      | _ => None
      end
  end
with read_elements (fuel : nat) (acc : list json) (s : string)
  : option (json * string) :=
  match fuel with
  | O => None
  | S fuel =>
      match skip_ws s with
      | String "]"%char rest => Some (JArr (rev acc), rest)
      | String ","%char r =>
          match read_value fuel r with
          | Some (v, rest) => read_elements fuel (v :: acc) rest
          | None => None
          end
      | _ => None
      end
  end.

Definition parse (s : string) : option json :=
  match read_value (S (String.length s)) s with
  | Some (v, rest) =>
      match skip_ws rest with
      | EmptyString => Some v
      | _ => None
      end
  | None => None
  end.

Fixpoint mantissa_nonzero (lexeme : string) : bool :=
  match lexeme with
  | EmptyString => false
  | String c r =>
      if Ascii.eqb c "e"%char || Ascii.eqb c "E"%char then false
      else (is_digit c && negb (Ascii.eqb c "0"%char)) || mantissa_nonzero r
  end.

Definition join (parts : list string) : string :=
  match parts with
  | [] => EmptyString
  | p :: ps => fold_left (λ acc q, acc +:+ "," +:+ q) ps p
  end.

(** ToString of a parsed value: an array joins its elements with commas
    ([null] prints as nothing there), an object prints as
    [[object Object]] unless a field of its own hides [toString]. *)
Fixpoint to_string (v : json) : option string :=
  match v with
  | JNull => Some "null"
  | JBool true => Some "true"
  | JBool false => Some "false"
  | JNum lexeme => Some lexeme
  | JStr s => Some s
  | JArr items =>
      let fix each (l : list json) : option (list string) :=
        match l with
        | [] => Some []
        | JNull :: r => cons EmptyString <$> each r
        | x :: r =>
            match to_string x, each r with
            | Some s, Some ss => Some (s :: ss)
            | _, _ => None
            end
        end in
      join <$> each items
  | JObj fields =>
      match assoc "toString" fields with
      | Some _ => None
      | None => Some "[object Object]"
      end
  end.

#[export] Instance runtime : Runtime :=
  {| JSON_parse := parse;
     number_truthy := mantissa_nonzero;
     ToString_other := to_string |}.

End Reference.


(** ** What the specification says, for comparison with the code *)

(** The outbound stream so far: what the consumer has read, then what
    waits in the queue. *)
Definition outbound (c : Controller) : list string := consumed c ++ queue c.

(** The states a controller goes through: a read is pending only when
    nothing is queued, only a readable stream holds chunks or reads, and a
    stream asked to close stays readable only while chunks are queued. *)
Definition wf (c : Controller) : Prop :=
  (readRequests c = 0%nat ∨ queue c = []) ∧
  (is_readable (state c) = false → queue c = [] ∧ readRequests c = 0%nat) ∧
  (closeRequested c = true → queue c = [] → is_readable (state c) = false) ∧
  (closeRequested c = false → state c ≠ closed).

Definition tagged (tag text : string) : string :=
  "[" +:+ tag +:+ "]" +:+ text +:+ "[/" +:+ tag +:+ "]".

Definition notice : string := API_ERROR_MESSAGES.PARSE_ERROR +:+ nl.

(** The events the read loop receives: those of the chunks that arrive
    before the body ends or fails. *)
Fixpoint arrived (ticks : list Tick) : list ParserEvent :=
  match ticks with
  | [] => []
  | ConsumerRead :: rest => arrived rest
  | UpstreamChunk events :: rest => events ++ arrived rest
  | UpstreamFailure :: _ | UpstreamDone :: _ => []
  end.

Definition is_failure (t : Tick) : bool :=
  match t with UpstreamFailure => true | _ => false end.

(** no transport failure *)
Definition undisturbed (ticks : list Tick) : Prop :=
  forallb (λ t, negb (is_failure t)) ticks = true.

Section Specification.
Context `{Runtime}.

(** The chunk a fragment of a delta gives, following section 4.5: a
    non-empty fragment gives one tagged chunk, anything else nothing. *)
Definition fragment_chunks (tag : string) (fragment : option json)
  : outcome (list string) :=
  match fragment with
  | Some v =>
      if truthy fragment then obind (ToString v) (λ s, Ok [tagged tag s])
      else Ok []
  | None => Ok []
  end.

(** The chunks one upstream event gives, and whether the outbound
    stream closes with it, following section 4.5: the sentinel closes,
    a keep-alive is ignored, a payload that fails to be read as a delta
    gives the notice and closes, an event without delta is skipped, a
    delta gives its reasoning chunk and then its content chunk. *)
Definition reframe_event (event : ParserEvent) : list string * bool :=
  match event with
  | ReconnectInterval _ => ([], false)
  | ParsedEvent data =>
      if String.eqb data "[DONE]" then ([], true)
      else if String.eqb data "keep-alive" then ([], false)
      else
        match JSON_parse data with
        | None => ([notice], true)
        | Some j =>
            match delta_of j with
            | Throw _ => ([notice], true)
            | Ok delta =>
                if truthy delta then
                  match fragment_chunks "Reasoning" (get_opt delta "reasoning_content") with
                  | Throw _ => ([notice], true)
                  | Ok rs =>
                      match fragment_chunks "Content" (get_opt delta "content") with
                      | Throw _ => (rs ++ [notice], true)
                      | Ok cs => (rs ++ cs, false)
                      end
                  end
                else ([], false)
            end
        end
  end.

(** The outbound chunks for a sequence of events, in arrival order, up
    to the event that closes the stream. *)
Fixpoint reframe (events : list ParserEvent) : list string * bool :=
  match events with
  | [] => ([], false)
  | event :: rest =>
      let '(chunks, stop) := reframe_event event in
      if stop then (chunks, true)
      else let '(more, stopped) := reframe rest in (chunks ++ more, stopped)
  end.

(** No event follows the one that closes the stream. *)
Fixpoint closes_last (events : list ParserEvent) : bool :=
  match events with
  | [] => true
  | event :: rest =>
      if snd (reframe_event event) then bool_decide (rest = [])
      else closes_last rest
  end.

(** What holds of the stream after the events [seen]: its chunks are an
    initial part of theirs, and all of theirs while it accepts more. *)
Definition in_order (c : Controller) (seen : list ParserEvent) : Prop :=
  wf c ∧ outbound c `prefix_of` fst (reframe seen) ∧
  (canCloseOrEnqueue c = true →
   outbound c = fst (reframe seen) ∧ snd (reframe seen) = false).

(** The message for an upstream status, following the table of section
    4.4; [detail] is what the upstream reported, or the default text. *)
Definition mapped_message (st : N) (st_text detail : string) : string :=
  if (st =? 401)%N then API_ERROR_MESSAGES.INVALID_KEY
  else if (st =? 429)%N then API_ERROR_MESSAGES.RATE_LIMIT
  else if (st =? 400)%N then API_ERROR_MESSAGES.BAD_REQUEST +:+ ": " +:+ detail
  else if (st =? 503)%N then API_ERROR_MESSAGES.SERVICE_UNAVAILABLE
  else API_ERROR_MESSAGES.DEFAULT +:+ " (" +:+ pretty st +:+ " " +:+ st_text
       +:+ "): " +:+ detail.
End Specification.

(** Adjacent messages differ in role (the invariant of section 3). *)
Definition alternating (h : Heap) (messages : list nat) : Prop :=
  ∀ i, (0 < i < length messages)%nat →
       role (h !!! (messages !!! i)) ≠ role (h !!! (messages !!! (i - 1)%nat)).

Section UntypedNotions.
Context `{Runtime}.

(** The same invariant on untyped elements: the roles of adjacent
    elements can be read and are not equal. *)
Definition untyped_alternating (messages : list Untyped.Element) : Prop :=
  ∀ i, (0 < i < length messages)%nat →
    ∃ a b, Untyped.read_role (messages !!! i) = Ok a ∧
           Untyped.read_role (messages !!! (i - 1)%nat) = Ok b ∧
           Untyped.strict_eq a b = false.

(** An element of the history that is an object of the declared type,
    and the message it is. *)
Definition is_Message (e : Untyped.Element) (m : Message) : Prop :=
  as_Message (Untyped.js e) = Some m.

(** A request of the declared types that passes both validators. *)
Definition declared (req : outcome json) (prompt : string)
    (messages : list Message) (input : string) : Prop :=
  ∃ p ms i,
    validateAndParseRequest req = Ok (p, ms, i) ∧
    validateNoReasoningContent ms = Ok () ∧
    as_string p = Some prompt ∧ as_Messages ms = Some messages ∧
    as_string i = Some input.

(** The handler gets as far as [fetch], with [history] as messages and
    [config] as configuration: the validators, the normaliser, the
    configuration and the logging before the call all succeed. *)
Definition reaches_fetch (req : outcome json) (env : Env)
    (history : list Untyped.Element) (config : ApiConfig) : Prop :=
  ∃ prompt messages input,
    validateAndParseRequest req = Ok (prompt, messages, input) ∧
    validateNoReasoningContent messages = Ok () ∧
    Untyped.buildMessageHistory prompt messages input = Ok history ∧
    getApiConfig env = Ok config ∧
    Untyped.log_messages history = Ok ().
End UntypedNotions.

(** The timer of [createDeepSeekStream] runs out before the upstream has
    settled. *)
Definition times_out (net : Upstream) : Prop :=
  match net with
  | Responds after _ | Fails after _ => (TIMEOUT_MS < after)%N
  | Silent => True
  end.

(** ** Concrete payloads *)

Definition quoted (s : string) : string := dq +:+ s +:+ dq.

(** [{"choices":[{"delta":{"<field>":"<text>"}}]}] *)
Definition delta_payload (field text : string) : string :=
  "{" +:+ quoted "choices" +:+ ":[{" +:+ quoted "delta" +:+ ":{"
  +:+ quoted field +:+ ":" +:+ quoted text +:+ "}}]}".

Definition delta_value (fields : list (string * json)) : json :=
  JObj [("choices", JArr [JObj [("delta", JObj fields)]])].

(** The request used in the examples: a prompt, one earlier message and
    an input, all of the declared types. *)
Definition example_request (earlier : list json) : json :=
  JObj [("prompt", JStr "be brief"); ("messages", JArr earlier);
        ("input", JStr "hello")].

Definition example_env : Env :=
  {| DEEPSEEK_API_KEY := Some "secret"; DEEPSEEKAPI_BASE_URL := None;
     DEEPSEEK_MODEL := None |}.

(** [{"error":{"message":"<detail>"}}] *)
Definition error_payload (detail : string) : string :=
  "{" +:+ quoted "error" +:+ ":{" +:+ quoted "message" +:+ ":"
  +:+ quoted detail +:+ "}}".

Definition example_config : ApiConfig :=
  {| apiUrl := "https://api.deepseek.com/v1/chat/completions";
     apiKey := "secret"; model := "deepseek-chat"; maxTokens := MAX_TOKENS |}.

(** ** The message view

    The component that renders a message ([src/unnamed/part_000]) takes
    the text accumulated from the outbound stream apart again.  Its
    function [extractThoughtChain] runs two global regular expressions,
    [\[Reasoning\]([\s\S]*?)\[\/Reasoning\]] and the same for [Content]:
    each finds the next opening tag and, lazily, the first closing tag
    after it. *)

Fixpoint string_drop (n : nat) (s : string) : string :=
  match n, s with
  | S n', String _ r => string_drop n' r
  | _, _ => s
  end.

(** The first occurrence of [pat] in [s]: what precedes it and what
    follows it. *)
Fixpoint find (pat s : string) : option (string * string) :=
  if String.prefix pat s then Some (EmptyString, string_drop (String.length pat) s)
  else
    match s with
    | EmptyString => None
    | String c r =>
        match find pat r with
        | Some (before, after) => Some (String c before, after)
        | None => None
        end
    end.

(** [while ((match = regex.exec(content)) !== null)] for the expression
    made of [opening], a lazy group and [closing]: the captured groups, in
    order.  Each round consumes a match, so [fuel] rounds are enough for a
    text of [fuel] characters. *)
Fixpoint exec_all (fuel : nat) (opening closing s : string) : list string :=
  match fuel with
  | O => []
  | S fuel' =>
      match find opening s with
      | None => []
      | Some (_, inside) =>
          match find closing inside with
          | None => []
          | Some (captured, rest) => captured :: exec_all fuel' opening closing rest
          end
      end
  end.

Definition is_empty (s : string) : bool :=
  match s with EmptyString => true | _ => false end.

(** The fields [thoughts] and [mainContent] of the result. *)
Definition extractThoughtChain (text : string) : string * string :=
  let thoughts :=
    filter (λ thought, negb (is_empty thought) && negb (String.eqb thought "null"))
      (exec_all (String.length text) "[Reasoning]" "[/Reasoning]" text) in
  let contentParts :=
    filter (λ part, negb (is_empty part))
      (exec_all (String.length text) "[Content]" "[/Content]" text) in
  (String.concat "" thoughts,
   if (0 <? length contentParts)%nat then String.concat "" contentParts else "").

(** What the reframer sends for one fragment. *)
Inductive Frame :=
| Reasoning (fragment : string)
| Content (fragment : string).

Definition frame_chunk (f : Frame) : string :=
  match f with
  | Reasoning fragment => tagged "Reasoning" fragment
  | Content fragment => tagged "Content" fragment
  end.

(** The text a client has once it has received the chunks of [frames]. *)
Definition wire (frames : list Frame) : string :=
  String.concat "" (frame_chunk <$> frames).

Definition reasoning_of (f : Frame) : string :=
  match f with Reasoning fragment => fragment | Content _ => "" end.

Definition content_of (f : Frame) : string :=
  match f with Content fragment => fragment | Reasoning _ => "" end.

Definition fragment_of (f : Frame) : string :=
  match f with Reasoning fragment | Content fragment => fragment end.

(** A fragment that contains none of the four tags. *)
Definition tag_free (fragment : string) : Prop :=
  find "[Reasoning]" fragment = None ∧ find "[/Reasoning]" fragment = None ∧
  find "[Content]" fragment = None ∧ find "[/Content]" fragment = None.

(** ** Further notions for the properties below *)

Section Inert.
Context `{Runtime}.

(** An event for which the callback neither enqueues nor closes: a
    reconnect interval, a keep-alive, a payload without delta, a delta
    whose two fragments are both absent or empty. *)
Definition inert (event : ParserEvent) : bool :=
  match event with
  | ReconnectInterval _ => true
  | ParsedEvent data =>
      if String.eqb data "[DONE]" then false
      else if String.eqb data "keep-alive" then true
      else
        match JSON_parse data with
        | None => false
        | Some j =>
            match delta_of j with
            | Throw _ => false
            | Ok delta =>
                negb (truthy delta)
                || (negb (truthy (get_opt delta "reasoning_content"))
                    && negb (truthy (get_opt delta "content")))
            end
        end
  end.
End Inert.

(** Along a computation on the controller the consumer keeps what it
    has been handed. *)
Definition keeps_consumed {A} (m : M Controller A) : Prop :=
  ∀ c r c', m c = (r, c') → consumed c `prefix_of` consumed c'.

(** The messages of a history joined by newlines: the text the upstream
    reads, roles apart. *)
Fixpoint join_nl (parts : list string) : string :=
  match parts with
  | [] => ""
  | [part] => part
  | part :: rest => part +:+ nl +:+ join_nl rest
  end.

(** The merge of [normalizeMessages] on message values instead of
    objects: the same reduction, the last kept message being replaced
    instead of written to. *)
Definition merge_value (acc : list Message) (curr : Message) : list Message :=
  match last acc with
  | Some prev =>
      if String.eqb (role prev) (role curr) then
        removelast acc
        ++ [{| role := role prev;
               content := content prev +:+ nl +:+ content curr;
               reasoning_content := reasoning_content prev |}]
      else acc ++ [curr]
  | None => [curr]
  end.

Definition coalesce (messages : list Message) : list Message :=
  fold_left merge_value messages [].

(** The values held by the objects an array refers to. *)
Definition values (h : Heap) (messages : list nat) : list Message :=
  (λ l, h !!! l) <$> messages.

(** The network raises errors of its own, never the route's [ApiError]. *)
Definition foreign (net : Upstream) : Prop :=
  match net with
  | Responds _ response =>
      match text response with
      | Throw e => instanceof_ApiError e = false
      | Ok _ => True
      end
  | Fails _ e => instanceof_ApiError e = false
  | Silent => True
  end.

(** ** The view: notions for the frames *)

(** A tag name: no opening bracket in it. *)
Fixpoint bracket_free (s : string) : bool :=
  match s with
  | EmptyString => true
  | String c r => negb (Ascii.eqb c "["%char) && bracket_free r
  end.

(** A text that is empty or starts with the bracket of a tag. *)
Definition at_tag (s : string) : Prop := s = "" ∨ ∃ r, s = String "["%char r.

Definition reasoning_fragment (f : Frame) : option string :=
  match f with Reasoning fragment => Some fragment | Content _ => None end.

Definition content_fragment (f : Frame) : option string :=
  match f with Content fragment => Some fragment | Reasoning _ => None end.

(** ** The view: user messages

    A user message is shown as HTML after
    [content.replace(/<(?!\/?(br|img|table|thead|tbody|tr|td|th)\b)[^>]*>/gi, '')].
    The expression matches at a [<] that is not followed by the
    lookahead and is followed, somewhere, by a [>]; the match ends at the
    first [>].  Texts are sequences of bytes here; the expression reads
    ASCII characters only (letters are compared without case, which for a
    regular expression without the [u] flag concerns ASCII letters only
    when the name is ASCII), so the encoding of other characters is passed
    through. *)

(** [\w] *)
Definition is_word (c : ascii) : bool :=
  let n := nat_of_ascii c in
  ((48 <=? n)%nat && (n <=? 57)%nat) || ((65 <=? n)%nat && (n <=? 90)%nat)
  || ((97 <=? n)%nat && (n <=? 122)%nat) || (n =? 95)%nat.

Definition lower (c : ascii) : ascii :=
  let n := nat_of_ascii c in
  if (65 <=? n)%nat && (n <=? 90)%nat then ascii_of_nat (n + 32) else c.

(** [name] read at the start of [s] without regard to case: what
    follows it. *)
Fixpoint starts_ci (name s : string) : option string :=
  match name, s with
  | EmptyString, _ => Some s
  | String a name', String b s' =>
      if Ascii.eqb a (lower b) then starts_ci name' s' else None
  | String _ _, EmptyString => None
  end.

(** [\b] after a name: the end of the text or a character that is not
    of a word. *)
Definition boundary (s : string) : bool :=
  match s with
  | EmptyString => true
  | String c _ => negb (is_word c)
  end.

Definition ALLOWED_TAGS : list string :=
  ["br"; "img"; "table"; "thead"; "tbody"; "tr"; "td"; "th"].

(** [(br|img|table|thead|tbody|tr|td|th)\b] at the start of [s]. *)
Definition name_here (s : string) : bool :=
  existsb (λ name, match starts_ci name s with
                   | Some rest => boundary rest
                   | None => false
                   end) ALLOWED_TAGS.

(** The lookahead [\/?(br|img|table|thead|tbody|tr|td|th)\b] at the
    start of [s]. *)
Definition allowed (s : string) : bool :=
  match s with
  | String "/" r => name_here r || name_here s
  | _ => name_here s
  end.

Fixpoint has (c : ascii) (s : string) : bool :=
  match s with
  | EmptyString => false
  | String c' r => Ascii.eqb c' c || has c r
  end.

(** The replacement, from left to right.  [inside] holds while a match
    is being deleted, up to its [>]. *)
Fixpoint strip (inside : bool) (s : string) : string :=
  match s with
  | EmptyString => EmptyString
  | String c r =>
      if inside then (if Ascii.eqb c ">" then strip false r else strip true r)
      else if Ascii.eqb c "<" && negb (allowed r) && has ">" r then strip true r
      else String c (strip false r)
  end.

Definition sanitize (content : string) : string := strip false content.

(** ** Tactics *)

Ltac open_controller c :=
  destruct c as [st cr qu rr co]; unfold wf, outbound, canCloseOrEnqueue in *;
  cbn [state closeRequested queue readRequests consumed] in *.

Ltac pack :=
  repeat match goal with |- _ ∧ _ => split end; auto; try discriminate.

(** * Properties of the stream controller *)

Lemma fresh_controller_wf : wf fresh_controller.
Proof. unfold wf; cbn; repeat split; auto; discriminate. Qed.

Lemma fresh_controller_accepting : canCloseOrEnqueue fresh_controller = true.
Proof. reflexivity. Qed.

Lemma accepting_inv c :
  canCloseOrEnqueue c = true → closeRequested c = false ∧ state c = readable.
Proof.
  open_controller c. destruct cr, st; cbn; intros; try discriminate; auto.
Qed.

Lemma enqueue_accepting chunk c :
  canCloseOrEnqueue c = true → wf c →
  ∃ c', enqueue chunk c = (Ok (), c') ∧
        outbound c' = outbound c ++ [chunk] ∧
        canCloseOrEnqueue c' = true ∧ wf c'.
Proof.
  intros Hacc Hwf. destruct (accepting_inv c Hacc) as [Hcr Hst].
  unfold enqueue. rewrite Hacc.
  open_controller c. subst cr st.
  destruct Hwf as (Hq & _ & _ & _).
  destruct rr as [|n].
  - eexists; split; [reflexivity|]. cbn.
    rewrite app_assoc. repeat split; auto; try discriminate.
    all: try (intros _ Hnil; destruct qu; discriminate).
  - destruct Hq as [Hq|Hq]; [discriminate|]. subst qu.
    eexists; split; [reflexivity|]. cbn.
    rewrite !app_nil_r. repeat split; auto; discriminate.
Qed.

Lemma enqueue_refused chunk c :
  canCloseOrEnqueue c = false → ∃ e, enqueue chunk c = (Throw e, c).
Proof. intros Hno. unfold enqueue. rewrite Hno. eauto. Qed.

Lemma close_refused c :
  canCloseOrEnqueue c = false → ∃ e, close c = (Throw e, c).
Proof. intros Hno. unfold close. rewrite Hno. eauto. Qed.

Lemma close_accepting c :
  canCloseOrEnqueue c = true → wf c →
  ∃ c', close c = (Ok (), c') ∧
        outbound c' = outbound c ∧
        closeRequested c' = true ∧
        is_errored (state c') = false ∧ wf c'.
Proof.
  intros Hacc Hwf. destruct (accepting_inv c Hacc) as [Hcr Hst].
  unfold close. rewrite Hacc.
  open_controller c. subst cr st.
  destruct Hwf as (Hq & _ & _ & _).
  destruct qu as [|x qu].
  - eexists; split; [reflexivity|]. cbn. repeat split; auto; discriminate.
  - eexists; split; [reflexivity|]. cbn.
    destruct Hq as [Hq|Hq]; [|discriminate].
    repeat split; auto; discriminate.
Qed.

Lemma consumer_read_outbound c : outbound (consumer_read c) = outbound c.
Proof.
  unfold consumer_read. open_controller c.
  destruct st; cbn; auto. destruct qu; cbn; auto.
  by rewrite <- app_assoc.
Qed.

Lemma consumer_read_closeRequested c :
  closeRequested (consumer_read c) = closeRequested c.
Proof.
  unfold consumer_read. destruct c as [st cr qu rr co]; cbn.
  destruct st; cbn; auto. destruct qu; auto.
Qed.

Lemma consumer_read_errored c :
  is_errored (state (consumer_read c)) = is_errored (state c).
Proof.
  unfold consumer_read. destruct c as [st cr qu rr co]; cbn.
  destruct st; cbn; auto. destruct qu; cbn; auto.
  destruct (cr && _); auto.
Qed.

Lemma consumer_read_wf c : wf c → wf (consumer_read c).
Proof.
  unfold consumer_read. open_controller c.
  intros (H1 & H2 & H3 & H4).
  destruct st; cbn in *; auto.
  destruct qu as [|x qu]; cbn.
  - repeat split; auto; try discriminate.
    all: try (intros Hcr _; specialize (H3 Hcr eq_refl); discriminate).
  - destruct H1 as [H1|H1]; [|discriminate]. subst rr.
    destruct cr; cbn.
    + case_bool_decide as Hq; cbn; repeat split; auto; try discriminate; try done.
    + repeat split; auto; discriminate.
Qed.

Lemma consumer_read_accepting c :
  canCloseOrEnqueue c = true → canCloseOrEnqueue (consumer_read c) = true.
Proof.
  intros Hacc. destruct (accepting_inv c Hacc) as [Hcr Hst].
  unfold consumer_read. open_controller c. subst.
  destruct qu; reflexivity.
Qed.

(** * The reframer against section 4.5 *)

Section ReframerFacts.
Context `{Runtime}.

Lemma notice_then_close c :
  canCloseOrEnqueue c = true → wf c →
  ∃ c', (enqueue (API_ERROR_MESSAGES.PARSE_ERROR +:+ nl) >> close) c = (Ok (), c') ∧
        outbound c' = outbound c ++ [notice] ∧
        closeRequested c' = true ∧
        is_errored (state c') = false ∧ wf c'.
Proof.
  intros Hacc Hwf.
  destruct (enqueue_accepting (API_ERROR_MESSAGES.PARSE_ERROR +:+ nl) c Hacc Hwf)
    as (c1 & E1 & O1 & A1 & W1).
  destruct (close_accepting c1 A1 W1) as (c2 & E2 & O2 & C2 & S2 & W2).
  exists c2. unfold bind. rewrite E1, E2, O2, O1. auto.
Qed.

Lemma emit_fragment_accepting tag fragment c :
  canCloseOrEnqueue c = true → wf c →
  match fragment_chunks tag fragment with
  | Ok chunks =>
      ∃ c', emit_fragment tag fragment c = (Ok (), c') ∧
            outbound c' = outbound c ++ chunks ∧
            canCloseOrEnqueue c' = true ∧ wf c'
  | Throw _ => ∃ e, emit_fragment tag fragment c = (Throw e, c)
  end.
Proof.
  intros Hacc Hwf. unfold fragment_chunks, emit_fragment.
  destruct fragment as [v|].
  - destruct (truthy (Some v)).
    + unfold bind, lift. destruct (ToString v) as [s|e]; cbn.
      * apply enqueue_accepting; auto.
      * eauto.
    + exists c. unfold ret. rewrite app_nil_r. auto.
  - exists c. unfold ret. rewrite app_nil_r. auto.
Qed.

Lemma onParse_accepting event c :
  canCloseOrEnqueue c = true → wf c →
  ∃ c', onParse event c = (Ok (), c') ∧
        outbound c' = outbound c ++ fst (reframe_event event) ∧
        closeRequested c' = snd (reframe_event event) ∧
        is_errored (state c') = false ∧ wf c' ∧
        (snd (reframe_event event) = false → canCloseOrEnqueue c' = true).
Proof.
  intros Hacc Hwf.
  destruct (accepting_inv c Hacc) as [Hcr Hst].
  assert (Hidle : ∃ c', @ret Controller () () c = (Ok (), c') ∧
            outbound c' = outbound c ++ [] ∧ closeRequested c' = false ∧
            is_errored (state c') = false ∧ wf c' ∧
            (false = false → canCloseOrEnqueue c' = true)).
  { exists c. rewrite app_nil_r, Hst. pack. }
  assert (Hfail : ∀ body : M Controller (), (∃ e, body c = (Throw e, c)) →
            ∃ c', try_catch body
                    (λ _, enqueue (API_ERROR_MESSAGES.PARSE_ERROR +:+ nl) >> close) c
                  = (Ok (), c') ∧
            outbound c' = outbound c ++ [notice] ∧ closeRequested c' = true ∧
            is_errored (state c') = false ∧ wf c' ∧
            (true = false → canCloseOrEnqueue c' = true)).
  { intros body [e He]. unfold try_catch. rewrite He.
    destruct (notice_then_close c Hacc Hwf) as (c' & E & O & C & S & W).
    exists c'. pack. }
  destruct event as [data|v]; cbn [onParse reframe_event]; [|exact Hidle].
  destruct (String.eqb data "[DONE]") eqn:Hdone; cbn [orb fst snd].
  { destruct (close_accepting c Hacc Hwf) as (c' & E & O & C & S & W).
    exists c'. rewrite app_nil_r. pack. }
  destruct (String.eqb data "keep-alive") eqn:Hkeep; cbn [fst snd]; [exact Hidle|].
  destruct (JSON_parse data) as [j|] eqn:Hparse; cbn [fst snd].
  2:{ apply Hfail. unfold bind, lift. eauto. }
  destruct (delta_of j) as [delta|e] eqn:Hdelta; cbn [fst snd].
  2:{ apply Hfail. unfold bind, lift. rewrite Hdelta. eauto. }
  destruct (truthy delta) eqn:Htruthy; cbn [fst snd negb].
  2:{ unfold try_catch, bind, lift. rewrite Hdelta, Htruthy. cbn. exact Hidle. }
  pose proof (emit_fragment_accepting "Reasoning"
                (get_opt delta "reasoning_content") c Hacc Hwf) as HR.
  destruct (fragment_chunks "Reasoning" (get_opt delta "reasoning_content"))
    as [rs|e]; cbn [fst snd].
  2:{ apply Hfail. destruct HR as [e' HR]. unfold bind, lift.
      rewrite Hdelta, Htruthy. cbn. rewrite HR. eauto. }
  destruct HR as (c1 & E1 & O1 & A1 & W1).
  pose proof (emit_fragment_accepting "Content"
                (get_opt delta "content") c1 A1 W1) as HC.
  destruct (fragment_chunks "Content" (get_opt delta "content"))
    as [cs|e]; cbn [fst snd].
  - destruct HC as (c2 & E2 & O2 & A2 & W2).
    exists c2. unfold try_catch, bind, lift.
    rewrite Hdelta, Htruthy. cbn. rewrite E1, E2.
    destruct (accepting_inv c2 A2) as [Hcr2 Hst2].
    rewrite O2, O1, app_assoc, Hst2. pack.
  - destruct HC as (e' & E2).
    destruct (notice_then_close c1 A1 W1) as (c' & E & O & C & S & W).
    exists c'. unfold try_catch, bind, lift.
    rewrite Hdelta, Htruthy. cbn. rewrite E1, E2.
    unfold bind in E. rewrite E, O, O1, app_assoc.
    pack.
Qed.

Lemma reframe_app events more :
  snd (reframe events) = false →
  reframe (events ++ more)
  = (fst (reframe events) ++ fst (reframe more), snd (reframe more)).
Proof.
  induction events as [|event events IH]; cbn [reframe app].
  - intros _. by destruct (reframe more).
  - destruct (reframe_event event) as [chunks stop]. destruct stop; [done|].
    destruct (reframe events) as [cs st] eqn:E. cbn [fst snd] in *.
    intros ->. rewrite IH by reflexivity. cbn. by rewrite app_assoc.
Qed.

Lemma closes_last_app events more :
  closes_last (events ++ more) = true →
  closes_last events = true ∧
  (snd (reframe events) = true → more = []) ∧
  (snd (reframe events) = false → closes_last more = true).
Proof.
  induction events as [|event events IH]; cbn [closes_last reframe app].
  - intros Hm. pack.
  - destruct (reframe_event event) as [chunks stop]. cbn [snd].
    destruct stop.
    + intros Hnil. apply bool_decide_eq_true in Hnil.
      apply app_eq_nil in Hnil as [-> ->]. pack.
    + intros Hrest. destruct (IH Hrest) as (I1 & I2 & I3).
      destruct (reframe events) as [cs st]. cbn [snd] in *. pack.
Qed.

Lemma feed_accepting events c :
  canCloseOrEnqueue c = true → wf c → closes_last events = true →
  ∃ c', feed events c = (Ok (), c') ∧
        outbound c' = outbound c ++ fst (reframe events) ∧
        closeRequested c' = snd (reframe events) ∧
        is_errored (state c') = false ∧ wf c' ∧
        (snd (reframe events) = false → canCloseOrEnqueue c' = true).
Proof.
  revert c. induction events as [|event events IH]; intros c Hacc Hwf Hlast.
  - exists c. destruct (accepting_inv c Hacc) as [Hcr Hst].
    cbn. rewrite app_nil_r, Hst. pack.
  - destruct (onParse_accepting event c Hacc Hwf)
      as (c1 & E1 & O1 & C1 & S1 & W1 & A1).
    cbn [closes_last] in Hlast. cbn [feed reframe]. unfold bind. rewrite E1.
    destruct (reframe_event event) as [chunks stop]. cbn [fst snd] in *.
    destruct stop.
    + apply bool_decide_eq_true in Hlast. subst events.
      exists c1. cbn. pack.
    + destruct (IH c1 (A1 eq_refl) W1 Hlast) as (c2 & E2 & O2 & C2 & S2 & W2 & A2).
      exists c2. destruct (reframe events) as [cs st]. cbn [fst snd] in *.
      rewrite O2, O1, app_assoc. pack.
Qed.

(** Once the read loop has stopped, or while it receives no event, only
    the consumer moves the stream. *)
Lemma run_idle ticks p :
  undisturbed ticks → (reading p = false ∨ arrived ticks = []) →
  let c' := controller (fold_left tick ticks p) in
  outbound c' = outbound (controller p) ∧
  closeRequested c' = closeRequested (controller p) ∧
  is_errored (state c') = is_errored (state (controller p)) ∧
  (wf (controller p) → wf c').
Proof.
  revert p. induction ticks as [|t ticks IH]; intros p Hund Hidle; [by cbn|].
  unfold undisturbed in Hund. cbn [forallb] in Hund.
  apply andb_true_iff in Hund as [Ht Hund].
  cbn [fold_left].
  assert (Hstep : outbound (controller (tick p t)) = outbound (controller p) ∧
            closeRequested (controller (tick p t)) = closeRequested (controller p) ∧
            is_errored (state (controller (tick p t)))
            = is_errored (state (controller p)) ∧
            (wf (controller p) → wf (controller (tick p t))) ∧
            (reading (tick p t) = false ∨ arrived ticks = [])).
  { destruct p as [c r]. destruct t as [|events| |]; cbn [tick controller reading arrived] in *.
    - rewrite consumer_read_outbound, consumer_read_closeRequested,
        consumer_read_errored. pack. apply consumer_read_wf.
    - destruct r; [|pack].
      destruct Hidle as [Hr|Ha]; [discriminate|].
      apply app_eq_nil in Ha as [-> Ha]. cbn. pack.
    - discriminate.
    - destruct r; cbn; pack. }
  destruct Hstep as (O & C & S & W & Hidle').
  destruct (IH (tick p t) Hund Hidle') as (O' & C' & S' & W').
  cbn zeta in *. rewrite O', C', S', O, C, S. pack.
Qed.

(** The read loop refines [reframe] as long as no event follows the
    closing one and the transport does not fail. *)
Lemma run_reframe ticks p :
  reading p = true → canCloseOrEnqueue (controller p) = true →
  wf (controller p) → undisturbed ticks → closes_last (arrived ticks) = true →
  let c' := controller (fold_left tick ticks p) in
  outbound c' = outbound (controller p) ++ fst (reframe (arrived ticks)) ∧
  closeRequested c' = snd (reframe (arrived ticks)) ∧
  is_errored (state c') = false ∧ wf c'.
Proof.
  revert p. induction ticks as [|t ticks IH]; intros p Hr Hacc Hwf Hund Hlast.
  - destruct (accepting_inv _ Hacc) as [Hcr Hst].
    cbn. rewrite app_nil_r, Hst. pack.
  - pose proof Hund as Hund0.
    unfold undisturbed in Hund. cbn [forallb] in Hund.
    apply andb_true_iff in Hund as [Ht Hund].
    destruct (accepting_inv _ Hacc) as [Hcr Hst].
    destruct p as [c r]. cbn [reading controller] in *. subst r.
    destruct t as [|events| |]; cbn [fold_left arrived] in *.
    + destruct (IH {| controller := consumer_read c; reading := true |}
                  eq_refl (consumer_read_accepting c Hacc)
                  (consumer_read_wf c Hwf) Hund Hlast) as (O & C & S & W).
      cbn [tick controller reading] in *.
      rewrite O, consumer_read_outbound. pack.
    + destruct (closes_last_app _ _ Hlast) as (L1 & L2 & L3).
      destruct (feed_accepting events c Hacc Hwf L1)
        as (c1 & E1 & O1 & C1 & S1 & W1 & A1).
      cbn [tick reading controller]. rewrite E1.
      destruct (snd (reframe events)) eqn:Hstop.
      * rewrite (L2 eq_refl), app_nil_r.
        destruct (run_idle ticks {| controller := c1; reading := true |} Hund)
          as (O & C & S & W).
        { right. by apply L2. }
        cbn [controller] in *. rewrite O, C, S, O1, C1, Hstop. pack.
      * destruct (IH {| controller := c1; reading := true |}
                    eq_refl (A1 eq_refl) W1 Hund (L3 eq_refl)) as (O & C & S & W).
        cbn [controller] in *. rewrite reframe_app by done.
        cbn [fst snd]. rewrite O, O1, app_assoc. pack.
    + discriminate.
    + destruct (run_idle ticks {| controller := c; reading := false |} Hund)
        as (O & C & S & W); [by left|].
      cbn [tick reading controller] in *.
      rewrite O, C, S, Hcr, Hst, app_nil_r. pack.
Qed.

Lemma open_closes_last events :
  snd (reframe events) = false → closes_last events = true.
Proof.
  induction events as [|event events IH]; cbn [reframe closes_last]; [done|].
  destruct (reframe_event event) as [chunks stop]. cbn [snd].
  destruct stop; [done|]. destruct (reframe events). cbn [snd] in *. auto.
Qed.

(** A consumer that keeps reading receives everything that was sent,
    and sees the end of a stream that was asked to close. *)
Lemma drain n c r :
  wf c → is_errored (state c) = false → (length (queue c) ≤ n)%nat →
  let c' := controller (fold_left tick (repeat ConsumerRead n)
                          {| controller := c; reading := r |}) in
  consumed c' = outbound c ∧ queue c' = [] ∧
  (closeRequested c = true → state c' = closed).
Proof.
  revert c. induction n as [|n IH]; intros c Hwf Herr Hlen.
  - cbn. destruct (queue c) eqn:Hq; [|cbn in Hlen; lia].
    unfold outbound. rewrite Hq, app_nil_r. pack.
    intros Hcr. destruct Hwf as (_ & _ & W3 & _).
    specialize (W3 Hcr Hq). destruct (state c); done.
  - cbn [repeat fold_left tick controller reading].
    destruct (IH (consumer_read c)) as (I1 & I2 & I3).
    + by apply consumer_read_wf.
    + by rewrite consumer_read_errored.
    + destruct Hwf as (_ & W2 & _). unfold consumer_read.
      destruct (state c); cbn in *;
        [|destruct (W2 eq_refl) as [-> _]; cbn; lia..].
      destruct (queue c); cbn in *; lia.
    + cbn zeta. rewrite I1, consumer_read_outbound.
      rewrite consumer_read_closeRequested in I3. pack.
Qed.
End ReframerFacts.

Lemma error_wf reason c : wf c → wf (error reason c).
Proof.
  unfold error. open_controller c. intros (H1 & H2 & H3 & H4).
  destruct st; cbn; pack.
Qed.

Lemma error_outbound reason c : outbound (error reason c) `prefix_of` outbound c.
Proof.
  unfold error. open_controller c. destruct st; cbn; [|done..].
  rewrite app_nil_r. by apply prefix_app_r.
Qed.

Lemma consumer_read_accepting_inv c :
  canCloseOrEnqueue (consumer_read c) = true → canCloseOrEnqueue c = true.
Proof.
  unfold consumer_read. open_controller c.
  destruct st; cbn; try done. destruct qu; cbn; try done.
  destruct cr; cbn; done.
Qed.

Section ArrivalOrder.
Context `{Runtime}.

(** On a controller that no longer accepts chunks the callback leaves
    the stream as it is, whatever the event. *)
Lemma onParse_refused event c :
  canCloseOrEnqueue c = false → ∃ r, onParse event c = (r, c).
Proof.
  intros Hno.
  destruct (enqueue_refused (API_ERROR_MESSAGES.PARSE_ERROR +:+ nl) c Hno) as [e0 E0].
  assert (Hfrag : ∀ tag fragment, ∃ r, emit_fragment tag fragment c = (r, c)).
  { intros tag [v|]; cbn [emit_fragment]; [|by eexists].
    destruct (truthy (Some v)); [|by eexists].
    unfold bind, lift. destruct (ToString v); [|by eexists].
    destruct (enqueue_refused ("[" +:+ tag +:+ "]" +:+ a +:+ "[/" +:+ tag +:+ "]")
                c Hno) as [e E].
    rewrite E. by eexists. }
  destruct event as [data|v]; cbn [onParse]; [|by eexists].
  destruct (String.eqb data "[DONE]" || String.eqb data "keep-alive").
  { destruct (String.eqb data "[DONE]"); [|by eexists].
    destruct (close_refused c Hno) as [e E]. rewrite E. by eexists. }
  unfold try_catch, bind at 1 2, lift.
  destruct (JSON_parse data) as [j|]; [|unfold bind; rewrite E0; by eexists].
  destruct (delta_of j) as [delta|e]; [|unfold bind; rewrite E0; by eexists].
  destruct (negb (truthy delta)); [by eexists|].
  unfold bind at 1.
  destruct (Hfrag "Reasoning" (get_opt delta "reasoning_content")) as [[[]|e] E1];
    rewrite E1; [|unfold bind; rewrite E0; by eexists].
  destruct (Hfrag "Content" (get_opt delta "content")) as [[[]|e] E2];
    rewrite E2; [by eexists|unfold bind; rewrite E0; by eexists].
Qed.

Lemma reframe_prefix events more :
  fst (reframe events) `prefix_of` fst (reframe (events ++ more)).
Proof.
  induction events as [|event events IH]; cbn [reframe app fst].
  - apply prefix_nil.
  - destruct (reframe_event event) as [chunks stop]. destruct stop; [done|].
    destruct (reframe events), (reframe (events ++ more)). cbn [fst] in *.
    by apply prefix_app.
Qed.

Lemma onParse_in_order event c seen :
  in_order c seen →
  ∃ r c', onParse event c = (r, c') ∧ in_order c' (seen ++ [event]) ∧
          (∀ e, r = Throw e → canCloseOrEnqueue c' = false).
Proof.
  intros (W & P & A).
  destruct (canCloseOrEnqueue c) eqn:Hacc.
  - destruct (A eq_refl) as [O S].
    destruct (onParse_accepting event c Hacc W) as (c' & E & O' & C' & S' & W' & A').
    exists (Ok ()), c'. split; [done|].
    assert (R : reframe (seen ++ [event])
                = (fst (reframe seen) ++ fst (reframe_event event),
                   snd (reframe_event event))).
    { rewrite reframe_app by done. cbn [reframe].
      destruct (reframe_event event) as [chunks stop].
      destruct stop; cbn; by rewrite ?app_nil_r. }
    rewrite <- O in R. unfold in_order. rewrite R. cbn [fst snd]. pack.
    + by rewrite O'.
    + intros Hacc'. destruct (accepting_inv c' Hacc') as [Hcr _]. split; [done|congruence].
  - destruct (onParse_refused event c Hacc) as [r E].
    exists r, c. split; [done|]. unfold in_order. pack.
    + etrans; [exact P|apply reframe_prefix].
    + congruence.
Qed.

Lemma in_order_more c seen more :
  canCloseOrEnqueue c = false → in_order c seen → in_order c (seen ++ more).
Proof.
  intros Hno (W & P & A). unfold in_order. pack.
  - etrans; [exact P|apply reframe_prefix].
  - congruence.
Qed.

Lemma feed_in_order events : ∀ c seen,
  in_order c seen →
  ∃ r c', feed events c = (r, c') ∧ in_order c' (seen ++ events) ∧
          (∀ e, r = Throw e → canCloseOrEnqueue c' = false).
Proof.
  induction events as [|event events IH]; intros c seen Hin.
  - exists (Ok ()), c. rewrite app_nil_r. pack.
  - destruct (onParse_in_order event c seen Hin) as (r & c1 & E1 & Hin1 & Hno1).
    cbn [feed]. unfold bind. rewrite E1. destruct r as [[]|e].
    + destruct (IH c1 (seen ++ [event]) Hin1) as (r & c' & E & Hin' & Hno').
      exists r, c'. rewrite <- app_assoc in Hin'. pack.
    + exists (Throw e), c1. pack.
      replace (seen ++ event :: events) with ((seen ++ [event]) ++ events)
        by (by rewrite <- app_assoc).
      apply in_order_more; eauto.
Qed.

Lemma consumer_read_in_order c seen :
  in_order c seen → in_order (consumer_read c) seen.
Proof.
  intros (W & P & A). unfold in_order. rewrite consumer_read_outbound. pack.
  - by apply consumer_read_wf.
  - intros Hacc. by apply A, consumer_read_accepting_inv.
Qed.

Lemma error_in_order reason c seen :
  in_order c seen → in_order (error reason c) seen.
Proof.
  intros (W & P & A). unfold in_order. pack.
  - by apply error_wf.
  - etrans; [apply error_outbound|exact P].
  - intros Hacc. exfalso. revert Hacc. unfold error. open_controller c.
    destruct st; cbn; destruct cr; cbn; done.
Qed.

Lemma error_refuses reason c : canCloseOrEnqueue (error reason c) = false.
Proof.
  unfold error. open_controller c. destruct st; cbn; destruct cr; cbn; done.
Qed.

(** Once the read loop has stopped nothing is sent any more. *)
Lemma stopped_in_order ticks : ∀ p seen,
  reading p = false → in_order (controller p) seen →
  in_order (controller (fold_left tick ticks p)) seen.
Proof.
  induction ticks as [|t ticks IH]; intros p seen Hr Hin; [done|].
  cbn [fold_left]. apply IH.
  - destruct t; cbn [tick]; rewrite ?Hr; done.
  - destruct t; cbn [tick]; rewrite ?Hr; try done.
    by apply consumer_read_in_order.
Qed.

(** Whatever happens, while the loop reads the chunks sent out stay in
    the order of the events that arrive. *)
Lemma reading_in_order ticks : ∀ p seen,
  reading p = true → in_order (controller p) seen →
  in_order (controller (fold_left tick ticks p)) (seen ++ arrived ticks).
Proof.
  induction ticks as [|t ticks IH]; intros p seen Hr Hin.
  - cbn. by rewrite app_nil_r.
  - destruct p as [c r]. cbn [reading controller] in *. subst r.
    destruct t as [|events| |]; cbn [fold_left tick arrived reading controller].
    + apply (IH {| controller := consumer_read c; reading := true |}); [done|].
      by apply consumer_read_in_order.
    + destruct (feed_in_order events c seen Hin) as (r & c' & E & Hin' & Hno).
      rewrite E, app_assoc. destruct r as [[]|e].
      * by apply (IH {| controller := c'; reading := true |}).
      * apply stopped_in_order; [done|]. cbn [controller].
        apply in_order_more; [apply error_refuses|]. by apply error_in_order.
    + rewrite app_nil_r. apply stopped_in_order; [done|]. by apply error_in_order.
    + rewrite app_nil_r. by apply stopped_in_order.
Qed.

Lemma fresh_in_order : in_order fresh_controller [].
Proof.
  unfold in_order. pack. apply fresh_controller_wf.
Qed.

Lemma createResponseStream_in_order has_body ticks :
  outbound (controller (createResponseStream has_body ticks))
    `prefix_of` fst (reframe (arrived ticks)).
Proof.
  unfold createResponseStream. destruct has_body; cbn [start].
  - by destruct (reading_in_order ticks
                   {| controller := fresh_controller; reading := true |} []
                   eq_refl fresh_in_order) as (_ & P & _).
  - destruct (stopped_in_order ticks
                {| controller := error API_ERROR_MESSAGES.STREAM_FAILED fresh_controller;
                   reading := false |} [] eq_refl) as (_ & P & _).
    + apply error_in_order, fresh_in_order.
    + etrans; [exact P|]. apply prefix_nil.
Qed.
End ArrivalOrder.

(** C1. The upstream events reasoning ["r1"], content ["c1"], [[DONE]]
    give exactly the outbound chunks [[Reasoning]r1[/Reasoning]] and
    [[Content]c1[/Content]], after which the stream is closed: whatever the
    cut of the events into chunks and whenever the consumer reads, and a
    consumer that reads twice more has both chunks and sees the end.  In
    general the outbound chunks are those of the events in arrival order:
    all of them as long as no event follows the closing one and the
    transport does not fail, and an initial part of them in every case;
    an event carrying a non-empty reasoning fragment and a non-empty
    content fragment gives the reasoning chunk first. *)
Theorem C1_reframes_in_arrival_order `{Runtime} :
  (∀ ticks n,
     JSON_parse (delta_payload "reasoning_content" "r1")
     = Some (delta_value [("reasoning_content", JStr "r1")]) →
     JSON_parse (delta_payload "content" "c1")
     = Some (delta_value [("content", JStr "c1")]) →
     undisturbed ticks →
     arrived ticks = [ParsedEvent (delta_payload "reasoning_content" "r1");
                      ParsedEvent (delta_payload "content" "c1");
                      ParsedEvent "[DONE]"] →
     let c := controller (createResponseStream true ticks) in
     let c' := controller (createResponseStream true
                             (ticks ++ repeat ConsumerRead n)) in
     outbound c = ["[Reasoning]r1[/Reasoning]"; "[Content]c1[/Content]"] ∧
     closeRequested c = true ∧ is_errored (state c) = false ∧
     ((2 ≤ n)%nat →
      consumed c' = ["[Reasoning]r1[/Reasoning]"; "[Content]c1[/Content]"] ∧
      state c' = closed)) ∧
  (∀ ticks,
     undisturbed ticks → closes_last (arrived ticks) = true →
     let c := controller (createResponseStream true ticks) in
     outbound c = fst (reframe (arrived ticks)) ∧
     closeRequested c = snd (reframe (arrived ticks)) ∧
     is_errored (state c) = false) ∧
  (∀ has_body ticks,
     outbound (controller (createResponseStream has_body ticks))
       `prefix_of` fst (reframe (arrived ticks))) ∧
  (∀ events,
     snd (reframe events) = false →
     fst (reframe events) = concat ((λ event, fst (reframe_event event)) <$> events)) ∧
  (∀ data j delta r t c,
     String.eqb data "[DONE]" = false → String.eqb data "keep-alive" = false →
     JSON_parse data = Some j → delta_of j = Ok (Some delta) →
     get_opt (Some delta) "reasoning_content" = Some (JStr r) → r ≠ "" →
     get_opt (Some delta) "content" = Some (JStr t) → t ≠ "" →
     canCloseOrEnqueue c = true → wf c →
     ∃ c', onParse (ParsedEvent data) c = (Ok (), c') ∧
           outbound c' = outbound c ++ [tagged "Reasoning" r; tagged "Content" t]).
Proof.
  assert (Hrun : ∀ ticks,
     undisturbed ticks → closes_last (arrived ticks) = true →
     let c := controller (createResponseStream true ticks) in
     outbound c = fst (reframe (arrived ticks)) ∧
     closeRequested c = snd (reframe (arrived ticks)) ∧
     is_errored (state c) = false ∧ wf c).
  { intros ticks Hund Hlast.
    apply (run_reframe ticks (start true) eq_refl fresh_controller_accepting
             fresh_controller_wf Hund Hlast). }
  split; [|split; [|split; [|split]]].
  - intros ticks n Hp1 Hp2 Hund Harr.
    assert (Hre : reframe (arrived ticks)
                  = (["[Reasoning]r1[/Reasoning]"; "[Content]c1[/Content]"], true)).
    { rewrite Harr. cbn [reframe reframe_event].
      rewrite Hp1, Hp2. reflexivity. }
    assert (Hlast : closes_last (arrived ticks) = true).
    { rewrite Harr. cbn [closes_last reframe_event]. rewrite Hp1, Hp2. reflexivity. }
    destruct (Hrun ticks Hund Hlast) as (O & C & S & W).
    cbn zeta in *. rewrite Hre in O, C. cbn [fst snd] in O, C. pack.
    intros Hn. unfold createResponseStream in *. rewrite fold_left_app.
    destruct (fold_left tick ticks (start true)) as [c r]. cbn [controller] in *.
    destruct (drain n c r W S) as (D1 & D2 & D3).
    { assert (length (outbound c) = 2%nat) as Hlen by (by rewrite O).
      unfold outbound in Hlen. rewrite length_app in Hlen. lia. }
    cbn zeta in *. rewrite D1, O. pack.
  - intros ticks Hund Hlast. destruct (Hrun ticks Hund Hlast) as (O & C & S & W). pack.
  - apply createResponseStream_in_order.
  - induction events as [|event events IH]; cbn [reframe fmap list_fmap concat]; [done|].
    destruct (reframe_event event) as [chunks stop]. cbn [fst snd].
    destruct stop; [done|]. destruct (reframe events). cbn [fst snd] in *.
    intros ->. by rewrite IH.
  - intros data j delta r t c Hd Hk Hj Hdelta Hr Hrne Ht Htne Hacc Hwf.
    destruct (onParse_accepting (ParsedEvent data) c Hacc Hwf)
      as (c' & E & O & _).
    exists c'. split; [done|]. rewrite O. f_equal.
    cbn [reframe_event]. rewrite Hd, Hk, Hj, Hdelta.
    destruct delta; try discriminate. cbn [truthy].
    rewrite Hr, Ht. cbn.
    destruct (String.eqb_spec r ""); [done|].
    destruct (String.eqb_spec t ""); [done|]. reflexivity.
Qed.

Lemma C1_reframes_in_arrival_order_witness :
  let ticks := [UpstreamChunk [ParsedEvent (delta_payload "reasoning_content" "r1")];
                ConsumerRead;
                UpstreamChunk [ParsedEvent (delta_payload "content" "c1");
                               ParsedEvent "[DONE]"];
                UpstreamDone] in
  let c := controller (@createResponseStream Reference.runtime true ticks) in
  let c' := controller (@createResponseStream Reference.runtime true
                          (ticks ++ repeat ConsumerRead 2)) in
  outbound c = ["[Reasoning]r1[/Reasoning]"; "[Content]c1[/Content]"] ∧
  closeRequested c = true ∧ is_errored (state c) = false ∧
  ((2 ≤ 2)%nat →
   consumed c' = ["[Reasoning]r1[/Reasoning]"; "[Content]c1[/Content]"] ∧
   state c' = closed).
Proof.
  intros ticks.
  apply (proj1 (@C1_reframes_in_arrival_order Reference.runtime) ticks 2%nat);
    reflexivity.
Defined.

(** C2. When the upstream body ends without the sentinel and without a
    parse failure, no error is signalled, but the stream is not closed
    either: [start] returns without calling [controller.close()], so the
    stream stays readable for ever, however long the consumer goes on
    reading. *)
Theorem C2_end_of_upstream_leaves_stream_open `{Runtime} ticks :
  undisturbed ticks → snd (reframe (arrived ticks)) = false →
  let c := controller (createResponseStream true ticks) in
  state c = readable ∧ closeRequested c = false ∧
  outbound c = fst (reframe (arrived ticks)).
Proof.
  intros Hund Hopen.
  destruct (run_reframe ticks (start true) eq_refl fresh_controller_accepting
              fresh_controller_wf Hund (open_closes_last _ Hopen))
    as (O & C & S & W).
  cbn zeta. unfold createResponseStream. rewrite O, C, Hopen. pack.
  destruct W as (_ & _ & _ & W4). rewrite Hopen in C. specialize (W4 C).
  destruct (state _); done.
Qed.

Lemma C2_end_of_upstream_leaves_stream_open_witness :
  let ticks := [UpstreamChunk [ParsedEvent (delta_payload "content" "c1")];
                UpstreamDone; ConsumerRead; ConsumerRead] in
  let c := controller (@createResponseStream Reference.runtime true ticks) in
  state c = readable ∧ closeRequested c = false ∧
  outbound c = ["[Content]c1[/Content]"].
Proof.
  intros ticks.
  apply (@C2_end_of_upstream_leaves_stream_open Reference.runtime ticks);
    reflexivity.
Defined.

(** C3. A payload that is not JSON gives the notice and closes the
    stream, and no later event adds a chunk; but the read loop goes on.
    When a delta follows in the same chunk while the notice is still
    queued (the consumer had at most one read pending, which the chunk
    before the notice has served), enqueueing on the closed controller
    throws, the handler of the callback throws again, and the handler of
    the loop errors the stream, which drops the queued notice.  The
    consumer then never receives the notice and sees an error instead of
    the end of the stream. *)
Theorem C3_event_after_parse_failure_errors_stream `{Runtime}
    first bad later a b pending n :
  (pending ≤ 1)%nat →
  String.eqb first "[DONE]" = false → String.eqb first "keep-alive" = false →
  JSON_parse first = Some (delta_value [("content", JStr a)]) → a ≠ "" →
  String.eqb bad "[DONE]" = false → String.eqb bad "keep-alive" = false →
  JSON_parse bad = None →
  String.eqb later "[DONE]" = false → String.eqb later "keep-alive" = false →
  JSON_parse later = Some (delta_value [("content", JStr b)]) → b ≠ "" →
  let c := controller (createResponseStream true
             (repeat ConsumerRead pending
              ++ UpstreamChunk [ParsedEvent first; ParsedEvent bad; ParsedEvent later]
              :: repeat ConsumerRead n)) in
  state c = errored API_ERROR_MESSAGES.STREAM_FAILED ∧
  consumed c = take pending [tagged "Content" a] ∧ queue c = [] ∧
  notice ∉ consumed c.
Proof.
  intros Hpending Hf1 Hf2 Hfirst Ha Hb1 Hb2 Hbad Hl1 Hl2 Hlater Hb.
  assert (Hrun : ∀ c0,
    c0 = fresh_controller ∨ c0 = consumer_read fresh_controller →
    ∃ c1, tick {| controller := c0; reading := true |}
            (UpstreamChunk [ParsedEvent first; ParsedEvent bad; ParsedEvent later])
          = {| controller := c1; reading := false |} ∧
          state c1 = errored API_ERROR_MESSAGES.STREAM_FAILED ∧ queue c1 = [] ∧
          consumed c1 = take (readRequests c0) [tagged "Content" a]).
  { intros c0 Hc0. cbn [tick reading controller feed]. unfold bind.
    cbn [onParse]. rewrite Hf1, Hf2, Hb1, Hb2, Hl1, Hl2. cbn [orb].
    unfold try_catch, bind, lift. rewrite Hfirst, Hbad, Hlater. cbn.
    destruct (String.eqb_spec a ""); [done|].
    destruct (String.eqb_spec b ""); [done|].
    destruct Hc0 as [-> | ->]; cbn; eexists; split; try reflexivity; pack. }
  assert (Hidle : ∀ m c1,
    state c1 = errored API_ERROR_MESSAGES.STREAM_FAILED →
    controller (fold_left tick (repeat ConsumerRead m)
                  {| controller := c1; reading := false |}) = c1).
  { induction m as [|m IH]; intros c1 Hc1; [done|].
    cbn [repeat fold_left tick controller reading].
    assert (consumer_read c1 = c1) as -> by (unfold consumer_read; by rewrite Hc1).
    by apply IH. }
  assert (Hnotice : notice ∉ take pending [tagged "Content" a]).
  { intros Hin. apply elem_of_take in Hin as (i & Hin & _).
    destruct i as [|i]; [|done]. injection Hin as Hin.
    unfold notice, tagged in Hin. discriminate. }
  unfold createResponseStream. rewrite fold_left_app. cbn [fold_left start].
  destruct pending as [|[|pending]]; [| |lia]; cbn [repeat fold_left].
  - destruct (Hrun fresh_controller ltac:(by left)) as (c1 & -> & S & Q & C).
    cbn zeta. rewrite (Hidle n c1 S), S, Q, C. pack.
  - change (tick {| controller := fresh_controller; reading := true |} ConsumerRead)
      with {| controller := consumer_read fresh_controller; reading := true |}.
    destruct (Hrun (consumer_read fresh_controller) ltac:(by right))
      as (c1 & -> & S & Q & C).
    cbn zeta. rewrite (Hidle n c1 S), S, Q, C. pack.
Qed.

Lemma C3_event_after_parse_failure_errors_stream_witness :
  let c := controller (@createResponseStream Reference.runtime true
             (repeat ConsumerRead 1
              ++ UpstreamChunk [ParsedEvent (delta_payload "content" "c1");
                                ParsedEvent "oops";
                                ParsedEvent (delta_payload "content" "c2")]
              :: repeat ConsumerRead 3)) in
  state c = errored API_ERROR_MESSAGES.STREAM_FAILED ∧
  consumed c = take 1 [tagged "Content" "c1"] ∧ queue c = [] ∧
  notice ∉ consumed c.
Proof.
  apply (@C3_event_after_parse_failure_errors_stream Reference.runtime
           (delta_payload "content" "c1") "oops" (delta_payload "content" "c2")
           "c1" "c2" 1%nat 3%nat);
    (reflexivity || discriminate || lia).
Defined.

(** * Properties of the history normaliser *)

Lemma string_app_assoc (a b c : string) : (a +:+ b) +:+ c = a +:+ (b +:+ c).
Proof.
  induction a as [|x a IH]; [done|].
  change (String x ((a +:+ b) +:+ c) = String x (a +:+ (b +:+ c))). by f_equal.
Qed.

Lemma string_app_empty (a : string) : a +:+ "" = a.
Proof.
  induction a as [|x a IH]; [done|].
  change (String x (a +:+ "") = String x a). by f_equal.
Qed.

(** Writing a content leaves every role as it is. *)
Lemma set_content_role (h : Heap) l text l' :
  role (<[l := {| role := role (h !!! l); content := text;
                  reasoning_content := reasoning_content (h !!! l) |}]> h !!! l')
  = role (h !!! l').
Proof.
  destruct (decide (l = l')) as [->|Hne].
  - by rewrite lookup_total_insert_eq.
  - by rewrite lookup_total_insert_ne.
Qed.

Lemma alternating_roles (h h' : Heap) messages :
  (∀ l, role (h' !!! l) = role (h !!! l)) →
  alternating h messages → alternating h' messages.
Proof. intros Hroles Halt i Hi. rewrite !Hroles. by apply Halt. Qed.

Lemma alternating_snoc (h : Heap) acc x :
  alternating h (acc ++ [x]) ↔
  alternating h acc ∧ (∀ p, last acc = Some p → role (h !!! x) ≠ role (h !!! p)).
Proof.
  unfold alternating. rewrite length_app. cbn [length]. split.
  - intros Halt. split.
    + intros i Hi. specialize (Halt i ltac:(lia)).
      rewrite !lookup_total_app_l in Halt by lia. done.
    + intros p Hp. apply last_Some in Hp as [acc' ->].
      specialize (Halt (length (acc' ++ [p])) ltac:(rewrite length_app; cbn; lia)).
      rewrite lookup_total_app_r in Halt by lia.
      rewrite Nat.sub_diag in Halt. cbn in Halt.
      rewrite lookup_total_app_l in Halt by (rewrite length_app; cbn; lia).
      rewrite length_app in Halt. cbn [length] in Halt.
      replace (length acc' + 1 - 1)%nat with (length acc' + 0)%nat in Halt by lia.
      rewrite lookup_total_app_r in Halt by lia.
      replace (length acc' + 0 - length acc')%nat with 0%nat in Halt by lia.
      done.
  - intros [Halt Hlast] i Hi.
    destruct (decide (i = length acc)) as [->|Hne].
    + rewrite lookup_total_app_r by lia. rewrite Nat.sub_diag. cbn.
      rewrite lookup_total_app_l by lia.
      destruct (last acc) as [p|] eqn:Hp.
      * specialize (Hlast p eq_refl).
        apply last_Some in Hp as [acc' ->].
        rewrite length_app. cbn [length].
        replace (length acc' + 1 - 1)%nat with (length acc' + 0)%nat by lia.
        rewrite lookup_total_app_r by lia.
        replace (length acc' + 0 - length acc')%nat with 0%nat by lia. done.
      * apply last_None in Hp. subst acc. cbn in Hi. lia.
    + rewrite !lookup_total_app_l by lia. apply Halt. lia.
Qed.

Lemma alternating_nil (h : Heap) : alternating h [].
Proof. intros i Hi. cbn in Hi. lia. Qed.

Lemma alternating_singleton (h : Heap) x : alternating h [x].
Proof. intros i Hi. cbn in Hi. lia. Qed.

(** One step of the reduction: the element is appended, or its content is
    written into the last kept message, whose role it shares. *)
Lemma merge_step acc curr index (h : Heap) :
  (index = 0%nat → acc = []) → (index ≠ 0%nat → acc ≠ []) →
  alternating h acc →
  ∃ acc' h', merge acc curr index h = (Ok acc', h') ∧
    acc' ≠ [] ∧
    (∀ l, role (h' !!! l) = role (h !!! l)) ∧
    (∀ l, ∃ suffix, content (h' !!! l) = content (h !!! l) +:+ suffix) ∧
    alternating h' acc' ∧
    (acc' = acc ∨ acc' = acc ++ [curr]) ∧
    head acc' = head (acc ++ [curr]).
Proof.
  intros H0 Hn Halt. unfold merge.
  destruct (Nat.eqb_spec index 0) as [->|Hidx].
  - rewrite (H0 eq_refl). exists [curr], h. cbn. pack.
    + intros l. exists "". by rewrite string_app_empty.
    + apply alternating_singleton.
  - specialize (Hn Hidx).
    destruct (last acc) as [p|] eqn:Hp; [|by apply last_None in Hp].
    unfold bind, deref, set_content, ret.
    destruct (String.eqb_spec (role (h !!! p)) (role (h !!! curr))) as [Heq|Hne].
    + eexists acc, _. split; [reflexivity|]. pack.
      * intros l. apply set_content_role.
      * intros l. destruct (decide (p = l)) as [->|Hpl].
        -- rewrite lookup_total_insert_eq. cbn. eauto.
        -- rewrite lookup_total_insert_ne by done. exists "".
           by rewrite string_app_empty.
      * eapply alternating_roles; [|exact Halt]. intros l. apply set_content_role.
      * destruct acc; [done|]. reflexivity.
    + exists (acc ++ [curr]), h. pack.
      * by destruct acc.
      * intros l. exists "". by rewrite string_app_empty.
      * apply alternating_snoc. split; [done|].
        intros p' Hp'. rewrite Hp in Hp'. injection Hp' as <-.
        intros E. apply Hne. symmetry. exact E.
Qed.

Lemma reduce_merge items : ∀ index acc (h : Heap),
  (index = 0%nat → acc = []) → (index ≠ 0%nat → acc ≠ []) →
  alternating h acc →
  ∃ out h', reduce merge items index acc h = (Ok out, h') ∧
    (∀ l, role (h' !!! l) = role (h !!! l)) ∧
    (∀ l, ∃ suffix, content (h' !!! l) = content (h !!! l) +:+ suffix) ∧
    alternating h' out ∧
    (∃ more, out = acc ++ more ∧ ∀ l, l ∈ more → l ∈ items) ∧
    head out = head (acc ++ items).
Proof.
  induction items as [|curr items IH]; intros index acc h H0 Hn Halt.
  - exists acc, h. cbn. rewrite app_nil_r. pack.
    + intros l. exists "". by rewrite string_app_empty.
    + exists []. rewrite app_nil_r. split; [done|]. intros l Hl. by apply elem_of_nil in Hl.
  - destruct (merge_step acc curr index h H0 Hn Halt)
      as (acc' & h1 & E1 & Hne & R1 & G1 & A1 & Hacc' & Hhd).
    destruct (IH (S index) acc' h1 ltac:(lia) ltac:(done) A1)
      as (out & h' & E2 & R2 & G2 & A2 & (more & Hout & Hmore) & Hhd2).
    exists out, h'. cbn [reduce]. unfold bind. rewrite E1. pack.
    + intros l. by rewrite R2, R1.
    + intros l. destruct (G1 l) as [s1 Hs1]. destruct (G2 l) as [s2 Hs2].
      exists (s1 +:+ s2). by rewrite Hs2, Hs1, string_app_assoc.
    + destruct Hacc' as [->| ->].
      * exists more. split; [done|]. intros l Hl. right. auto.
      * exists (curr :: more). rewrite Hout, <- app_assoc. split; [done|].
        intros l Hl. apply elem_of_cons in Hl as [->|Hl]; [left|right; auto].
    + rewrite Hhd2. destruct acc' as [|a acc']; [done|].
      destruct acc as [|b acc]; cbn in *; congruence.
Qed.

Lemma for_each_ok {St A} (items : list A) (body : A → M St ()) s :
  (∀ i, i ∈ items → body i s = (Ok (), s)) →
  for_each items body s = (Ok (), s).
Proof.
  induction items as [|i items IH]; intros Hall; [done|].
  cbn [for_each]. unfold bind. rewrite (Hall i) by left.
  apply IH. intros j Hj. apply Hall. by right.
Qed.

Lemma for_each_inv {St A} (items : list A) (body : A → M St ()) s e :
  (∀ i, body i s = (Ok (), s) ∨ body i s = (Throw e, s)) →
  (for_each items body s = (Ok (), s) ∧ ∀ i, i ∈ items → body i s = (Ok (), s)) ∨
  (for_each items body s = (Throw e, s) ∧ ∃ i, i ∈ items ∧ body i s = (Throw e, s)).
Proof.
  intros Hbody. induction items as [|i items IH].
  - left. split; [done|]. intros i Hi. by apply elem_of_nil in Hi.
  - cbn [for_each]. unfold bind. destruct (Hbody i) as [Hi|Hi]; rewrite Hi.
    + destruct IH as [[E Hall]|[E (j & Hj & Hthrow)]].
      * left. split; [done|]. intros j Hj.
        apply elem_of_cons in Hj as [->|Hj]; auto.
      * right. split; [done|]. exists j. split; [by right|done].
    + right. split; [done|]. exists i. split; [by left|done].
Qed.

(** The re-validation accepts exactly the sequences whose adjacent roles
    differ, and otherwise raises the 400 error; it looks at nothing else. *)
Lemma validateMessageSequence_spec (h : Heap) messages :
  (validateMessageSequence messages h = (Ok (), h) ∧ alternating h messages) ∨
  (validateMessageSequence messages h
   = (Throw (ApiError API_ERROR_MESSAGES.INVALID_MESSAGE_SEQUENCE 400), h) ∧
   ¬ alternating h messages).
Proof.
  unfold validateMessageSequence.
  set (body := λ i : nat, _).
  destruct (for_each_inv (seq 1 (length messages - 1)) body h
              (ApiError API_ERROR_MESSAGES.INVALID_MESSAGE_SEQUENCE 400))
    as [[E Hall]|[E (i & Hi & Hthrow)]].
  - intros i. unfold body, bind, deref, throw, ret.
    destruct (String.eqb _ _); auto.
  - left. split; [done|]. intros i Hi.
    specialize (Hall i ltac:(apply elem_of_seq; lia)).
    unfold body, bind, deref, throw, ret in Hall.
    destruct (String.eqb_spec (role (h !!! (messages !!! i)))
                (role (h !!! (messages !!! (i - 1)%nat)))); [discriminate|done].
  - right. split; [done|]. intros Halt.
    apply elem_of_seq in Hi. specialize (Halt i ltac:(lia)).
    unfold body, bind, deref, throw, ret in Hthrow.
    destruct (String.eqb_spec (role (h !!! (messages !!! i)))
                (role (h !!! (messages !!! (i - 1)%nat)))); [done|discriminate].
Qed.

Lemma validateMessageSequence_alternating (h : Heap) messages :
  alternating h messages → validateMessageSequence messages h = (Ok (), h).
Proof.
  intros Halt. destruct (validateMessageSequence_spec h messages) as [[E _]|[_ N]]; done.
Qed.

Lemma alternating_prefix (h : Heap) l1 l2 :
  alternating h (l1 ++ l2) → alternating h l1.
Proof.
  intros Halt i Hi. specialize (Halt i ltac:(rewrite length_app; lia)).
  by rewrite !lookup_total_app_l in Halt by lia.
Qed.

(** On a sequence whose adjacent roles differ the reduction keeps every
    element and writes nothing. *)
Lemma reduce_merge_alternating items : ∀ index acc (h : Heap),
  (index = 0%nat → acc = []) → (index ≠ 0%nat → acc ≠ []) →
  alternating h (acc ++ items) →
  reduce merge items index acc h = (Ok (acc ++ items), h).
Proof.
  induction items as [|curr items IH]; intros index acc h H0 Hn Halt.
  - by rewrite app_nil_r.
  - cbn [reduce]. unfold bind.
    assert (Hstep : merge acc curr index h = (Ok (acc ++ [curr]), h)).
    { unfold merge. destruct (Nat.eqb_spec index 0) as [->|Hidx]; [done|].
      specialize (Hn Hidx).
      destruct (last acc) as [p|] eqn:Hp; [|by apply last_None in Hp].
      unfold bind, deref, ret.
      replace (acc ++ curr :: items) with ((acc ++ [curr]) ++ items) in Halt
        by (by rewrite <- app_assoc).
      apply alternating_prefix, alternating_snoc in Halt as [_ Hlast].
      specialize (Hlast p Hp).
      destruct (String.eqb_spec (role (h !!! p)) (role (h !!! curr))); [|done].
      by destruct Hlast. }
    rewrite Hstep, IH.
    + by rewrite <- app_assoc.
    + lia.
    + intros _. by destruct acc.
    + by rewrite <- app_assoc.
Qed.

Lemma normalizeMessages_total (h : Heap) messages :
  ∃ normalized h',
    reduce merge messages 0%nat [] h = (Ok normalized, h') ∧
    alternating h' normalized ∧
    validateMessageSequence normalized h' = (Ok (), h') ∧
    normalizeMessages messages h = (Ok normalized, h') ∧
    (∀ l, role (h' !!! l) = role (h !!! l)) ∧
    head normalized = head messages ∧
    (∀ l, l ∈ normalized → l ∈ messages).
Proof.
  destruct (reduce_merge messages 0%nat [] h ltac:(done) ltac:(done)
              (alternating_nil h))
    as (out & h' & E & R & G & A & (more & Hout & Hmore) & Hhd).
  exists out, h'. pose proof (validateMessageSequence_alternating h' out A) as V.
  unfold normalizeMessages, bind. rewrite E, V. pack.
  intros l Hl. apply Hmore. by rewrite Hout in Hl.
Qed.

(** The two wrappers are new objects, distinct from each other and from
    every object of the heap. *)
Lemma wrappers_fresh (h : Heap) (m : Message) :
  let l1 := fresh (dom h) in
  let l2 := fresh (dom (<[l1 := m]> h)) in
  (l1 ∉ dom h) ∧ (l2 ∉ dom h) ∧ l1 ≠ l2.
Proof.
  intros l1 l2. pose proof (is_fresh (dom h)) as F1.
  pose proof (is_fresh (dom (<[l1 := m]> h))) as F2.
  fold l1 in F1. fold l2 in F2. rewrite dom_insert_L in F2.
  split; [done|]. split; set_solver.
Qed.

(** * The normaliser on untyped values *)

Section UntypedFacts.
Context `{Runtime}.

Lemma strict_eq_sym a b : Untyped.strict_eq a b = Untyped.strict_eq b a.
Proof.
  destruct a as [[]|], b as [[]|]; cbn; try done.
  - by destruct b, b0.
  - apply bool_decide_ext. split; intros ->; done.
  - apply String.eqb_sym.
Qed.

Lemma assoc_set_field k k' v fields :
  assoc k (Untyped.set_field k' v fields)
  = if String.eqb k k' then Some v else assoc k fields.
Proof.
  induction fields as [|[k0 v0] fields IH]; cbn [Untyped.set_field assoc].
  - by destruct (String.eqb k k').
  - destruct (String.eqb_spec k' k0) as [->|Hne]; cbn [assoc].
    + by destruct (String.eqb k k0).
    + rewrite IH. destruct (String.eqb_spec k k0) as [->|Hne']; [|done].
      destruct (String.eqb_spec k0 k'); [by subst|done].
Qed.

(** Writing a content leaves the role as it is. *)
Lemma write_content_role m text m' :
  Untyped.write_content m text = Ok m' → Untyped.read_role m' = Untyped.read_role m.
Proof.
  unfold Untyped.write_content, Untyped.read_role.
  destruct (Untyped.js m) eqn:E; try done; intros [= <-]; cbn [Untyped.js get];
    [done|]. by rewrite assoc_set_field.
Qed.

Lemma ToString_raises v e : ToString v = Throw e → instanceof_ApiError e = false.
Proof.
  unfold ToString. destruct v; try done; destruct (ToString_other _); try done;
    by intros [= <-].
Qed.

Lemma get_raises v k e : get v k = Throw e → instanceof_ApiError e = false.
Proof. destruct v as [[]|]; try done; by intros [= <-]. Qed.

Lemma read_role_raises m e :
  Untyped.read_role m = Throw e → instanceof_ApiError e = false.
Proof. apply get_raises. Qed.

Lemma read_content_raises m e :
  Untyped.read_content m = Throw e → instanceof_ApiError e = false.
Proof.
  unfold Untyped.read_content. destruct (Untyped.js m); try done; by intros [= <-].
Qed.

Lemma write_content_raises m text e :
  Untyped.write_content m text = Throw e → instanceof_ApiError e = false.
Proof.
  unfold Untyped.write_content. destruct (Untyped.js m); try done; by intros [= <-].
Qed.

Lemma ofor_each_Ok {A} (items : list A) (body : A → outcome ()) :
  Untyped.ofor_each items body = Ok () ↔ ∀ i, i ∈ items → body i = Ok ().
Proof.
  induction items as [|i items IH]; cbn [Untyped.ofor_each].
  - split; [|done]. intros _ i Hi. by apply elem_of_nil in Hi.
  - split.
    + intros E j Hj. destruct (body i) as [[]|e] eqn:Hi; [|done].
      apply elem_of_cons in Hj as [->|Hj]; [done|]. by apply IH.
    + intros Hall. rewrite (Hall i) by left. cbn [obind]. apply IH.
      intros j Hj. apply Hall. by right.
Qed.

Lemma ofor_each_Throw {A} (items : list A) (body : A → outcome ()) e :
  Untyped.ofor_each items body = Throw e → ∃ i, i ∈ items ∧ body i = Throw e.
Proof.
  induction items as [|i items IH]; cbn [Untyped.ofor_each]; [done|].
  destruct (body i) as [[]|e'] eqn:Hi; cbn [obind].
  - intros (j & Hj & E)%IH. exists j. split; [by right|done].
  - intros [= ->]. exists i. split; [by left|done].
Qed.

(** The re-validation accepts exactly the sequences whose adjacent roles
    can be read and differ. *)
Lemma untyped_validateMessageSequence_spec messages :
  Untyped.validateMessageSequence messages = Ok () ↔ untyped_alternating messages.
Proof.
  unfold Untyped.validateMessageSequence. rewrite ofor_each_Ok. split.
  - intros Hall i Hi. specialize (Hall i ltac:(apply elem_of_seq; lia)).
    destruct (Untyped.read_role (messages !!! i)) as [a|]; [|done].
    destruct (Untyped.read_role (messages !!! (i - 1)%nat)) as [b|]; [|done].
    cbn [obind] in Hall. exists a, b.
    by destruct (Untyped.strict_eq a b).
  - intros Halt i Hi%elem_of_seq.
    destruct (Halt i ltac:(lia)) as (a & b & -> & -> & Hne).
    cbn [obind]. by rewrite Hne.
Qed.

Lemma untyped_alternating_snoc acc x :
  untyped_alternating (acc ++ [x]) ↔
  untyped_alternating acc ∧
  (∀ p, last acc = Some p →
        ∃ a b, Untyped.read_role x = Ok a ∧ Untyped.read_role p = Ok b ∧
               Untyped.strict_eq a b = false).
Proof.
  unfold untyped_alternating. rewrite length_app. cbn [length]. split.
  - intros Halt. split.
    + intros i Hi. specialize (Halt i ltac:(lia)).
      by rewrite !lookup_total_app_l in Halt by lia.
    + intros p Hp. apply last_Some in Hp as [acc' ->].
      specialize (Halt (length (acc' ++ [p])) ltac:(rewrite length_app; cbn; lia)).
      rewrite lookup_total_app_r in Halt by lia.
      rewrite Nat.sub_diag in Halt. cbn in Halt.
      rewrite lookup_total_app_l in Halt by (rewrite length_app; cbn; lia).
      rewrite length_app in Halt. cbn [length] in Halt.
      replace (length acc' + 1 - 1)%nat with (length acc' + 0)%nat in Halt by lia.
      rewrite lookup_total_app_r in Halt by lia.
      replace (length acc' + 0 - length acc')%nat with 0%nat in Halt by lia.
      done.
  - intros [Halt Hlast] i Hi.
    destruct (decide (i = length acc)) as [->|Hne].
    + rewrite lookup_total_app_r by lia. rewrite Nat.sub_diag. cbn.
      rewrite lookup_total_app_l by lia.
      destruct (last acc) as [p|] eqn:Hp.
      * specialize (Hlast p eq_refl).
        apply last_Some in Hp as [acc' ->].
        rewrite length_app. cbn [length].
        replace (length acc' + 1 - 1)%nat with (length acc' + 0)%nat by lia.
        rewrite lookup_total_app_r by lia.
        replace (length acc' + 0 - length acc')%nat with 0%nat by lia. done.
      * apply last_None in Hp. subst acc. cbn in Hi. lia.
    + rewrite !lookup_total_app_l by lia. apply Halt. lia.
Qed.

Lemma untyped_alternating_prefix l1 l2 :
  untyped_alternating (l1 ++ l2) → untyped_alternating l1.
Proof.
  intros Halt i Hi. specialize (Halt i ltac:(rewrite length_app; lia)).
  by rewrite !lookup_total_app_l in Halt by lia.
Qed.

(** One step of the reduction on untyped elements: when it completes,
    the element has been appended, or written into the last kept element,
    whose role it shares; when it throws, it throws no [ApiError]. *)
Lemma untyped_merge_step acc curr index :
  (index = 0%nat → acc = []) → (index ≠ 0%nat → acc ≠ []) →
  untyped_alternating acc →
  match Untyped.merge acc curr index with
  | Ok acc' =>
      acc' ≠ [] ∧ untyped_alternating acc' ∧
      Untyped.read_role <$> head acc' = Untyped.read_role <$> head (acc ++ [curr])
  | Throw e => instanceof_ApiError e = false
  end.
Proof.
  intros H0 Hn Halt. unfold Untyped.merge.
  destruct (Nat.eqb_spec index 0) as [->|Hidx].
  - rewrite (H0 eq_refl). cbn [app]. pack.
    intros i Hi. cbn in Hi. lia.
  - specialize (Hn Hidx).
    destruct (last acc) as [p|] eqn:Hp; [|by apply last_None in Hp].
    destruct (Untyped.read_role p) as [pr|e] eqn:Hpr; cbn [obind];
      [|by eapply read_role_raises].
    destruct (Untyped.read_role curr) as [cr|e] eqn:Hcr; cbn [obind];
      [|by eapply read_role_raises].
    destruct (Untyped.strict_eq pr cr) eqn:Heq.
    + destruct (Untyped.read_content p) as [a|e] eqn:Ha; cbn [obind];
        [|by eapply read_content_raises].
      destruct (Untyped.ToString_opt a) as [a'|e] eqn:Ha'; cbn [obind].
      2:{ destruct a; [by eapply ToString_raises|done]. }
      destruct (Untyped.read_content curr) as [b|e] eqn:Hb; cbn [obind];
        [|by eapply read_content_raises].
      destruct (Untyped.ToString_opt b) as [b'|e] eqn:Hb'; cbn [obind].
      2:{ destruct b; [by eapply ToString_raises|done]. }
      destruct (Untyped.write_content p (a' +:+ nl +:+ b')) as [written|e] eqn:Hw;
        cbn [obind]; [|by eapply write_content_raises].
      apply write_content_role in Hw.
      apply last_Some in Hp as [acc0 ->]. rewrite removelast_last.
      pack.
      * by destruct acc0.
      * apply untyped_alternating_snoc.
        apply untyped_alternating_snoc in Halt as [Halt Hlast].
        split; [done|]. intros q Hq.
        destruct (Hlast q Hq) as (a1 & b1 & Ha1 & Hb1 & Hne).
        exists a1, b1. by rewrite Hw.
      * destruct acc0 as [|x acc0]; [|done].
        cbn [app head fmap option_fmap option_map]. by rewrite Hw.
    + pack; try (by destruct acc).
      apply untyped_alternating_snoc. split; [done|].
      intros p' Hp'. rewrite Hp in Hp'. injection Hp' as <-.
      exists cr, pr. pack. by rewrite strict_eq_sym.
Qed.

Lemma untyped_reduce_merge items : ∀ index acc,
  (index = 0%nat → acc = []) → (index ≠ 0%nat → acc ≠ []) →
  untyped_alternating acc →
  match Untyped.oreduce Untyped.merge items index acc with
  | Ok out =>
      untyped_alternating out ∧
      Untyped.read_role <$> head out = Untyped.read_role <$> head (acc ++ items)
  | Throw e => instanceof_ApiError e = false
  end.
Proof.
  induction items as [|curr items IH]; intros index acc H0 Hn Halt.
  - cbn. by rewrite app_nil_r.
  - cbn [Untyped.oreduce].
    pose proof (untyped_merge_step acc curr index H0 Hn Halt) as Hstep.
    destruct (Untyped.merge acc curr index) as [acc'|e]; cbn [obind]; [|done].
    destruct Hstep as (Hne & Halt' & Hhd).
    specialize (IH (S index) acc' ltac:(lia) ltac:(done) Halt').
    destruct (Untyped.oreduce Untyped.merge items (S index) acc') as [out|e];
      [|done].
    destruct IH as [Hout Hhd']. split; [done|]. rewrite Hhd'.
    destruct acc' as [|a acc']; [done|].
    destruct acc as [|b acc]; cbn in *; congruence.
Qed.

(** On whatever it is given, the normaliser returns a sequence that
    the re-validation accepts, or throws an error that is no [ApiError]:
    the re-validation never rejects. *)
Lemma untyped_normalizeMessages_outcome messages :
  match Untyped.normalizeMessages messages with
  | Ok normalized =>
      Untyped.oreduce Untyped.merge messages 0%nat [] = Ok normalized ∧
      untyped_alternating normalized ∧
      Untyped.validateMessageSequence normalized = Ok () ∧
      Untyped.read_role <$> head normalized = Untyped.read_role <$> head messages
  | Throw e => instanceof_ApiError e = false
  end.
Proof.
  unfold Untyped.normalizeMessages.
  pose proof (untyped_reduce_merge messages 0%nat [] ltac:(done) ltac:(done)
                ltac:(intros i Hi; cbn in Hi; lia)) as Hred.
  destruct (Untyped.oreduce Untyped.merge messages 0%nat []) as [out|e];
    cbn [obind]; [|done].
  destruct Hred as [Halt Hhd].
  pose proof (proj2 (untyped_validateMessageSequence_spec out) Halt) as ->.
  cbn [obind]. pack. by apply untyped_validateMessageSequence_spec.
Qed.
End UntypedFacts.

(** * The normaliser on elements of the declared type *)

Section DeclaredTypes.
Context `{Runtime}.

Lemma as_Message_inv v m :
  as_Message v = Some m →
  ∃ fields, v = JObj fields ∧
    assoc "role" fields = Some (JStr (role m)) ∧
    assoc "content" fields = Some (JStr (content m)) ∧
    match assoc "reasoning_content" fields with
    | None => reasoning_content m = None
    | Some rc => ∃ s, rc = JStr s ∧ reasoning_content m = Some s
    end.
Proof.
  destruct v as [| | | | |fields]; try done. cbn [as_Message].
  destruct (assoc "role" fields) as [[| | |r| |]|] eqn:Hr; try done.
  destruct (assoc "content" fields) as [[| | |c| |]|] eqn:Hc; try done.
  cbn [as_string].
  destruct (assoc "reasoning_content" fields) as [[| | |rc| |]|] eqn:Hrc; try done;
    intros [= <-]; exists fields; rewrite Hrc; pack; eauto.
Qed.

Lemma is_Message_read e m :
  is_Message e m →
  Untyped.read_role e = Ok (Some (JStr (role m))) ∧
  Untyped.read_content e = Ok (Some (JStr (content m))).
Proof.
  intros (fields & E & Hr & Hc & _)%as_Message_inv.
  unfold Untyped.read_role, Untyped.read_content. rewrite E. cbn [get].
  by rewrite Hr, Hc.
Qed.

Lemma is_Message_write e m text :
  is_Message e m →
  ∃ e', Untyped.write_content e text = Ok e' ∧
        is_Message e' {| role := role m; content := text;
                         reasoning_content := reasoning_content m |}.
Proof.
  intros (fields & E & Hr & Hc & Hrc)%as_Message_inv.
  unfold Untyped.write_content, is_Message. rewrite E. eexists. split; [done|].
  cbn [Untyped.js as_Message]. rewrite !assoc_set_field. cbn [String.eqb Ascii.eqb Bool.eqb].
  rewrite Hr. cbn [as_string].
  destruct (assoc "reasoning_content" fields) as [rc|]; [|by rewrite Hrc].
  destruct Hrc as (s & -> & ->). done.
Qed.

Lemma Forall2_is_Message_last acc tacc p :
  Forall2 is_Message acc tacc → last acc = Some p →
  ∃ acc0 tacc0 tp, acc = acc0 ++ [p] ∧ tacc = tacc0 ++ [tp] ∧
                   Forall2 is_Message acc0 tacc0 ∧ is_Message p tp.
Proof.
  intros Hall [acc0 ->]%last_Some.
  apply Forall2_app_inv_l in Hall as (tacc0 & tl & Hall0 & Hl & ->).
  apply Forall2_cons_inv_l in Hl as (tp & tl' & Hp & Hnil & ->).
  apply Forall2_nil_inv_l in Hnil as ->. eauto 10.
Qed.

(** On elements of the declared type a step of the reduction completes
    and is the step on messages. *)
Lemma declared_merge_step acc tacc curr m index :
  Forall2 is_Message acc tacc → is_Message curr m →
  (index = 0%nat → acc = []) → (index ≠ 0%nat → acc ≠ []) →
  ∃ acc', Untyped.merge acc curr index = Ok acc' ∧ acc' ≠ [] ∧
          Forall2 is_Message acc' (merge_value tacc m).
Proof.
  intros Hall Hm H0 Hn. unfold Untyped.merge, merge_value.
  destruct (Nat.eqb_spec index 0) as [->|Hidx].
  - rewrite (H0 eq_refl) in *. apply Forall2_nil_inv_l in Hall as ->.
    exists [curr]. cbn. pack; by apply Forall2_cons.
  - specialize (Hn Hidx).
    destruct (last acc) as [p|] eqn:Hp; [|by apply last_None in Hp].
    destruct (Forall2_is_Message_last acc tacc p Hall Hp)
      as (acc0 & tacc0 & tp & -> & -> & Hall0 & Hptp).
    rewrite last_snoc.
    destruct (is_Message_read p tp Hptp) as [-> Hpc].
    destruct (is_Message_read curr m Hm) as [-> Hcc].
    cbn [obind Untyped.strict_eq].
    destruct (String.eqb (role tp) (role m)).
    + rewrite Hpc, Hcc. cbn [obind Untyped.ToString_opt ToString].
      destruct (is_Message_write p tp (content tp +:+ nl +:+ content m) Hptp)
        as (written & -> & Hw).
      cbn [obind]. rewrite !removelast_last. eexists. pack; try (by destruct acc0).
      apply Forall2_app; [done|]. by apply Forall2_cons.
    + eexists. pack; try (by destruct acc0).
      apply Forall2_app; [by apply Forall2_app; [|apply Forall2_cons]|].
      by apply Forall2_cons.
Qed.

Lemma declared_reduce_merge items : ∀ titems index acc tacc,
  Forall2 is_Message items titems → Forall2 is_Message acc tacc →
  (index = 0%nat → acc = []) → (index ≠ 0%nat → acc ≠ []) →
  ∃ out, Untyped.oreduce Untyped.merge items index acc = Ok out ∧
         Forall2 is_Message out (fold_left merge_value titems tacc).
Proof.
  induction items as [|curr items IH]; intros titems index acc tacc Hitems Hacc H0 Hn.
  - apply Forall2_nil_inv_l in Hitems as ->. exists acc. by cbn.
  - apply Forall2_cons_inv_l in Hitems as (m & titems' & Hm & Hitems & ->).
    destruct (declared_merge_step acc tacc curr m index Hacc Hm H0 Hn)
      as (acc' & E & Hne & Hacc').
    destruct (IH titems' (S index) acc' (merge_value tacc m) Hitems Hacc'
                ltac:(lia) ltac:(done)) as (out & Eout & Hout).
    exists out. cbn [Untyped.oreduce fold_left]. rewrite E. by cbn [obind].
Qed.

Lemma as_Messages_Forall2 vs messages :
  as_Messages vs = Some messages ↔
  Forall2 (λ v m, as_Message v = Some m) vs messages.
Proof.
  revert messages. induction vs as [|v vs IH]; intros messages; cbn [as_Messages].
  - split; [by intros [= <-]; constructor|]. by intros ->%Forall2_nil_inv_l.
  - split.
    + destruct (as_Message v) as [m|] eqn:Hm; [|done].
      destruct (as_Messages vs) as [ms|]; [|done]. intros [= <-].
      constructor; [done|]. by apply IH.
    + intros (m & ms & Hm & Hms & ->)%Forall2_cons_inv_l.
      rewrite Hm. apply IH in Hms. by rewrite Hms.
Qed.

Lemma is_Message_elements history messages :
  Forall2 is_Message history messages ↔
  as_Messages (Untyped.js <$> history) = Some messages.
Proof.
  rewrite as_Messages_Forall2, Forall2_fmap_l. done.
Qed.

Lemma declared_log_messages history messages :
  Forall2 is_Message history messages → Untyped.log_messages history = Ok ().
Proof.
  intros Hall. apply ofor_each_Ok. intros e He.
  apply list_elem_of_lookup in He as [i Hi].
  destruct (Forall2_lookup_l _ _ _ _ _ Hall Hi) as (m & _ & Hm).
  unfold Untyped.log_entry. destruct (is_Message_read e m Hm) as [-> ->]. done.
Qed.

(** For a request of the declared types the history is built without
    failure; its elements are, as messages, the given ones with the two
    wrappers around them and adjacent messages of one role merged; and the
    logging before the upstream call succeeds on it. *)
Lemma declared_history prompt messages input p ms i :
  as_string prompt = Some p → as_Messages messages = Some ms →
  as_string input = Some i →
  ∃ history,
    Untyped.buildMessageHistory prompt messages input = Ok history ∧
    as_Messages (Untyped.js <$> history)
    = Some (coalesce ({| role := "system"; content := p;
                         reasoning_content := None |}
                      :: ms
                      ++ [{| role := "user"; content := i;
                             reasoning_content := None |}])) ∧
    Untyped.log_messages history = Ok ().
Proof.
  intros Hp Hms Hi.
  destruct prompt as [[| | |p'| |]|]; try done. injection Hp as ->.
  destruct input as [[| | |i'| |]|]; try done. injection Hi as ->.
  apply as_Messages_Forall2 in Hms.
  set (sys := {| role := "system"; content := p; reasoning_content := None |}).
  set (usr := {| role := "user"; content := i; reasoning_content := None |}).
  assert (Hall : Forall2 is_Message
            ([Untyped.wrapper (Some (JStr p)) "system"]
             ++ (Untyped.plain <$> messages)
             ++ [Untyped.wrapper (Some (JStr i)) "user"])
            (sys :: ms ++ [usr])).
  { constructor; [done|]. apply Forall2_app; [|by constructor].
    by apply Forall2_fmap_l. }
  destruct (declared_reduce_merge _ _ 0%nat [] [] Hall ltac:(constructor)
              ltac:(done) ltac:(done)) as (out & Eout & Hout).
  pose proof (untyped_reduce_merge
                ([Untyped.wrapper (Some (JStr p)) "system"]
                 ++ (Untyped.plain <$> messages)
                 ++ [Untyped.wrapper (Some (JStr i)) "user"])
                0%nat [] ltac:(done) ltac:(done)
                ltac:(intros k Hk; cbn in Hk; lia)) as Hred.
  rewrite Eout in Hred. destruct Hred as [Halt _].
  exists out. unfold Untyped.buildMessageHistory, Untyped.normalizeMessages.
  rewrite Eout. cbn [obind].
  rewrite (proj2 (untyped_validateMessageSequence_spec out) Halt). cbn [obind].
  pack.
  - by apply is_Message_elements.
  - by eapply declared_log_messages.
Qed.
End DeclaredTypes.




(** C8. On a sequence whose adjacent roles already differ, as the
    output of the normaliser is, the normaliser returns the same sequence
    and leaves every message as it was. *)
Theorem C8_normalizer_idempotent (h : Heap) messages :
  alternating h messages →
  normalizeMessages messages h = (Ok messages, h).
Proof.
  intros Halt. unfold normalizeMessages, bind.
  rewrite (reduce_merge_alternating messages 0%nat [] h) by done.
  cbn [app]. by rewrite validateMessageSequence_alternating.
Qed.

(** Running the normaliser again on what it returned changes nothing. *)
Corollary normalizeMessages_twice (h : Heap) messages normalized h' :
  normalizeMessages messages h = (Ok normalized, h') →
  normalizeMessages normalized h' = (Ok normalized, h').
Proof.
  intros E. destruct (normalizeMessages_total h messages)
    as (out & h1 & _ & A & _ & N & _).
  rewrite N in E. injection E as -> ->.
  unfold normalizeMessages, bind.
  rewrite (reduce_merge_alternating normalized 0%nat [] h') by done.
  cbn [app]. by rewrite validateMessageSequence_alternating.
Qed.

Lemma C8_normalizer_idempotent_witness :
  let h : Heap :=
    <[2%nat := {| role := "assistant"; content := "hello"; reasoning_content := None |}]>
    (<[1%nat := {| role := "user"; content := "hi"; reasoning_content := None |}]>
    (<[0%nat := {| role := "system"; content := "be brief"; reasoning_content := None |}]>
     ∅)) in
  normalizeMessages [0; 1; 2]%nat h = (Ok [0; 1; 2]%nat, h).
Proof.
  intros h. apply C8_normalizer_idempotent.
  intros i Hi. cbn in Hi.
  destruct i as [|[|[|i]]]; [lia| | |lia]; vm_compute; discriminate.
Defined.

(** C9. The normaliser writes into the objects it is given.  A merge
    step replaces the content of the kept object by that content, a
    newline and the content of the merged message; every element of the
    returned array is a reference found in the caller's array or one of
    the two wrappers created by the call; hence when the first two
    messages of the caller share a role other than [system], the caller's
    first object is in the result and its content now starts with both
    contents joined by a newline. *)
Theorem C9_normalizer_mutates_and_aliases :
  (∀ (h : Heap) acc prevMsg curr index,
     index ≠ 0%nat → last acc = Some prevMsg →
     role (h !!! prevMsg) = role (h !!! curr) →
     merge acc curr index h
     = (Ok acc,
        <[prevMsg := {| role := role (h !!! prevMsg);
                        content := content (h !!! prevMsg) +:+ nl
                                   +:+ content (h !!! curr);
                        reasoning_content := reasoning_content (h !!! prevMsg) |}]> h)) ∧
  (∀ (h : Heap) prompt messages input normalized h',
     buildMessageHistory prompt messages input h = (Ok normalized, h') →
     ∀ l, l ∈ normalized → l ∈ messages ∨ l ∉ dom h) ∧
  (∀ (h : Heap) prompt input a b rest ma mb,
     h !! a = Some ma → h !! b = Some mb →
     role ma = role mb → role ma ≠ "system" →
     ∃ normalized h' suffix,
       buildMessageHistory prompt (a :: b :: rest) input h = (Ok normalized, h') ∧
       a ∈ normalized ∧
       content (h' !!! a) = content ma +:+ nl +:+ content mb +:+ suffix).
Proof.
  split; [|split].
  - intros h acc prevMsg curr index Hidx Hlast Hrole. unfold merge.
    destruct (Nat.eqb_spec index 0); [done|]. rewrite Hlast.
    unfold bind, deref, set_content, ret.
    by destruct (String.eqb_spec (role (h !!! prevMsg)) (role (h !!! curr))).
  - intros h prompt messages input normalized h' E l Hl.
    unfold buildMessageHistory, bind, alloc in E.
    set (sys := {| role := "system"; content := prompt; reasoning_content := None |}) in *.
    set (usr := {| role := "user"; content := input; reasoning_content := None |}) in *.
    destruct (wrappers_fresh h sys) as (F1 & F2 & F12).
    set (l1 := fresh (dom h)) in *.
    set (l2 := fresh (dom (<[l1 := sys]> h))) in *.
    destruct (normalizeMessages_total (<[l2 := usr]> (<[l1 := sys]> h))
                ([l1] ++ messages ++ [l2]))
      as (out & h1 & _ & _ & _ & N & _ & _ & Hin).
    rewrite N in E. injection E as <- <-.
    specialize (Hin l Hl). cbn in Hin.
    apply elem_of_cons in Hin as [->|Hin]; [by right|].
    apply elem_of_app in Hin as [Hin|Hin]; [by left|].
    apply list_elem_of_singleton in Hin as ->. by right.
  - intros h prompt input a b rest ma mb Ha Hb Hrole Hsys.
    unfold buildMessageHistory, bind, alloc.
    set (sys := {| role := "system"; content := prompt; reasoning_content := None |}).
    set (usr := {| role := "user"; content := input; reasoning_content := None |}).
    destruct (wrappers_fresh h sys) as (F1 & F2 & F12).
    set (l1 := fresh (dom h)) in *.
    set (l2 := fresh (dom (<[l1 := sys]> h))) in *.
    set (h2 := <[l2 := usr]> (<[l1 := sys]> h)).
    assert (Hold : ∀ l m, h !! l = Some m → h2 !!! l = m).
    { intros l m Hl. assert (l ∈ dom h) by (apply elem_of_dom; eauto).
      unfold h2. rewrite !lookup_total_insert_ne by set_solver.
      by apply lookup_total_correct. }
    assert (H1 : h2 !!! l1 = sys).
    { unfold h2. by rewrite lookup_total_insert_ne, lookup_total_insert_eq. }
    set (h3 := <[a := {| role := role ma;
                         content := content ma +:+ nl +:+ content mb;
                         reasoning_content := reasoning_content ma |}]> h2).
    assert (Hhead : ∀ items,
              reduce merge (l1 :: a :: b :: items) 0%nat [] h2
              = reduce merge items 3%nat [l1; a] h3).
    { intros items. cbn [reduce]. unfold bind at 1. cbn [merge Nat.eqb app].
      unfold ret at 1. unfold bind at 1. cbn [merge Nat.eqb last].
      unfold bind at 1 2, deref at 1 2. rewrite H1, (Hold a ma Ha). cbn [role sys].
      destruct (String.eqb_spec "system" (role ma)) as [E|_]; [by destruct Hsys|].
      unfold ret at 1. unfold bind at 1. cbn [merge Nat.eqb last app].
      unfold bind at 1 2, deref at 1 2. rewrite (Hold a ma Ha), (Hold b mb Hb).
      destruct (String.eqb_spec (role ma) (role mb)); [|done].
      unfold bind at 1, set_content, ret. rewrite (Hold a ma Ha). reflexivity. }
    assert (A3 : alternating h3 [l1; a]).
    { assert (Hal : a ≠ l1) by (apply elem_of_dom_2 in Ha; set_solver).
      intros i Hi. cbn in Hi. destruct i as [|[|i]]; [lia| |lia]. cbn.
      unfold h3. rewrite lookup_total_insert_eq.
      rewrite lookup_total_insert_ne, H1 by exact Hal.
      cbn. done. }
    destruct (reduce_merge (rest ++ [l2]) 3%nat [l1; a] h3 ltac:(done) ltac:(done) A3)
      as (out & h' & E & R & G & A & (more & Hout & _) & _).
    destruct (G a) as [suffix Hsuffix].
    exists out, h', suffix. unfold normalizeMessages, bind.
    cbn [app]. rewrite Hhead, E, (validateMessageSequence_alternating h' out A).
    pack.
    + rewrite Hout. set_solver.
    + rewrite Hsuffix. unfold h3. rewrite lookup_total_insert_eq. cbn.
      by rewrite !string_app_assoc.
Qed.

Lemma C9_normalizer_mutates_and_aliases_witness :
  let h : Heap :=
    <[1%nat := {| role := "user"; content := "world"; reasoning_content := None |}]>
    (<[0%nat := {| role := "user"; content := "hello"; reasoning_content := None |}]> ∅) in
  ∃ normalized h' suffix,
    buildMessageHistory "be brief" [0; 1]%nat "again" h = (Ok normalized, h') ∧
    0%nat ∈ normalized ∧
    content (h' !!! 0%nat) = "hello" +:+ nl +:+ "world" +:+ suffix.
Proof.
  intros h.
  apply (proj2 (proj2 C9_normalizer_mutates_and_aliases) h "be brief" "again"
           0%nat 1%nat []
           {| role := "user"; content := "hello"; reasoning_content := None |}
           {| role := "user"; content := "world"; reasoning_content := None |});
    (reflexivity || discriminate).
Defined.

(** * Properties of the validators and of the handler *)

Section HandlerFacts.
Context `{Runtime}.

Lemma get_is_get_opt v k :
  v ≠ JNull → get (Some v) k = Ok (get_opt (Some v) k).
Proof. by destruct v. Qed.

(** The first validator checks that the body is a non-null value whose
    [prompt] and [input] are truthy and whose [messages] is an array,
    and returns these three values as they are. *)
Lemma validateAndParseRequest_spec req prompt messages input :
  validateAndParseRequest req = Ok (prompt, messages, input) ↔
  ∃ data, req = Ok data ∧ data ≠ JNull ∧
          prompt = get_opt (Some data) "prompt" ∧ truthy prompt = true ∧
          get_opt (Some data) "messages" = Some (JArr messages) ∧
          input = get_opt (Some data) "input" ∧ truthy input = true.
Proof.
  unfold validateAndParseRequest, otry, obind. split.
  - destruct req as [data|e]; [|done].
    destruct data; cbn [get get_opt]; try done;
      cbn [truthy negb orb]; try done.
    destruct (truthy (assoc "prompt" fields)) eqn:Hp; [|done].
    destruct (assoc "messages" fields) as [[| | | |items|]|] eqn:Hm; try done.
    destruct (truthy (assoc "input" fields)) eqn:Hi; [|done].
    cbn. intros [= <- <- <-]. exists (JObj fields). cbn. rewrite Hm. pack.
  - intros (data & -> & Hnull & -> & Hp & Hm & -> & Hi).
    rewrite !get_is_get_opt by done. rewrite Hp, Hm, Hi. reflexivity.
Qed.

Lemma validateAndParseRequest_cases req :
  (∃ request, validateAndParseRequest req = Ok request) ∨
  validateAndParseRequest req = Throw (ApiError INVALID_REQUEST 400).
Proof.
  unfold validateAndParseRequest, otry, obind.
  destruct req as [data|e]; [|by right].
  destruct (get (Some data) "prompt"); [|by right].
  destruct (get (Some data) "messages"); [|by right].
  destruct (get (Some data) "input"); [|by right].
  destruct (_ || _); [by right|]. left. eauto.
Qed.

Lemma validateNoReasoningContent_rejects before message after :
  Forall (λ m, m ≠ JNull) before →
  truthy (get_opt (Some message) "reasoning_content") = true →
  validateNoReasoningContent (before ++ message :: after)
  = Throw (ApiError API_ERROR_MESSAGES.REASONING_CONTENT_NOT_ALLOWED 400).
Proof.
  intros Hall Hrc. induction Hall as [|m before Hm _ IH]; cbn [app].
  - cbn [validateNoReasoningContent].
    rewrite get_is_get_opt by (by destruct message). cbn [obind]. by rewrite Hrc.
  - cbn [validateNoReasoningContent]. rewrite get_is_get_opt by done.
    cbn [obind]. by destruct (truthy (get_opt (Some m) "reasoning_content")).
Qed.


Lemma log_messages_raises messages e :
  Untyped.log_messages messages = Throw e → ∃ m, e = TypeError m.
Proof.
  intros (m & _ & E)%ofor_each_Throw. unfold Untyped.log_entry in E.
  destruct (Untyped.read_role m) as [r|e1] eqn:Hr; cbn [obind] in E.
  2:{ injection E as <-. unfold Untyped.read_role in Hr.
      destruct (Untyped.js m); try done; injection Hr as <-; eauto. }
  destruct (Untyped.read_content m) as [c|e1] eqn:Hc; cbn [obind] in E.
  2:{ injection E as <-. unfold Untyped.read_content in Hc.
      destruct (Untyped.js m); try done; injection Hc as <-; eauto. }
  destruct c as [[]|]; try done; injection E as <-; eauto.
Qed.

(** When the logging before the call throws, nothing is sent and the
    error leaves the client as it is. *)
Lemma createDeepSeekStream_unlogged config messages net w e :
  Untyped.log_messages messages = Throw e →
  createDeepSeekStream config messages net w = (Throw e, w).
Proof.
  intros Hlog. destruct (log_messages_raises messages e Hlog) as [m ->].
  unfold createDeepSeekStream, makeApiRequest, try_catch, bind, lift.
  by rewrite Hlog.
Qed.

Lemma createDeepSeekStream_rejected config messages after response w message :
  Untyped.log_messages messages = Ok () →
  (after <=? TIMEOUT_MS)%N = true →
  validateApiResponse response = Throw (ApiError message (status response)) →
  createDeepSeekStream config messages (Responds after response) w
  = (Throw (ApiError (if (status response =? 401)%N
                      then API_ERROR_MESSAGES.INVALID_KEY else message)
              (status response)),
     {| sent := sent w ++ [request_of config messages]; aborted := aborted w |}).
Proof.
  intros Hlog Hafter Hval.
  unfold createDeepSeekStream, makeApiRequest, try_catch, bind, fetch, lift, throw.
  rewrite Hlog. cbn beta iota. rewrite Hafter, Hval.
  cbn [instanceof_ApiError exn_status andb].
  destruct (N.eqb_spec (status response) 401) as [->|Hne]; [done|].
  reflexivity.
Qed.

Lemma createDeepSeekStream_times_out config messages net w :
  Untyped.log_messages messages = Ok () →
  times_out net →
  createDeepSeekStream config messages net w
  = (Throw (ApiError API_ERROR_MESSAGES.TIMEOUT 408),
     {| sent := sent w ++ [request_of config messages]; aborted := true |}).
Proof.
  intros Hlog Hout.
  unfold createDeepSeekStream, makeApiRequest, try_catch, bind, fetch, lift, throw.
  rewrite Hlog. cbn beta iota.
  destruct net as [after response|after e|]; cbn [times_out] in Hout;
    try (apply N.leb_gt in Hout; rewrite Hout); reflexivity.
Qed.

(** The client hands one request to [fetch] when the logging before the
    call succeeds, and none otherwise. *)
Lemma createDeepSeekStream_sent config messages net w :
  sent (snd (createDeepSeekStream config messages net w))
  = sent w ++ match Untyped.log_messages messages with
              | Ok _ => [request_of config messages]
              | Throw _ => []
              end.
Proof.
  destruct (Untyped.log_messages messages) as [[]|e] eqn:Hlog.
  2:{ rewrite (createDeepSeekStream_unlogged _ _ _ _ _ Hlog). cbn. by rewrite app_nil_r. }
  unfold createDeepSeekStream, makeApiRequest, try_catch, bind, fetch, lift,
    throw, ret. rewrite Hlog. cbn beta iota.
  destruct net as [after response|after e|]; [| |done];
    repeat (case_match; simplify_eq; cbn [snd sent]); done.
Qed.

Lemma new_Response_Ok body st :
  (200 ≤ st ≤ 599)%N → null_body_status st = false →
  new_Response body st
  = Ok {| resp_status := st; content_type := "text/event-stream";
          resp_body := body |}.
Proof.
  intros [Hlo Hhi] Hnull. unfold new_Response. rewrite Hnull.
  destruct (N.ltb_spec st 200); [lia|]. destruct (N.ltb_spec 599 st); [lia|]. done.
Qed.

Lemma new_Response_inv body st response :
  new_Response body st = Ok response →
  response = {| resp_status := st; content_type := "text/event-stream";
                resp_body := body |} ∧
  (200 ≤ st ≤ 599)%N.
Proof.
  unfold new_Response.
  destruct (N.ltb_spec st 200); [done|]. destruct (N.ltb_spec 599 st); [done|].
  cbn [orb]. destruct (null_body_status st); [done|]. intros [= <-]. split; [done|lia].
Qed.

Lemma getApiConfig_configured env key :
  DEEPSEEK_API_KEY env = Some key → key ≠ "" →
  getApiConfig env
  = Ok {| apiUrl := or_else (DEEPSEEKAPI_BASE_URL env) "https://api.deepseek.com"
                    +:+ "/v1/chat/completions";
          apiKey := key;
          model := or_else (DEEPSEEK_MODEL env) "deepseek-chat";
          maxTokens := MAX_TOKENS |}.
Proof.
  intros Hkey Hne. unfold getApiConfig. rewrite Hkey.
  by destruct (String.eqb_spec key "").
Qed.

(** The handler, step by step. *)
Lemma POST_unfold req env net :
  POST req env net quiet =
  match validateAndParseRequest req with
  | Throw e => (error_response e, quiet)
  | Ok (prompt, messages, input) =>
      match validateNoReasoningContent messages with
      | Throw e => (error_response e, quiet)
      | Ok _ =>
          match Untyped.buildMessageHistory prompt messages input with
          | Throw e => (error_response e, quiet)
          | Ok history =>
              match getApiConfig env with
              | Throw e => (error_response e, quiet)
              | Ok config =>
                  match createDeepSeekStream config history net quiet with
                  | (Ok stream, w) =>
                      (Ok {| resp_status := 200;
                             content_type := "text/event-stream";
                             resp_body := stream |}, w)
                  | (Throw e, w) => (error_response e, w)
                  end
              end
          end
      end
  end.
Proof.
  unfold POST, try_catch, bind at 1, lift at 1.
  destruct (validateAndParseRequest req) as [[[p ms] i]|e]; [|done].
  unfold bind at 1, lift at 1.
  destruct (validateNoReasoningContent ms); [|done].
  unfold bind at 1, lift at 1.
  destruct (Untyped.buildMessageHistory p ms i) as [history|e]; [|done].
  unfold bind at 1, lift at 1. destruct (getApiConfig env) as [config|e]; [|done].
  unfold bind at 1.
  by destruct (createDeepSeekStream config history net quiet) as [[stream|e] w].
Qed.

(** A handler that gets as far as [fetch] answers as the client
    decides. *)
Lemma POST_reaches req env net history config :
  reaches_fetch req env history config →
  POST req env net quiet =
  match createDeepSeekStream config history net quiet with
  | (Ok stream, w) =>
      (Ok {| resp_status := 200; content_type := "text/event-stream";
             resp_body := stream |}, w)
  | (Throw e, w) => (error_response e, w)
  end.
Proof.
  intros (prompt & messages & input & Hreq & Hrc & Hhist & Hcfg & _).
  by rewrite POST_unfold, Hreq, Hrc, Hhist, Hcfg.
Qed.

(** A request of the declared types gets as far as [fetch] once a key
    is configured, with the merged history as messages. *)
Lemma declared_reaches req env prompt messages input key :
  declared req prompt messages input →
  DEEPSEEK_API_KEY env = Some key → key ≠ "" →
  ∃ history,
    reaches_fetch req env history
      {| apiUrl := or_else (DEEPSEEKAPI_BASE_URL env) "https://api.deepseek.com"
                   +:+ "/v1/chat/completions";
         apiKey := key;
         model := or_else (DEEPSEEK_MODEL env) "deepseek-chat";
         maxTokens := MAX_TOKENS |} ∧
    as_Messages (Untyped.js <$> history)
    = Some (coalesce ({| role := "system"; content := prompt;
                         reasoning_content := None |}
                      :: messages
                      ++ [{| role := "user"; content := input;
                             reasoning_content := None |}])).
Proof.
  intros (p & ms & i & Hreq & Hrc & Hp & Hms & Hi) Hkey Hne.
  destruct (declared_history p ms i prompt messages input Hp Hms Hi)
    as (history & Hhist & Hview & Hlog).
  exists history. split; [|done]. exists p, ms, i. pack.
  by apply getApiConfig_configured.
Qed.

(** On a sequence whose adjacent roles can be read and differ the
    normaliser keeps every element and writes nothing. *)
Lemma untyped_reduce_alternating items : ∀ index acc,
  (index = 0%nat → acc = []) → (index ≠ 0%nat → acc ≠ []) →
  untyped_alternating (acc ++ items) →
  Untyped.oreduce Untyped.merge items index acc = Ok (acc ++ items).
Proof.
  induction items as [|curr items IH]; intros index acc H0 Hn Halt.
  - by rewrite app_nil_r.
  - cbn [Untyped.oreduce].
    assert (Hstep : Untyped.merge acc curr index = Ok (acc ++ [curr])).
    { unfold Untyped.merge. destruct (Nat.eqb_spec index 0) as [->|Hidx]; [done|].
      specialize (Hn Hidx).
      destruct (last acc) as [p|] eqn:Hp; [|by apply last_None in Hp].
      replace (acc ++ curr :: items) with ((acc ++ [curr]) ++ items) in Halt
        by (by rewrite <- app_assoc).
      apply untyped_alternating_prefix, untyped_alternating_snoc in Halt as [_ Hlast].
      destruct (Hlast p Hp) as (a & b & -> & -> & Hne). cbn [obind].
      by rewrite strict_eq_sym, Hne. }
    rewrite Hstep. cbn [obind]. rewrite IH.
    + by rewrite <- app_assoc.
    + lia.
    + intros _. by destruct acc.
    + by rewrite <- app_assoc.
Qed.

Lemma POST_sent req env net history config :
  reaches_fetch req env history config →
  sent (snd (POST req env net quiet)) = [request_of config history].
Proof.
  intros Hreach. rewrite (POST_reaches req env net history config Hreach).
  destruct Hreach as (? & ? & ? & _ & _ & _ & _ & Hlog).
  pose proof (createDeepSeekStream_sent config history net quiet) as Hsent.
  rewrite Hlog in Hsent.
  by destruct (createDeepSeekStream config history net quiet) as [[stream|e] w].
Qed.

(** When the logging before the call throws, the handler answers 500
    with the message of the error and sends nothing. *)
Lemma POST_unlogged req env net prompt messages input history config e :
  validateAndParseRequest req = Ok (prompt, messages, input) →
  validateNoReasoningContent messages = Ok () →
  Untyped.buildMessageHistory prompt messages input = Ok history →
  getApiConfig env = Ok config →
  Untyped.log_messages history = Throw e →
  POST req env net quiet
  = (Ok {| resp_status := 500; content_type := "text/event-stream";
           resp_body := JsonBody (JObj [("success", JBool false);
                                        ("error", JStr (exn_message e))]) |},
     quiet).
Proof.
  intros Hreq Hrc Hhist Hcfg Hlog.
  rewrite POST_unfold, Hreq, Hrc, Hhist, Hcfg.
  rewrite (createDeepSeekStream_unlogged _ _ _ _ _ Hlog).
  by destruct (log_messages_raises history e Hlog) as [m ->].
Qed.

Lemma untyped_normalize_alternating messages :
  untyped_alternating messages → Untyped.normalizeMessages messages = Ok messages.
Proof.
  intros Halt. unfold Untyped.normalizeMessages.
  rewrite (untyped_reduce_alternating messages 0%nat []) by done.
  cbn [app obind]. by rewrite (proj2 (untyped_validateMessageSequence_spec messages) Halt).
Qed.
End HandlerFacts.

(** C5, as the code has it.  When some element of [messages] has a
    truthy [reasoning_content] (a non-empty string, for one) and no
    element before it is [null], the handler answers with status 400 and
    the JSON error body, and the wire is untouched: no request is sent
    upstream and nothing is aborted. *)
Theorem C5_reasoning_content_rejected `{Runtime}
    data before message after env net :
  get_opt (Some data) "messages" = Some (JArr (before ++ message :: after)) →
  Forall (λ m, m ≠ JNull) before →
  truthy (get_opt (Some message) "reasoning_content") = true →
  ∃ text,
    POST (Ok data) env net quiet
    = (Ok {| resp_status := 400; content_type := "text/event-stream";
             resp_body := JsonBody (JObj [("success", JBool false);
                                          ("error", JStr text)]) |},
       quiet).
Proof.
  intros Hmsgs Hall Hrc. rewrite POST_unfold.
  destruct (validateAndParseRequest_cases (Ok data)) as [[[[p ms] i] E]| E];
    rewrite E; [|by eexists].
  apply validateAndParseRequest_spec in E
      as (data' & [= <-] & _ & _ & _ & Hms & _ & _).
  rewrite Hmsgs in Hms. injection Hms as <-.
  rewrite (validateNoReasoningContent_rejects before message after Hall Hrc).
  by eexists.
Qed.

Lemma C5_reasoning_content_rejected_witness :
  ∃ text,
    @POST Reference.runtime
      (Ok (example_request
             [JObj [("role", JStr "user"); ("content", JStr "why?")];
              JObj [("role", JStr "assistant"); ("content", JStr "hi");
                    ("reasoning_content", JStr "because")]]))
      example_env Silent quiet
    = (Ok {| resp_status := 400; content_type := "text/event-stream";
             resp_body := JsonBody (JObj [("success", JBool false);
                                          ("error", JStr text)]) |},
       quiet).
Proof.
  apply (@C5_reasoning_content_rejected Reference.runtime _
           [JObj [("role", JStr "user"); ("content", JStr "why?")]]
           (JObj [("role", JStr "assistant"); ("content", JStr "hi");
                  ("reasoning_content", JStr "because")]) []).
  - reflexivity.
  - apply Forall_cons. split; [discriminate|apply Forall_nil_2].
  - reflexivity.
Defined.

(** C5, as the specification states it, fails: a [null] element placed
    before the message that carries reasoning content makes the handler
    answer 500 instead of 400. *)
Lemma C5_null_element_counterexample :
  let offending := JObj [("role", JStr "assistant"); ("content", JStr "hi");
                         ("reasoning_content", JStr "because")] in
  let request := example_request [JNull; offending] in
  (offending ∈ [JNull; offending] ∧
   get_opt (Some offending) "reasoning_content" = Some (JStr "because")) ∧
  ∃ response,
    @POST Reference.runtime (Ok request) example_env Silent quiet
    = (Ok response, quiet) ∧
    resp_status response = 500%N ∧ resp_status response ≠ 400%N.
Proof.
  cbn zeta. split.
  - split; [|reflexivity]. apply elem_of_cons. right. apply elem_of_cons. by left.
  - eexists. split; [reflexivity|]. split; [reflexivity|discriminate].
Qed.




(** C7.  When the upstream has not settled once 30000 ms have passed,
    the abort controller is triggered and the client raises the timeout
    error with status 408; a handler that has got as far as [fetch]
    answers with status 408 and the JSON error body, one request having
    been sent and aborted; a request of the declared types that passes
    both validators gets that far whenever a key is configured. *)
Theorem C7_timeout_gives_408 `{Runtime} net :
  times_out net →
  let answer :=
    {| resp_status := 408; content_type := "text/event-stream";
       resp_body := JsonBody (JObj [("success", JBool false);
                                    ("error", JStr "请求超时")]) |} in
  (∀ config messages w,
     Untyped.log_messages messages = Ok () →
     createDeepSeekStream config messages net w
     = (Throw (ApiError API_ERROR_MESSAGES.TIMEOUT 408),
        {| sent := sent w ++ [request_of config messages]; aborted := true |})) ∧
  (∀ req env history config,
     reaches_fetch req env history config →
     POST req env net quiet
     = (Ok answer, {| sent := [request_of config history]; aborted := true |})) ∧
  (∀ req env prompt messages input key,
     declared req prompt messages input →
     DEEPSEEK_API_KEY env = Some key → key ≠ "" →
     ∃ request,
       POST req env net quiet
       = (Ok answer, {| sent := [request]; aborted := true |})).
Proof.
  intros Hout answer.
  assert (Hreach : ∀ req env history config,
     reaches_fetch req env history config →
     POST req env net quiet
     = (Ok answer, {| sent := [request_of config history]; aborted := true |})).
  { intros req env history config Hreach.
    rewrite (POST_reaches req env net history config Hreach).
    destruct Hreach as (? & ? & ? & _ & _ & _ & _ & Hlog).
    by rewrite createDeepSeekStream_times_out. }
  split; [|split; [done|]].
  - intros. by apply createDeepSeekStream_times_out.
  - intros req env prompt messages input key Hdecl Hkey Hne.
    destruct (declared_reaches req env prompt messages input key Hdecl Hkey Hne)
      as (history & Hreaches & _).
    eexists. by apply Hreach.
Qed.

Lemma C7_timeout_gives_408_witness :
  ∃ request,
    @POST Reference.runtime (Ok (example_request [])) example_env Silent quiet
    = (Ok {| resp_status := 408; content_type := "text/event-stream";
             resp_body := JsonBody (JObj [("success", JBool false);
                                          ("error", JStr "请求超时")]) |},
       {| sent := [request]; aborted := true |}).
Proof.
  apply (proj2 (proj2 (@C7_timeout_gives_408 Reference.runtime Silent I))
           (Ok (example_request [])) example_env "be brief" [] "hello" "secret").
  - do 3 eexists. repeat split; reflexivity.
  - reflexivity.
  - discriminate.
Defined.

(** C10.  The first validator asks only that [prompt] and [input] be
    truthy and that [messages] be an array, and hands the three values on
    as they are.  A number as prompt and as input, a message whose role is
    any string other than [system], and a message without role all go
    through both validators and the normaliser into the request sent
    upstream, as they are.  A message without content goes through the
    validators and the normaliser too, and then makes the logging before
    the upstream call throw: the handler answers 500 and sends nothing.
    The alternation check compares the roles of adjacent elements and
    nothing else. *)
Theorem C10_validation_is_shallow `{Runtime} :
  (∀ req prompt messages input,
     validateAndParseRequest req = Ok (prompt, messages, input) ↔
     ∃ data, req = Ok data ∧ data ≠ JNull ∧
             prompt = get_opt (Some data) "prompt" ∧ truthy prompt = true ∧
             get_opt (Some data) "messages" = Some (JArr messages) ∧
             input = get_opt (Some data) "input" ∧ truthy input = true) ∧
  (∀ p i env key net,
     number_truthy p = true → number_truthy i = true →
     DEEPSEEK_API_KEY env = Some key → key ≠ "" →
     sent (snd (POST (Ok (JObj [("prompt", JNum p); ("messages", JArr []);
                                ("input", JNum i)]))
                  env net quiet))
     = [{| url := or_else (DEEPSEEKAPI_BASE_URL env) "https://api.deepseek.com"
                   +:+ "/v1/chat/completions";
           authorization := "Bearer " +:+ key;
           api_key := key;
           body_model := or_else (DEEPSEEK_MODEL env) "deepseek-chat";
           body_messages :=
             [JObj [("content", JNum p); ("role", JStr "system")];
              JObj [("content", JNum i); ("role", JStr "user")]];
           body_max_tokens := 4000;
           body_stream := true |}]) ∧
  (∀ r c c' env key net,
     r ≠ "system" → DEEPSEEK_API_KEY env = Some key → key ≠ "" →
     sent (snd (POST (Ok (example_request
                            [JObj [("role", JStr r); ("content", JStr c)];
                             JObj [("content", JStr c')]]))
                  env net quiet))
     = [{| url := or_else (DEEPSEEKAPI_BASE_URL env) "https://api.deepseek.com"
                   +:+ "/v1/chat/completions";
           authorization := "Bearer " +:+ key;
           api_key := key;
           body_model := or_else (DEEPSEEK_MODEL env) "deepseek-chat";
           body_messages :=
             [JObj [("content", JStr "be brief"); ("role", JStr "system")];
              JObj [("role", JStr r); ("content", JStr c)];
              JObj [("content", JStr c')];
              JObj [("content", JStr "hello"); ("role", JStr "user")]];
           body_max_tokens := 4000;
           body_stream := true |}]) ∧
  (∀ r env key net,
     r ≠ "system" → r ≠ "user" → DEEPSEEK_API_KEY env = Some key → key ≠ "" →
     let earlier := [JObj [("role", JStr r)]] in
     validateAndParseRequest (Ok (example_request earlier))
     = Ok (Some (JStr "be brief"), earlier, Some (JStr "hello")) ∧
     validateNoReasoningContent earlier = Ok () ∧
     Untyped.buildMessageHistory (Some (JStr "be brief")) earlier (Some (JStr "hello"))
     = Ok [Untyped.wrapper (Some (JStr "be brief")) "system";
           Untyped.plain (JObj [("role", JStr r)]);
           Untyped.wrapper (Some (JStr "hello")) "user"] ∧
     ∃ text,
       POST (Ok (example_request earlier)) env net quiet
       = (Ok {| resp_status := 500; content_type := "text/event-stream";
                resp_body := JsonBody (JObj [("success", JBool false);
                                             ("error", JStr text)]) |},
          quiet)) ∧
  (∀ (h : Heap) messages,
     validateMessageSequence messages h = (Ok (), h) ↔ alternating h messages) ∧
  (∀ messages,
     Untyped.validateMessageSequence messages = Ok () ↔
     untyped_alternating messages).
Proof.
  split; [apply validateAndParseRequest_spec|].
  split; [|split; [|split; [|split]]].
  - intros p i env key net Hp Hi Hkey Hne.
    assert (Hreach : reaches_fetch
              (Ok (JObj [("prompt", JNum p); ("messages", JArr []);
                         ("input", JNum i)])) env
              [Untyped.wrapper (Some (JNum p)) "system";
               Untyped.wrapper (Some (JNum i)) "user"]
              {| apiUrl := or_else (DEEPSEEKAPI_BASE_URL env) "https://api.deepseek.com"
                           +:+ "/v1/chat/completions";
                 apiKey := key;
                 model := or_else (DEEPSEEK_MODEL env) "deepseek-chat";
                 maxTokens := MAX_TOKENS |}).
    { exists (Some (JNum p)), [], (Some (JNum i)).
      split; [|split; [|split; [|split]]].
      - unfold validateAndParseRequest, otry, obind. cbn. by rewrite Hp, Hi.
      - reflexivity.
      - apply untyped_normalize_alternating.
        intros k Hk. cbn [length app fmap list_fmap] in Hk.
        destruct k as [|[|k]]; try lia. do 2 eexists. pack; reflexivity.
      - by apply getApiConfig_configured.
      - reflexivity. }
    rewrite (POST_sent _ _ net _ _ Hreach). reflexivity.
  - intros r c c' env key net Hr Hkey Hne.
    assert (Hrs : String.eqb r "system" = false) by by apply String.eqb_neq.
    assert (Hreach : reaches_fetch
              (Ok (example_request
                     [JObj [("role", JStr r); ("content", JStr c)];
                      JObj [("content", JStr c')]])) env
              [Untyped.wrapper (Some (JStr "be brief")) "system";
               Untyped.plain (JObj [("role", JStr r); ("content", JStr c)]);
               Untyped.plain (JObj [("content", JStr c')]);
               Untyped.wrapper (Some (JStr "hello")) "user"]
              {| apiUrl := or_else (DEEPSEEKAPI_BASE_URL env) "https://api.deepseek.com"
                           +:+ "/v1/chat/completions";
                 apiKey := key;
                 model := or_else (DEEPSEEK_MODEL env) "deepseek-chat";
                 maxTokens := MAX_TOKENS |}).
    { exists (Some (JStr "be brief")),
        [JObj [("role", JStr r); ("content", JStr c)]; JObj [("content", JStr c')]],
        (Some (JStr "hello")).
      split; [|split; [|split; [|split]]].
      - reflexivity.
      - reflexivity.
      - apply untyped_normalize_alternating.
        intros k Hk. cbn [length app fmap list_fmap] in Hk.
        destruct k as [|[|[|[|k]]]]; try lia; do 2 eexists;
          (split; [reflexivity|split; [reflexivity|]]); first [exact Hrs|reflexivity].
      - by apply getApiConfig_configured.
      - reflexivity. }
    rewrite (POST_sent _ _ net _ _ Hreach). reflexivity.
  - intros r env key net Hr Hru Hkey Hne earlier.
    assert (Hrs : String.eqb r "system" = false) by by apply String.eqb_neq.
    assert (Hur : String.eqb "user" r = false).
    { apply String.eqb_neq. intros E. by apply Hru. }
    assert (Hhist : Untyped.buildMessageHistory (Some (JStr "be brief")) earlier
                      (Some (JStr "hello"))
                    = Ok [Untyped.wrapper (Some (JStr "be brief")) "system";
                          Untyped.plain (JObj [("role", JStr r)]);
                          Untyped.wrapper (Some (JStr "hello")) "user"]).
    { apply untyped_normalize_alternating.
      intros k Hk; cbn [length app fmap list_fmap] in Hk.
      destruct k as [|[|[|k]]]; try lia; do 2 eexists;
        (split; [reflexivity|split; [reflexivity|]]); first [exact Hrs|exact Hur]. }
    split; [reflexivity|]. split; [reflexivity|]. split; [exact Hhist|]. eexists.
    eapply (POST_unlogged _ env net); [reflexivity|reflexivity|exact Hhist
                                       |by apply getApiConfig_configured|].
    reflexivity.
  - intros h messages.
    destruct (validateMessageSequence_spec h messages) as [[E A]|[E N]].
    + by rewrite E.
    + rewrite E. split; [discriminate|done].
  - apply untyped_validateMessageSequence_spec.
Qed.

Lemma C10_validation_is_shallow_witness :
  sent (snd (@POST Reference.runtime
               (Ok (JObj [("prompt", JNum "5"); ("messages", JArr []);
                          ("input", JNum "7")]))
               example_env Silent quiet))
  = [{| url := or_else (DEEPSEEKAPI_BASE_URL example_env) "https://api.deepseek.com"
                +:+ "/v1/chat/completions";
        authorization := "Bearer " +:+ "secret";
        api_key := "secret";
        body_model := or_else (DEEPSEEK_MODEL example_env) "deepseek-chat";
        body_messages :=
          [JObj [("content", JNum "5"); ("role", JStr "system")];
           JObj [("content", JNum "7"); ("role", JStr "user")]];
        body_max_tokens := 4000;
        body_stream := true |}].
Proof.
  apply (proj1 (proj2 (@C10_validation_is_shallow Reference.runtime))
           "5" "7" example_env "secret" Silent);
    (reflexivity || discriminate).
Defined.

(** * Further properties of the reframer *)

Section ReframerEdges.
Context `{Runtime}.

Lemma emit_fragment_falsy tag fragment c :
  truthy fragment = false → emit_fragment tag fragment c = (Ok (), c).
Proof.
  intros Hf. unfold emit_fragment. destruct fragment; [|done]. by rewrite Hf.
Qed.

Lemma emit_fragment_refused tag fragment c :
  truthy fragment = true → canCloseOrEnqueue c = false →
  ∃ e, emit_fragment tag fragment c = (Throw e, c).
Proof.
  intros Hf Hno. unfold emit_fragment. destruct fragment as [v|]; [|done].
  rewrite Hf. unfold bind, lift. destruct (ToString v) as [s|e]; [|eauto].
  apply enqueue_refused, Hno.
Qed.

Lemma onParse_inert event c :
  inert event = true → onParse event c = (Ok (), c).
Proof.
  destruct event as [data|v]; [|done]. cbn [inert onParse].
  destruct (String.eqb data "[DONE]"); [done|]. cbn [orb].
  destruct (String.eqb data "keep-alive"); [done|].
  unfold try_catch, bind, lift.
  destruct (JSON_parse data) as [j|]; [|done].
  destruct (delta_of j) as [delta|e]; [|done].
  destruct (truthy delta); cbn [negb orb]; [|done].
  intros [Hr Hc]%andb_true_iff.
  apply negb_true_iff in Hr, Hc.
  by rewrite (emit_fragment_falsy _ _ _ Hr), (emit_fragment_falsy _ _ _ Hc).
Qed.

Lemma feed_inert events c :
  Forall (λ event, inert event = true) events → feed events c = (Ok (), c).
Proof.
  induction 1 as [|event events Hev _ IH]; [done|].
  cbn [feed]. unfold bind. by rewrite (onParse_inert event c Hev).
Qed.

Lemma onParse_refused_throws event c :
  canCloseOrEnqueue c = false → inert event = false →
  ∃ e, onParse event c = (Throw e, c).
Proof.
  intros Hno.
  destruct (enqueue_refused (API_ERROR_MESSAGES.PARSE_ERROR +:+ nl) c Hno) as [e0 E0].
  destruct event as [data|v]; [|done]. cbn [inert onParse].
  destruct (String.eqb data "[DONE]"); cbn [orb].
  { intros _. by apply close_refused. }
  destruct (String.eqb data "keep-alive"); [done|].
  unfold try_catch, bind at 1 2, lift.
  destruct (JSON_parse data) as [j|]; [|intros _; unfold bind; rewrite E0; eauto].
  destruct (delta_of j) as [delta|e]; [|intros _; unfold bind; rewrite E0; eauto].
  destruct (truthy delta); cbn [negb orb]; [|done].
  intros Hfr. unfold bind at 1.
  destruct (truthy (get_opt delta "reasoning_content")) eqn:Hr.
  - destruct (emit_fragment_refused "Reasoning" _ c Hr Hno) as [e E]. rewrite E.
    unfold bind. rewrite E0. eauto.
  - rewrite (emit_fragment_falsy _ _ _ Hr).
    destruct (truthy (get_opt delta "content")) eqn:Hc; [|done].
    destruct (emit_fragment_refused "Content" _ c Hc Hno) as [e E]. rewrite E.
    unfold bind. rewrite E0. eauto.
Qed.

(** Once the loop has stopped and the stream is closed or errored,
    nothing changes any more. *)
Lemma settled_final ticks : ∀ p,
  reading p = false → is_readable (state (controller p)) = false →
  fold_left tick ticks p = p.
Proof.
  induction ticks as [|t ticks IH]; intros p Hr Hs; [done|].
  cbn [fold_left].
  assert (tick p t = p) as ->; [|by apply IH].
  destruct p as [c r]. cbn [reading controller] in *. subst r.
  destruct t; cbn [tick reading controller]; try done.
  f_equal. unfold consumer_read. by destruct (state c).
Qed.

Lemma error_not_readable reason c : is_readable (state (error reason c)) = false.
Proof. unfold error. by destruct (state c) eqn:E; cbn; rewrite ?E. Qed.

Lemma keeps_bind {A B} (m : M Controller A) (k : A → M Controller B) :
  keeps_consumed m → (∀ a, keeps_consumed (k a)) → keeps_consumed (bind m k).
Proof.
  intros Hm Hk c r c'. unfold bind.
  destruct (m c) as [[a|e] c1] eqn:E.
  - intros E2. etrans; [eapply Hm, E|eapply Hk, E2].
  - intros [= <- <-]. eapply Hm, E.
Qed.

Lemma keeps_try_catch {A} (m : M Controller A) (k : exn → M Controller A) :
  keeps_consumed m → (∀ e, keeps_consumed (k e)) → keeps_consumed (try_catch m k).
Proof.
  intros Hm Hk c r c'. unfold try_catch.
  destruct (m c) as [[a|e] c1] eqn:E.
  - intros [= <- <-]. eapply Hm, E.
  - intros E2. etrans; [eapply Hm, E|eapply Hk, E2].
Qed.

Lemma keeps_pure {A} (o : outcome A) : keeps_consumed (lift o).
Proof. by intros c r c' [= <- <-]. Qed.

Lemma keeps_enqueue chunk : keeps_consumed (enqueue chunk).
Proof.
  intros c r c'. unfold enqueue. destruct (canCloseOrEnqueue c).
  - destruct (readRequests c); intros [= <- <-]; cbn; [done|].
    by apply prefix_app_r.
  - by intros [= <- <-].
Qed.

Lemma keeps_close : keeps_consumed close.
Proof.
  intros c r c'. unfold close. destruct (canCloseOrEnqueue c).
  - destruct (queue c); by intros [= <- <-].
  - by intros [= <- <-].
Qed.

Lemma keeps_emit_fragment tag fragment : keeps_consumed (emit_fragment tag fragment).
Proof.
  unfold emit_fragment. destruct fragment as [v|]; [|apply (keeps_pure (Ok ()))].
  destruct (truthy (Some v)); [|apply (keeps_pure (Ok ()))].
  apply keeps_bind; [apply keeps_pure|]. intros s. apply keeps_enqueue.
Qed.

Lemma keeps_onParse event : keeps_consumed (onParse event).
Proof.
  destruct event as [data|v]; cbn [onParse]; [|apply (keeps_pure (Ok ()))].
  destruct (_ || _).
  - destruct (String.eqb data "[DONE]"); [apply keeps_close|apply (keeps_pure (Ok ()))].
  - apply keeps_try_catch.
    + apply keeps_bind; [apply keeps_pure|]. intros j.
      apply keeps_bind; [apply keeps_pure|]. intros delta.
      destruct (negb (truthy delta)); [apply (keeps_pure (Ok ()))|].
      apply keeps_bind; intros; apply keeps_emit_fragment.
    + intros e. apply keeps_bind; [apply keeps_enqueue|]. intros _. apply keeps_close.
Qed.

Lemma keeps_feed events : keeps_consumed (feed events).
Proof.
  induction events as [|event events IH]; cbn [feed]; [apply (keeps_pure (Ok ()))|].
  apply keeps_bind; [apply keeps_onParse|]. by intros _.
Qed.

Lemma tick_keeps_consumed p t :
  consumed (controller p) `prefix_of` consumed (controller (tick p t)).
Proof.
  assert (Herr : ∀ reason c, consumed (error reason c) = consumed c).
  { intros reason c. unfold error. by destruct (is_readable (state c)). }
  destruct p as [c r]. destruct t as [|events| |]; cbn [tick controller reading].
  - unfold consumer_read. destruct (state c); [|done..].
    destruct (queue c); cbn; [done|]. by apply prefix_app_r.
  - destruct r; [|done]. destruct (feed events c) as [[[]|e] c'] eqn:E; cbn.
    + eapply keeps_feed, E.
    + rewrite Herr. eapply keeps_feed, E.
  - destruct r; cbn; by rewrite ?Herr.
  - by destruct r.
Qed.
End ReframerEdges.

(** X1. Events that carry nothing for the client (reconnect intervals,
    keep-alives, payloads without delta, deltas whose fragments are absent
    or empty) leave the stream exactly as it is, in whatever state it is:
    a chunk made of such events changes nothing and never throws. *)
Theorem inert_events_change_nothing `{Runtime} events :
  Forall (λ event, inert event = true) events →
  (∀ c, feed events c = (Ok (), c)) ∧
  (∀ p, tick p (UpstreamChunk events) = p).
Proof.
  intros Hall. split.
  - intros c. by apply feed_inert.
  - intros [c r]. cbn [tick reading controller]. destruct r; [|done].
    by rewrite (feed_inert events c Hall).
Qed.

Lemma inert_events_change_nothing_witness :
  let events := [ParsedEvent "keep-alive"; ReconnectInterval 3000;
                 ParsedEvent "{}"; ParsedEvent (delta_payload "content" "")] in
  (∀ c, @feed Reference.runtime events c = (Ok (), c)) ∧
  (∀ p, @tick Reference.runtime p (UpstreamChunk events) = p).
Proof.
  intros events. apply (@inert_events_change_nothing Reference.runtime).
  repeat (apply Forall_cons; split; [reflexivity|]). apply Forall_nil_2.
Defined.

(** X2. Once the stream has been asked to close, or has closed or
    errored, the first event of a chunk that is not inert throws out of
    the callback: the read loop stops there, the later events of the chunk
    are not looked at, and [controller.error] is called with the
    stream-failed error. *)
Theorem event_on_finished_stream_stops_loop `{Runtime} c before event after :
  canCloseOrEnqueue c = false →
  Forall (λ ev, inert ev = true) before → inert event = false →
  tick {| controller := c; reading := true |}
       (UpstreamChunk (before ++ event :: after))
  = {| controller := error API_ERROR_MESSAGES.STREAM_FAILED c; reading := false |}.
Proof.
  intros Hno Hbefore Hev. cbn [tick reading controller].
  assert (E : ∃ e, feed (before ++ event :: after) c = (Throw e, c)).
  { induction Hbefore as [|ev before Hi _ IH]; cbn [app feed]; unfold bind.
    - destruct (onParse_refused_throws event c Hno Hev) as [e ->]. eauto.
    - rewrite (onParse_inert ev c Hi). exact IH. }
  destruct E as [e ->]. reflexivity.
Qed.

Lemma event_on_finished_stream_stops_loop_witness :
  let c := {| state := readable; closeRequested := true;
              queue := ["[Content]c1[/Content]"]; readRequests := 0;
              consumed := [] |} in
  @tick Reference.runtime {| controller := c; reading := true |}
     (UpstreamChunk ([ParsedEvent "keep-alive"] ++ ParsedEvent "[DONE]" :: []))
  = {| controller := error API_ERROR_MESSAGES.STREAM_FAILED c; reading := false |}.
Proof.
  intros c.
  apply (@event_on_finished_stream_stops_loop Reference.runtime c
           [ParsedEvent "keep-alive"] (ParsedEvent "[DONE]") []).
  - reflexivity.
  - apply Forall_cons. split; [reflexivity|apply Forall_nil_2].
  - reflexivity.
Defined.

(** X3. A failure of the transport while the loop reads is final and
    loses what was queued: the stream takes the stream-failed error, the
    consumer keeps what it had read, the chunks still queued are dropped,
    and nothing that happens afterwards changes the stream. *)
Theorem transport_failure_is_final `{Runtime} before after :
  let p := createResponseStream true before in
  let c' := controller (createResponseStream true (before ++ UpstreamFailure :: after)) in
  reading p = true → state (controller p) = readable →
  state c' = errored API_ERROR_MESSAGES.STREAM_FAILED ∧
  consumed c' = consumed (controller p) ∧ queue c' = [].
Proof.
  intros p c' Hr Hs. subst c'. unfold createResponseStream in *.
  rewrite fold_left_app. fold p. cbn [fold_left].
  destruct p as [c r]. cbn [reading controller] in *. subst r.
  cbn [tick reading]. rewrite settled_final.
  - cbn [controller]. unfold error. rewrite Hs. by cbn.
  - done.
  - apply error_not_readable.
Qed.

Lemma transport_failure_is_final_witness :
  let before := [UpstreamChunk [ParsedEvent (delta_payload "content" "c1");
                                ParsedEvent (delta_payload "content" "c2")];
                 ConsumerRead] in
  let p := @createResponseStream Reference.runtime true before in
  let c' := controller (@createResponseStream Reference.runtime true
                          (before ++ UpstreamFailure :: [ConsumerRead])) in
  state c' = errored API_ERROR_MESSAGES.STREAM_FAILED ∧
  consumed c' = consumed (controller p) ∧ queue c' = [].
Proof.
  intros before.
  apply (@transport_failure_is_final Reference.runtime before [ConsumerRead]);
    reflexivity.
Defined.

(** X4. When the upstream response has no body the stream is errored
    from the start with the stream-failed error and stays so: nothing is
    ever delivered. *)
Theorem missing_body_errors_stream `{Runtime} ticks :
  createResponseStream false ticks
  = {| controller := {| state := errored API_ERROR_MESSAGES.STREAM_FAILED;
                        closeRequested := false; queue := [];
                        readRequests := 0; consumed := [] |};
       reading := false |}.
Proof. unfold createResponseStream. by rewrite settled_final. Qed.

(** X5. What the consumer has been handed is never taken back nor
    reordered: along any run, whatever the events, failures and reads,
    the chunks consumed so far stay an initial part of those consumed
    later. *)
Theorem consumed_only_grows `{Runtime} has_body ticks more :
  consumed (controller (createResponseStream has_body ticks))
    `prefix_of`
  consumed (controller (createResponseStream has_body (ticks ++ more))).
Proof.
  unfold createResponseStream. rewrite fold_left_app.
  generalize (fold_left tick ticks (start has_body)). clear ticks.
  induction more as [|t more IH]; intros p; [done|].
  cbn [fold_left]. etrans; [apply tick_keeps_consumed|apply IH].
Qed.

(** X6. A stream that ends with the sentinel or with the notice, with
    no event after it and no transport failure, is delivered in full: a
    consumer that goes on reading receives every chunk, in order, and then
    sees the stream closed. *)
Theorem closed_stream_is_delivered `{Runtime} ticks n :
  undisturbed ticks → closes_last (arrived ticks) = true →
  snd (reframe (arrived ticks)) = true →
  (length (fst (reframe (arrived ticks))) ≤ n)%nat →
  let c := controller (createResponseStream true (ticks ++ repeat ConsumerRead n)) in
  consumed c = fst (reframe (arrived ticks)) ∧ queue c = [] ∧ state c = closed.
Proof.
  intros Hund Hlast Hstop Hn.
  destruct (run_reframe ticks (start true) eq_refl fresh_controller_accepting
              fresh_controller_wf Hund Hlast) as (O & C & S & W).
  cbn zeta in *. unfold createResponseStream. rewrite fold_left_app.
  change (outbound (controller (start true))) with (@nil string) in O.
  cbn [app] in O.
  destruct (fold_left tick ticks (start true)) as [c r]. cbn [controller] in *.
  destruct (drain n c r W S) as (D1 & D2 & D3).
  { rewrite <- O in Hn. unfold outbound in Hn. rewrite length_app in Hn. lia. }
  cbn zeta in *. rewrite D1, O. pack. apply D3. by rewrite C.
Qed.

Lemma closed_stream_is_delivered_witness :
  let ticks := [UpstreamChunk [ParsedEvent (delta_payload "content" "c1");
                               ParsedEvent "oops"]; UpstreamDone] in
  let c := controller (@createResponseStream Reference.runtime true
                         (ticks ++ repeat ConsumerRead 2)) in
  consumed c = fst (@reframe Reference.runtime (arrived ticks)) ∧
  queue c = [] ∧ state c = closed.
Proof.
  intros ticks.
  apply (@closed_stream_is_delivered Reference.runtime ticks 2%nat);
    (reflexivity || (vm_compute; lia)).
Defined.

(** X7. A payload that is valid JSON but is [null] is treated like a
    malformed one: reading [choices] of it throws inside the [try], so
    the notice is sent and the stream is asked to close. *)
Theorem null_payload_gives_notice `{Runtime} data c :
  String.eqb data "[DONE]" = false → String.eqb data "keep-alive" = false →
  JSON_parse data = Some JNull →
  canCloseOrEnqueue c = true → wf c →
  ∃ c', onParse (ParsedEvent data) c = (Ok (), c') ∧
        outbound c' = outbound c ++ [notice] ∧ closeRequested c' = true.
Proof.
  intros Hd Hk Hnull Hacc Hwf.
  destruct (onParse_accepting (ParsedEvent data) c Hacc Hwf)
    as (c' & E & O & C & _).
  exists c'. cbn [reframe_event] in O, C. rewrite Hd, Hk, Hnull in O, C. pack.
Qed.

Lemma null_payload_gives_notice_witness :
  ∃ c', @onParse Reference.runtime (ParsedEvent "null") fresh_controller = (Ok (), c') ∧
        outbound c' = outbound fresh_controller ++ [notice] ∧
        closeRequested c' = true.
Proof.
  apply (@null_payload_gives_notice Reference.runtime "null" fresh_controller);
    try reflexivity. apply fresh_controller_wf.
Defined.

(** * Further properties of the history normaliser *)

Lemma values_app (h : Heap) l1 l2 : values h (l1 ++ l2) = values h l1 ++ values h l2.
Proof. unfold values. apply fmap_app. Qed.

Lemma values_insert_notin (h : Heap) l m ls :
  l ∉ ls → values (<[l := m]> h) ls = values h ls.
Proof.
  intros Hl. unfold values. apply list_fmap_ext. intros i l' Hi.
  apply lookup_total_insert_ne. intros ->. apply Hl.
  by eapply list_elem_of_lookup_2.
Qed.

Lemma last_values (h : Heap) ls : last (values h ls) = (λ l, h !!! l) <$> last ls.
Proof. unfold values. apply fmap_last. Qed.

(** One step of the reduction on distinct objects is one step of
    [merge_value] on their values, and touches no other object. *)
Lemma merge_step_values acc curr index (h : Heap) :
  (index = 0%nat → acc = []) → (index ≠ 0%nat → acc ≠ []) →
  NoDup acc → curr ∉ acc →
  ∃ acc' h', merge acc curr index h = (Ok acc', h') ∧
    (acc' = acc ∨ acc' = acc ++ [curr]) ∧ acc' ≠ [] ∧
    values h' acc' = merge_value (values h acc) (h !!! curr) ∧
    (∀ l, l ∉ acc → h' !! l = h !! l) ∧
    (∀ l, reasoning_content (h' !!! l) = reasoning_content (h !!! l)).
Proof.
  intros H0 Hn Hnd Hcurr. unfold merge.
  destruct (Nat.eqb_spec index 0) as [->|Hidx].
  - rewrite (H0 eq_refl). exists [curr], h. pack.
  - specialize (Hn Hidx).
    destruct (last acc) as [p|] eqn:Hp; [|by apply last_None in Hp].
    pose proof Hp as Hp'. apply last_Some in Hp' as [acc0 ->].
    apply NoDup_app in Hnd as (_ & Hdisj & _).
    assert (Hp0 : p ∉ acc0).
    { intros Hin. apply (Hdisj p Hin). by left. }
    unfold bind, deref, set_content, ret, merge_value.
    rewrite last_values, Hp. cbn [fmap option_fmap option_map].
    destruct (String.eqb_spec (role (h !!! p)) (role (h !!! curr))) as [Heq|Hne].
    + eexists (acc0 ++ [p]), _. split; [reflexivity|]. pack.
      * rewrite !values_app, values_insert_notin by done.
        change (values h [p]) with [h !!! p]. rewrite removelast_last.
        unfold values at 2. cbn. by rewrite lookup_total_insert_eq.
      * intros l Hl. apply lookup_insert_ne. intros ->. apply Hl.
        apply elem_of_app. right. by left.
      * intros l. destruct (decide (p = l)) as [->|Hpl].
        -- by rewrite lookup_total_insert_eq.
        -- by rewrite lookup_total_insert_ne.
    + exists ((acc0 ++ [p]) ++ [curr]), h. pack.
      * by destruct acc0.
      * by rewrite (values_app h (acc0 ++ [p]) [curr]).
Qed.

Lemma reduce_merge_values items : ∀ index acc (h : Heap),
  (index = 0%nat → acc = []) → (index ≠ 0%nat → acc ≠ []) →
  NoDup (acc ++ items) →
  ∃ out h', reduce merge items index acc h = (Ok out, h') ∧
    values h' out = fold_left merge_value (values h items) (values h acc).
Proof.
  induction items as [|curr items IH]; intros index acc h H0 Hn Hnd.
  - exists acc, h. pack.
  - pose proof Hnd as Hnd'.
    apply NoDup_app in Hnd' as (Hacc & Hdisj & Hitems).
    apply NoDup_cons in Hitems as [Hcurr Hitems].
    destruct (merge_step_values acc curr index h H0 Hn Hacc)
      as (acc' & h1 & E1 & Hacc' & Hne & V1 & F1 & _).
    { intros Hin. apply (Hdisj curr Hin). by left. }
    assert (Hnd1 : NoDup (acc' ++ items)).
    { destruct Hacc' as [-> | ->].
      - apply NoDup_app. pack. intros x Hx Hx'. apply (Hdisj x Hx). by right.
      - by rewrite <- app_assoc. }
    destruct (IH (S index) acc' h1 ltac:(lia) ltac:(done) Hnd1)
      as (out & h' & E & V).
    exists out, h'. cbn [reduce]. unfold bind. rewrite E1. split; [done|].
    rewrite V, V1. unfold values at 3. cbn [fmap list_fmap fold_left].
    f_equal. unfold values. apply list_fmap_ext. intros i l Hi.
    rewrite !lookup_total_alt, F1; [done|].
    intros Hin. apply (Hdisj l Hin). right. by eapply list_elem_of_lookup_2.
Qed.

Lemma reduce_merge_frame items : ∀ index acc (h : Heap) r h',
  reduce merge items index acc h = (r, h') →
  (∀ l, l ∉ acc ++ items → h' !! l = h !! l) ∧
  (∀ l, role (h' !!! l) = role (h !!! l) ∧
        reasoning_content (h' !!! l) = reasoning_content (h !!! l)) ∧
  (∀ out, r = Ok out → ∀ l, l ∈ out → l ∈ acc ++ items).
Proof.
  induction items as [|curr items IH]; intros index acc h r h'.
  - intros [= <- <-]. pack. intros out [= <-] l. by rewrite app_nil_r.
  - cbn [reduce]. unfold bind.
    assert (Hstep : ∃ acc1 h1, merge acc curr index h = (acc1, h1) ∧
              (∀ l, l ∉ acc → h1 !! l = h !! l) ∧
              (∀ l, role (h1 !!! l) = role (h !!! l) ∧
                    reasoning_content (h1 !!! l) = reasoning_content (h !!! l)) ∧
              (∀ a, acc1 = Ok a → ∀ l, l ∈ a → l ∈ acc ++ [curr])).
    { unfold merge. destruct (index =? 0)%nat.
      - eexists _, h. split; [reflexivity|]. pack. intros a [= <-]. done.
      - destruct (last acc) as [p|] eqn:Hp.
        + unfold bind, deref, set_content, ret.
          destruct (String.eqb (role (h !!! p)) (role (h !!! curr))).
          * eexists _, _. split; [reflexivity|]. pack.
            -- intros l Hl. apply lookup_insert_ne. intros ->. apply Hl.
               by eapply last_Some_elem_of.
            -- intros l. destruct (decide (p = l)) as [->|Hpl].
               ++ by rewrite lookup_total_insert_eq.
               ++ by rewrite lookup_total_insert_ne.
            -- intros a [= <-] l Hl. apply elem_of_app. by left.
          * eexists _, h. split; [reflexivity|]. pack. intros a [= <-]. done.
        + eexists _, h. split; [reflexivity|]. pack. }
    destruct Hstep as (acc1 & h1 & -> & F1 & R1 & I1).
    destruct acc1 as [a|e].
    + intros E. destruct (IH _ _ _ _ _ E) as (F & R & I).
      assert (Hsub : ∀ l, l ∈ a ++ items → l ∈ acc ++ curr :: items).
      { intros l [Hl|Hl]%elem_of_app.
        - apply (I1 a eq_refl) in Hl. apply elem_of_app in Hl as [Hl|Hl].
          + apply elem_of_app. by left.
          + apply elem_of_app. right. apply list_elem_of_singleton in Hl as ->. by left.
        - apply elem_of_app. right. by right. }
      pack.
      * intros l Hl. rewrite F, F1; [done| |].
        -- intros Hin. apply Hl, elem_of_app. by left.
        -- intros Hin. by apply Hl, Hsub.
      * intros l. destruct (R l) as [-> ->]. apply R1.
      * intros out Hout l Hl. by apply Hsub, (I out Hout).
    + intros [= <- <-]. pack. intros l Hl. apply F1.
      intros Hin. apply Hl, elem_of_app. by left.
Qed.

Lemma join_nl_snoc parts x :
  parts ≠ [] → join_nl (parts ++ [x]) = join_nl parts +:+ nl +:+ x.
Proof.
  induction parts as [|a [|b parts] IH]; intros Hne; [done|done|].
  specialize (IH ltac:(done)). cbn [app join_nl] in *.
  by rewrite IH, !string_app_assoc.
Qed.

Lemma merge_value_nonempty acc m : merge_value acc m ≠ [].
Proof.
  unfold merge_value. destruct (last acc); [|done].
  destruct (String.eqb _ _); intros E; by apply app_eq_nil in E as [_ ?].
Qed.

Lemma merge_value_text acc m :
  acc ≠ [] →
  join_nl (content <$> merge_value acc m)
  = join_nl (content <$> acc) +:+ nl +:+ content m.
Proof.
  intros Hne. unfold merge_value.
  destruct (last acc) as [p|] eqn:Hp; [|by apply last_None in Hp].
  apply last_Some in Hp as [acc0 ->].
  destruct (String.eqb (role p) (role m)).
  - rewrite removelast_last, !fmap_app. cbn [fmap list_fmap content].
    destruct acc0 as [|a acc0]; [done|].
    rewrite !join_nl_snoc by done. by rewrite !string_app_assoc.
  - rewrite (fmap_app content (acc0 ++ [p]) [m]). cbn [fmap list_fmap].
    apply join_nl_snoc. rewrite fmap_app. by destruct (content <$> acc0).
Qed.

Lemma fold_merge_value_text messages : ∀ acc,
  join_nl (content <$> fold_left merge_value messages acc)
  = join_nl ((content <$> acc) ++ (content <$> messages)).
Proof.
  induction messages as [|m messages IH]; intros acc; cbn [fold_left fmap list_fmap].
  - by rewrite app_nil_r.
  - rewrite IH. destruct acc as [|a acc].
    + done.
    + assert (Hcat : ∀ xs ys, xs ≠ [] →
                join_nl (xs ++ ys) = join_nl (xs ++ []) +:+
                  match ys with [] => "" | _ => nl +:+ join_nl ys end).
      { clear. intros xs ys. revert xs.
        induction ys as [|y ys IHy]; intros xs Hxs.
        - by rewrite app_nil_r, string_app_empty.
        - replace (xs ++ y :: ys) with ((xs ++ [y]) ++ ys) by (by rewrite <- app_assoc).
          rewrite IHy by (by destruct xs). rewrite !app_nil_r, join_nl_snoc by done.
          destruct ys as [|z ys]; cbn [join_nl].
          + by rewrite string_app_empty.
          + by rewrite !string_app_assoc. }
      rewrite (Hcat (content <$> merge_value (a :: acc) m)).
      2:{ intros E. apply fmap_nil_inv in E. by apply merge_value_nonempty in E. }
      rewrite app_nil_r, merge_value_text by done.
      rewrite (Hcat (content <$> a :: acc) (content m :: (content <$> messages)))
        by done.
      rewrite app_nil_r.
      destruct (content <$> messages) as [|z zs]; cbn [join_nl].
      * by rewrite string_app_empty.
      * by rewrite !string_app_assoc.
Qed.

(** The normaliser on the values of distinct objects. *)
Lemma normalizeMessages_values (h : Heap) messages :
  NoDup messages →
  ∃ normalized h',
    normalizeMessages messages h = (Ok normalized, h') ∧
    values h' normalized = coalesce (values h messages).
Proof.
  intros Hnd.
  destruct (reduce_merge_values messages 0%nat [] h ltac:(done) ltac:(done) Hnd)
    as (out & h' & E & V).
  destruct (normalizeMessages_total h messages) as (out' & h1 & E' & _ & _ & N & _).
  rewrite E in E'. injection E' as <- <-.
  exists out, h'. split; [done|]. exact V.
Qed.

(** X8. On an array of distinct objects the normaliser computes, on
    the values of the objects, the fold of [merge_value]: each run of
    adjacent messages of one role becomes one message, with the role and
    the reasoning content of its first message and the contents of all of
    them joined by newlines, in order. *)
Theorem normalizer_coalesces_values (h : Heap) messages :
  NoDup messages →
  ∃ normalized h',
    normalizeMessages messages h = (Ok normalized, h') ∧
    values h' normalized = coalesce (values h messages).
Proof.
  intros Hnd.
  destruct (reduce_merge_values messages 0%nat [] h ltac:(done) ltac:(done) Hnd)
    as (out & h' & E & V).
  destruct (normalizeMessages_total h messages) as (out' & h1 & E' & _ & _ & N & _).
  rewrite E in E'. injection E' as <- <-.
  exists out, h'. split; [done|]. exact V.
Qed.

Lemma normalizer_coalesces_values_witness :
  let h : Heap :=
    <[2%nat := {| role := "user"; content := "world"; reasoning_content := None |}]>
    (<[1%nat := {| role := "user"; content := "hello"; reasoning_content := None |}]>
    (<[0%nat := {| role := "system"; content := "be brief"; reasoning_content := None |}]>
     ∅)) in
  ∃ normalized h',
    normalizeMessages [0; 1; 2]%nat h = (Ok normalized, h') ∧
    values h' normalized = coalesce (values h [0; 1; 2]%nat).
Proof.
  intros h. apply normalizer_coalesces_values.
  compute_done.
Defined.

(** X9. Merging drops no text: on distinct objects, the contents of
    the normalised history joined by newlines are the contents of the
    given messages joined by newlines. *)
Theorem normalizer_keeps_all_text (h : Heap) messages :
  NoDup messages →
  ∃ normalized h',
    normalizeMessages messages h = (Ok normalized, h') ∧
    join_nl (content <$> values h' normalized)
    = join_nl (content <$> values h messages).
Proof.
  intros Hnd.
  destruct (reduce_merge_values messages 0%nat [] h ltac:(done) ltac:(done) Hnd)
    as (out & h' & E & V).
  destruct (normalizeMessages_total h messages) as (out' & h1 & E' & _ & _ & N & _).
  rewrite E in E'. injection E' as <- <-.
  exists out, h'. split; [done|]. rewrite V.
  by rewrite fold_merge_value_text.
Qed.

Lemma normalizer_keeps_all_text_witness :
  let h : Heap :=
    <[2%nat := {| role := "user"; content := "world"; reasoning_content := None |}]>
    (<[1%nat := {| role := "user"; content := "hello"; reasoning_content := None |}]>
    (<[0%nat := {| role := "system"; content := "be brief"; reasoning_content := None |}]>
     ∅)) in
  ∃ normalized h',
    normalizeMessages [0; 1; 2]%nat h = (Ok normalized, h') ∧
    join_nl (content <$> values h' normalized)
    = join_nl (content <$> values h [0; 1; 2]%nat).
Proof.
  intros h. apply normalizer_keeps_all_text.
  compute_done.
Defined.

(** X10. The normaliser writes to nothing but the contents of the
    objects in its array: every object outside the array is left as it
    is, and no role and no reasoning content is changed; the array it
    returns holds references of the given array only. *)
Theorem normalizer_frame (h : Heap) messages r h' :
  normalizeMessages messages h = (r, h') →
  (∀ l, l ∉ messages → h' !! l = h !! l) ∧
  (∀ l, role (h' !!! l) = role (h !!! l) ∧
        reasoning_content (h' !!! l) = reasoning_content (h !!! l)) ∧
  (∀ normalized, r = Ok normalized → ∀ l, l ∈ normalized → l ∈ messages).
Proof.
  unfold normalizeMessages, bind.
  destruct (reduce merge messages 0%nat [] h) as [[out|e] h1] eqn:E.
  - destruct (reduce_merge_frame _ _ _ _ _ _ E) as (F & R & I).
    destruct (validateMessageSequence_spec h1 out) as [[-> _]|[-> _]];
      intros [= <- <-]; pack.
  - destruct (reduce_merge_frame _ _ _ _ _ _ E) as (F & R & I).
    intros [= <- <-]. pack.
Qed.

Lemma normalizer_frame_witness :
  let h : Heap :=
    <[2%nat := {| role := "user"; content := "world"; reasoning_content := None |}]>
    (<[1%nat := {| role := "user"; content := "hello"; reasoning_content := None |}]>
    (<[0%nat := {| role := "system"; content := "be brief"; reasoning_content := None |}]>
     ∅)) in
  let result := normalizeMessages [1; 2]%nat h in
  (∀ l, l ∉ [1; 2]%nat → result.2 !! l = h !! l) ∧
  (∀ l, role (result.2 !!! l) = role (h !!! l) ∧
        reasoning_content (result.2 !!! l) = reasoning_content (h !!! l)) ∧
  (∀ normalized, result.1 = Ok normalized → ∀ l, l ∈ normalized → l ∈ [1; 2]%nat).
Proof.
  intros h result.
  apply (normalizer_frame h [1; 2]%nat result.1 result.2).
  apply surjective_pairing.
Defined.

(** * Further properties of the handler *)

(** The objects made for the messages of a request are new, distinct, and
    hold the messages. *)
Lemma allocate_spec `{Runtime} messages : ∀ h : Heap,
  ∃ ls h', allocate messages h = (Ok ls, h') ∧
    NoDup ls ∧ (∀ l, l ∈ ls → l ∉ dom h) ∧ (∀ l, l ∈ ls → l ∈ dom h') ∧
    values h' ls = messages ∧ (∀ l, l ∈ dom h → h' !! l = h !! l).
Proof.
  induction messages as [|m messages IH]; intros h.
  - exists [], h. cbn. pack; try constructor; intros l Hl; by apply elem_of_nil in Hl.
  - cbn [allocate]. unfold bind at 1, alloc.
    set (l := fresh (dom h)). pose proof (is_fresh (dom h)) as Hl. fold l in Hl.
    destruct (IH (<[l := m]> h)) as (ls & h' & E & Hnd & Hnew & Hdom & V & Hold).
    unfold bind, ret. rewrite E. exists (l :: ls), h'.
    assert (Hlin : l ∈ dom (<[l := m]> h)).
    { rewrite dom_insert_L. apply elem_of_union. left. by apply elem_of_singleton. }
    assert (Hsub : ∀ l', l' ∈ dom h → l' ∈ dom (<[l := m]> h)).
    { intros l' Hl'. rewrite dom_insert_L. apply elem_of_union. by right. }
    pack.
    + apply NoDup_cons. split; [|done]. intros Hin. by apply (Hnew l Hin).
    + intros l' [->|Hin]%elem_of_cons; [done|].
      intros Hl'. by apply (Hnew l' Hin), Hsub.
    + intros l' [->|Hin]%elem_of_cons; [|by apply Hdom].
      apply elem_of_dom. rewrite Hold by done. rewrite lookup_insert_eq. eauto.
    + unfold values in *. cbn [fmap list_fmap]. rewrite V. f_equal.
      rewrite lookup_total_alt, Hold by done. by rewrite lookup_insert_eq.
    + intros l' Hl'. rewrite Hold by (by apply Hsub). apply lookup_insert_ne.
      intros <-. done.
Qed.

(** The history [POST] computes for a request of the declared types. *)
Lemma history_of_request `{Runtime} prompt messages input :
  ∃ h : Heap,
    (let* locs := allocate messages in
     let* history := buildMessageHistory prompt locs input in
     snapshot history) ∅
    = (Ok (coalesce ({| role := "system"; content := prompt;
                        reasoning_content := None |}
                     :: messages
                     ++ [{| role := "user"; content := input;
                            reasoning_content := None |}])), h).
Proof.
  destruct (allocate_spec messages ∅) as (ls & h0 & E & Hnd & _ & Hdom & V & _).
  unfold bind at 1. rewrite E. unfold bind at 1, buildMessageHistory, bind at 1 2, alloc.
  set (sys := {| role := "system"; content := prompt; reasoning_content := None |}).
  set (usr := {| role := "user"; content := input; reasoning_content := None |}).
  destruct (wrappers_fresh h0 sys) as (F1 & F2 & F12).
  set (l1 := fresh (dom h0)) in *.
  set (l2 := fresh (dom (<[l1 := sys]> h0))) in *.
  set (h2 := <[l2 := usr]> (<[l1 := sys]> h0)).
  assert (Hnd' : NoDup ([l1] ++ ls ++ [l2])).
  { cbn [app]. apply NoDup_cons. split.
    - intros [Hin|Hin]%elem_of_app; [by apply F1, Hdom|].
      apply list_elem_of_singleton in Hin. done.
    - apply NoDup_app. pack; [|apply NoDup_singleton].
      intros l Hl Hl'. apply list_elem_of_singleton in Hl' as ->. by apply F2, Hdom. }
  destruct (normalizeMessages_values h2 ([l1] ++ ls ++ [l2]) Hnd')
    as (out & h' & -> & Vout).
  exists h'. unfold snapshot. fold (values h' out). rewrite Vout. do 3 f_equal.
  cbn [app]. unfold values at 1. cbn [fmap list_fmap]. fold (values h2 (ls ++ [l2])).
  rewrite values_app. unfold h2.
  f_equal; [by rewrite lookup_total_insert_ne, lookup_total_insert_eq|].
  f_equal.
  - rewrite <- V. unfold values. apply list_fmap_ext. intros i l Hi.
    assert (l ∈ dom h0) by (by eapply Hdom, list_elem_of_lookup_2).
    rewrite !lookup_total_insert_ne; [done| |]; intros <-; done.
  - unfold values. cbn. by rewrite lookup_total_insert_eq.
Qed.

(** The history the heap model gives and the one the handler builds
    are the same messages, for every request of the declared types. *)
Lemma declared_history_agrees `{Runtime} prompt messages input ms :
  as_Messages ms = Some messages →
  ∃ (h : Heap) typed history,
    (let* locs := allocate messages in
     let* history := buildMessageHistory prompt locs input in
     snapshot history) ∅ = (Ok typed, h) ∧
    Untyped.buildMessageHistory (Some (JStr prompt)) ms (Some (JStr input))
    = Ok history ∧
    as_Messages (Untyped.js <$> history) = Some typed.
Proof.
  intros Hms. destruct (history_of_request prompt messages input) as [h Hh].
  destruct (declared_history (Some (JStr prompt)) ms (Some (JStr input))
              prompt messages input eq_refl Hms eq_refl)
    as (history & Hhist & Hview & _).
  exists h. eexists. exists history.
  split; [exact Hh|]. split; [exact Hhist|exact Hview].
Qed.

Section UpstreamFacts.
Context `{Runtime}.

(** Once the logging has succeeded, the client is the call of [fetch]
    and what follows it. *)
Lemma createDeepSeekStream_logged config messages net w :
  Untyped.log_messages messages = Ok () →
  createDeepSeekStream config messages net w
  = try_catch
      (let* response := fetch net TIMEOUT_MS (request_of config messages) in
       let* _ := lift (validateApiResponse response) in
       let* _ := (if negb (ok response) then
                    let* errorData := lift (getErrorData response) in
                    throw (ApiError errorData (status response))
                  else ret ()) in
       ret (StreamBody (has_body response)))
      (λ error,
         if instanceof_ApiError error && (exn_status error =? 401)%N
         then throw (ApiError API_ERROR_MESSAGES.INVALID_KEY 401)
         else lift (handleStreamError error)) w.
Proof.
  intros Hlog. unfold createDeepSeekStream, makeApiRequest, try_catch.
  unfold bind at 4 8. unfold lift at 1 5. by rewrite Hlog.
Qed.

Lemma createDeepSeekStream_success config messages after response w :
  Untyped.log_messages messages = Ok () →
  (after <=? TIMEOUT_MS)%N = true → ok response = true →
  createDeepSeekStream config messages (Responds after response) w
  = (Ok (StreamBody (has_body response)),
     {| sent := sent w ++ [request_of config messages]; aborted := aborted w |}).
Proof.
  intros Hlog Hafter Hok. rewrite createDeepSeekStream_logged by done.
  unfold try_catch, bind, fetch, lift, throw, ret, validateApiResponse.
  by rewrite Hafter, Hok.
Qed.

Lemma createDeepSeekStream_network_failure config messages after e w :
  Untyped.log_messages messages = Ok () →
  (after <=? TIMEOUT_MS)%N = true → instanceof_ApiError e = false →
  createDeepSeekStream config messages (Fails after e) w
  = (handleStreamError e,
     {| sent := sent w ++ [request_of config messages]; aborted := aborted w |}).
Proof.
  intros Hlog Hafter He. rewrite createDeepSeekStream_logged by done.
  unfold try_catch, bind, fetch, lift, throw.
  by rewrite Hafter, He.
Qed.


Lemma getErrorData_throw response e :
  match text response with
  | Throw e' => instanceof_ApiError e' = false
  | Ok _ => True
  end →
  getErrorData response = Throw e → instanceof_ApiError e = false.
Proof.
  unfold getErrorData. destruct (text response) as [body|e1]; cbn [obind].
  - intros _.
    destruct (status response =? 429)%N; [done|].
    destruct (status response =? 401)%N; [done|].
    destruct (status response =? 400)%N.
    { destruct (ToString (reported_message body)) eqn:E; [done|].
      intros [= <-]. by eapply ToString_raises. }
    destruct (status response =? 503)%N; [done|].
    destruct (ToString (reported_message body)) eqn:E; [done|].
    intros [= <-]. by eapply ToString_raises.
  - by intros He [= <-].
Qed.

(** Every error the client raises is a non-[ApiError], or an [ApiError]
    whose status is not a success status. *)
Lemma createDeepSeekStream_error_status config messages net w e w' :
  foreign net →
  createDeepSeekStream config messages net w = (Throw e, w') →
  instanceof_ApiError e = true →
  (exn_status e < 200 ∨ 299 < exn_status e)%N.
Proof.
  intros Hnet.
  destruct (Untyped.log_messages messages) as [[]|e0] eqn:Hlog.
  2:{ rewrite (createDeepSeekStream_unlogged _ _ _ _ _ Hlog).
      destruct (log_messages_raises messages e0 Hlog) as [m ->].
      by intros [= <- <-]. }
  assert (Hout : times_out net →
            createDeepSeekStream config messages net w = (Throw e, w') →
            instanceof_ApiError e = true → (exn_status e < 200 ∨ 299 < exn_status e)%N).
  { intros Hout. rewrite createDeepSeekStream_times_out by done.
    intros [= <- <-] _. cbn. lia. }
  assert (Hhandle : ∀ e0, instanceof_ApiError e0 = false →
            ∀ e1, @handleStreamError ResponseBody e0 = Throw e1 →
            instanceof_ApiError e1 = true → (exn_status e1 < 200 ∨ 299 < exn_status e1)%N).
  { intros e0 He0 e1. unfold handleStreamError.
    destruct (exn_is_Error e0); [destruct (String.eqb _ _)|];
      intros [= <-]; cbn; (congruence || lia). }
  destruct net as [after response|after e0|]; cbn [times_out foreign] in *;
    [| |by apply Hout].
  - destruct (N.leb_spec after TIMEOUT_MS) as [Hle|Hgt]; [|by apply Hout].
    assert (Hafter : (after <=? TIMEOUT_MS)%N = true) by (by apply N.leb_le).
    destruct (ok response) eqn:Hok.
    { by rewrite createDeepSeekStream_success. }
    assert (Hrange : (status response < 200 ∨ 299 < status response)%N).
    { unfold ok in Hok. apply andb_false_iff in Hok as [Hok|Hok];
        [apply N.leb_gt in Hok|apply N.leb_gt in Hok]; lia. }
    destruct (validateApiResponse response) as [[]|e0] eqn:Hval.
    { unfold validateApiResponse in Hval. rewrite Hok in Hval. cbn in Hval.
      destruct (status response =? 401)%N; [done|].
      by destruct (getErrorData response). }
    destruct (instanceof_ApiError e0) eqn:He0.
    + assert (exn_status e0 = status response) as Hst.
      { unfold validateApiResponse in Hval. rewrite Hok in Hval. cbn in Hval.
        destruct (N.eqb_spec (status response) 401) as [E|_].
        - injection Hval as <-. by rewrite E.
        - destruct (getErrorData response) eqn:Hget; cbn in Hval.
          + by injection Hval as <-.
          + injection Hval as ->.
            by rewrite (getErrorData_throw response e0 Hnet Hget) in He0. }
      rewrite createDeepSeekStream_logged by done.
      unfold try_catch, bind, fetch, lift, throw.
      rewrite Hafter, Hval, He0. cbn [andb].
      destruct (exn_status e0 =? 401)%N.
      * intros [= <- <-] _. cbn. lia.
      * unfold handleStreamError. destruct e0; try done. cbn.
        intros [= <- <-] _. cbn in *. lia.
    + rewrite createDeepSeekStream_logged by done.
      unfold try_catch, bind, fetch, lift, throw.
      rewrite Hafter, Hval, He0. cbn [andb].
      intros [= Heq _]. by eapply Hhandle.
  - destruct (N.leb_spec after TIMEOUT_MS) as [Hle|Hgt]; [|by apply Hout].
    assert (Hafter : (after <=? TIMEOUT_MS)%N = true) by (by apply N.leb_le).
    rewrite createDeepSeekStream_network_failure by done.
    intros [= Heq _]. by eapply Hhandle.
Qed.
End UpstreamFacts.

Section HandlerEdges.
Context `{Runtime}.

Lemma validateNoReasoningContent_throw messages e :
  validateNoReasoningContent messages = Throw e →
  e = ApiError API_ERROR_MESSAGES.REASONING_CONTENT_NOT_ALLOWED 400 ∨
  (instanceof_ApiError e = false ∧ JNull ∈ messages).
Proof.
  induction messages as [|m messages IH]; [done|].
  cbn [validateNoReasoningContent].
  assert (m = JNull ∨ m ≠ JNull) as [->|Hm] by (destruct m; auto).
  - cbn. intros [= <-]. right. split; [done|]. by left.
  - rewrite get_is_get_opt by done. cbn [obind].
    destruct (truthy _); [intros [= <-]; by left|].
    intros E. destruct (IH E) as [->|[? ?]]; [by left|].
    right. split; [done|]. by right.
Qed.

Lemma validateNoReasoningContent_ok messages :
  validateNoReasoningContent messages = Ok () ↔
  Forall (λ m, m ≠ JNull ∧ truthy (get_opt (Some m) "reasoning_content") = false)
    messages.
Proof.
  induction messages as [|m messages IH]; [by split; [constructor|]|].
  cbn [validateNoReasoningContent]. rewrite Forall_cons, <- IH.
  assert (m = JNull ∨ m ≠ JNull) as [->|Hm] by (destruct m; auto).
  - cbn. split; [done|]. by intros [[? _] _].
  - rewrite get_is_get_opt by done. cbn [obind].
    destruct (truthy _); [split; [done|by intros [[_ ?] _]]|].
    split; [done|by intros [_ ?]].
Qed.

Lemma validateApiResponse_rejects response body detail :
  ok response = false → text response = Ok body →
  ToString (reported_message body) = Ok detail →
  validateApiResponse response
  = Throw (ApiError (mapped_message (status response) (statusText response) detail)
             (status response)).
Proof.
  intros Hok Htext Hdetail.
  unfold validateApiResponse, mapped_message, getErrorData.
  rewrite Hok, Htext. cbn [negb obind].
  destruct (N.eqb_spec (status response) 401) as [->|_]; [done|].
  destruct (status response =? 429)%N; [done|].
  destruct (status response =? 400)%N; [by rewrite Hdetail|].
  destruct (status response =? 503)%N; [done|].
  by rewrite Hdetail.
Qed.

Lemma getApiConfig_throw env e :
  getApiConfig env = Throw e → e = ApiError KEY_NOT_CONFIGURED 500.
Proof.
  unfold getApiConfig. destruct (DEEPSEEK_API_KEY env) as [key|]; [|by intros [= <-]].
  destruct (String.eqb key ""); [by intros [= <-]|done].
Qed.
End HandlerEdges.

(** X11. A request whose body is not JSON, or is [null], or lacks a
    truthy [prompt] or [input], or whose [messages] is not an array, is
    answered with status 400 and the invalid-parameters message, whatever
    went wrong; nothing is sent upstream. *)
Theorem invalid_request_gets_400 `{Runtime} req env net :
  match req with
  | Throw _ => True
  | Ok data =>
      data = JNull ∨ truthy (get_opt (Some data) "prompt") = false ∨
      isArray (get_opt (Some data) "messages") = false ∨
      truthy (get_opt (Some data) "input") = false
  end →
  POST req env net quiet
  = (Ok {| resp_status := 400; content_type := "text/event-stream";
           resp_body := JsonBody (JObj [("success", JBool false);
                                        ("error", JStr "无效的请求参数")]) |},
     quiet).
Proof.
  intros Hbad. rewrite POST_unfold.
  destruct (validateAndParseRequest_cases req) as [[[[p ms] i] E]| ->]; [|done].
  exfalso. apply validateAndParseRequest_spec in E
    as (data & -> & Hnull & -> & Hp & Hms & -> & Hi).
  destruct Hbad as [?|[?|[Harr|?]]]; try congruence.
  by rewrite Hms in Harr.
Qed.

Lemma invalid_request_gets_400_witness :
  @POST Reference.runtime
    (Ok (JObj [("prompt", JStr "be brief"); ("messages", JStr "none");
               ("input", JStr "hello")]))
    example_env Silent quiet
  = (Ok {| resp_status := 400; content_type := "text/event-stream";
           resp_body := JsonBody (JObj [("success", JBool false);
                                        ("error", JStr "无效的请求参数")]) |},
     quiet).
Proof.
  apply (@invalid_request_gets_400 Reference.runtime).
  right. right. left. reflexivity.
Defined.

(** X12. The reasoning check accepts exactly the arrays whose elements
    are all non-null and have no truthy [reasoning_content] (an absent, an
    empty, a [null], a [false] one all pass).  When it fails, it fails
    with the 400 error, unless it met a [null] element first, in which
    case the error is no [ApiError]. *)
Theorem reasoning_check_outcomes `{Runtime} messages :
  (validateNoReasoningContent messages = Ok () ↔
   Forall (λ m, m ≠ JNull ∧ truthy (get_opt (Some m) "reasoning_content") = false)
     messages) ∧
  (∀ e, validateNoReasoningContent messages = Throw e →
        e = ApiError API_ERROR_MESSAGES.REASONING_CONTENT_NOT_ALLOWED 400 ∨
        (instanceof_ApiError e = false ∧ JNull ∈ messages)).
Proof.
  split; [apply validateNoReasoningContent_ok|].
  intros e. apply validateNoReasoningContent_throw.
Qed.

(** X13. Without a credential (unset or empty) nothing is ever sent
    upstream, and a request that passes both validators and has the
    declared types is answered with status 500 and the key-not-configured
    message. *)
Theorem missing_key_gets_500 `{Runtime}
    req env net p ms i prompt messages input :
  DEEPSEEK_API_KEY env = None ∨ DEEPSEEK_API_KEY env = Some "" →
  snd (POST req env net quiet) = quiet ∧
  (validateAndParseRequest req = Ok (p, ms, i) →
   validateNoReasoningContent ms = Ok () →
   as_string p = Some prompt → as_Messages ms = Some messages →
   as_string i = Some input →
   POST req env net quiet
   = (Ok {| resp_status := 500; content_type := "text/event-stream";
            resp_body := JsonBody (JObj [("success", JBool false);
                                         ("error", JStr "API密钥未配置")]) |},
      quiet)).
Proof.
  intros Hkey.
  assert (Hcfg : getApiConfig env = Throw (ApiError KEY_NOT_CONFIGURED 500)).
  { unfold getApiConfig. by destruct Hkey as [-> | ->]. }
  rewrite POST_unfold, Hcfg. split.
  - repeat case_match; done.
  - intros -> -> Hp Hms Hi.
    by destruct (declared_history p ms i prompt messages input Hp Hms Hi)
      as (history & -> & _).
Qed.

Lemma missing_key_gets_500_witness :
  let env := {| DEEPSEEK_API_KEY := Some ""; DEEPSEEKAPI_BASE_URL := None;
                DEEPSEEK_MODEL := None |} in
  snd (@POST Reference.runtime (Ok (example_request [])) env Silent quiet) = quiet ∧
  (@validateAndParseRequest Reference.runtime (Ok (example_request []))
   = Ok (Some (JStr "be brief"), [], Some (JStr "hello")) →
   @validateNoReasoningContent Reference.runtime [] = Ok () →
   as_string (Some (JStr "be brief")) = Some "be brief" →
   as_Messages [] = Some [] →
   as_string (Some (JStr "hello")) = Some "hello" →
   @POST Reference.runtime (Ok (example_request [])) env Silent quiet
   = (Ok {| resp_status := 500; content_type := "text/event-stream";
            resp_body := JsonBody (JObj [("success", JBool false);
                                         ("error", JStr "API密钥未配置")]) |},
      quiet)).
Proof.
  intros env.
  apply (@missing_key_gets_500 Reference.runtime (Ok (example_request [])) env Silent).
  right. reflexivity.
Defined.


(** X15. When the upstream answers in time with a status in 200..299,
    a handler that has got as far as [fetch] answers 200 with the
    event-stream content type and the re-framed stream as body, one
    request having been sent and the abort controller left alone; a
    request of the declared types that passes both validators gets that
    far whenever a key is configured. *)
Theorem upstream_success_gets_stream `{Runtime} after upstream :
  (after ≤ TIMEOUT_MS)%N → ok upstream = true →
  let answer := {| resp_status := 200; content_type := "text/event-stream";
                   resp_body := StreamBody (has_body upstream) |} in
  (∀ req env history config,
     reaches_fetch req env history config →
     POST req env (Responds after upstream) quiet
     = (Ok answer, {| sent := [request_of config history]; aborted := false |})) ∧
  (∀ req env prompt messages input key,
     declared req prompt messages input →
     DEEPSEEK_API_KEY env = Some key → key ≠ "" →
     ∃ request,
       POST req env (Responds after upstream) quiet
       = (Ok answer, {| sent := [request]; aborted := false |})).
Proof.
  intros Hafter%N.leb_le Hok answer.
  assert (Hreach : ∀ req env history config,
     reaches_fetch req env history config →
     POST req env (Responds after upstream) quiet
     = (Ok answer, {| sent := [request_of config history]; aborted := false |})).
  { intros req env history config Hreach.
    rewrite (POST_reaches req env _ history config Hreach).
    destruct Hreach as (? & ? & ? & _ & _ & _ & _ & Hlog).
    by rewrite createDeepSeekStream_success. }
  split; [done|].
  intros req env prompt messages input key Hdecl Hkey Hne.
  destruct (declared_reaches req env prompt messages input key Hdecl Hkey Hne)
    as (history & Hreaches & _).
  eexists. by apply Hreach.
Qed.

Lemma upstream_success_gets_stream_witness :
  let upstream := {| status := 200; statusText := "OK"; text := Ok "";
                     has_body := true |} in
  ∃ request,
    @POST Reference.runtime (Ok (example_request [])) example_env
      (Responds 120 upstream) quiet
    = (Ok {| resp_status := 200; content_type := "text/event-stream";
             resp_body := StreamBody (has_body upstream) |},
       {| sent := [request]; aborted := false |}).
Proof.
  intros upstream.
  apply (proj2 (@upstream_success_gets_stream Reference.runtime 120%N upstream
                  ltac:(unfold TIMEOUT_MS; lia) eq_refl)
           (Ok (example_request [])) example_env "be brief" [] "hello" "secret").
  - do 3 eexists. repeat split; reflexivity.
  - reflexivity.
  - discriminate.
Defined.

(** X16. A failure of the network before the timer runs out is mapped
    by its kind: an [Error] is passed on as it is (the handler then
    answers 500 with its message), except that one named [AbortError] is
    reported as the timeout error 408 although nothing was aborted; a
    thrown value that is no [Error] becomes the stream-failed error 500. *)
Theorem network_failure_mapping `{Runtime} config messages after w :
  Untyped.log_messages messages = Ok () →
  (after ≤ TIMEOUT_MS)%N →
  let w' := {| sent := sent w ++ [request_of config messages];
               aborted := aborted w |} in
  (∀ name message,
     name ≠ "AbortError" →
     createDeepSeekStream config messages (Fails after (JsError name message)) w
     = (Throw (JsError name message), w') ∧
     error_response (JsError name message)
     = Ok {| resp_status := 500; content_type := "text/event-stream";
             resp_body := JsonBody (JObj [("success", JBool false);
                                          ("error", JStr message)]) |}) ∧
  (∀ message,
     createDeepSeekStream config messages (Fails after (JsError "AbortError" message)) w
     = (Throw (ApiError API_ERROR_MESSAGES.TIMEOUT 408), w')) ∧
  createDeepSeekStream config messages (Fails after Thrown) w
  = (Throw (ApiError API_ERROR_MESSAGES.STREAM_FAILED 500), w').
Proof.
  intros Hlog Hafter%N.leb_le w'. split; [|split].
  - intros name message Hname. split; [|done].
    rewrite createDeepSeekStream_network_failure by done.
    unfold handleStreamError. cbn.
    by destruct (String.eqb_spec name "AbortError").
  - intros message. by rewrite createDeepSeekStream_network_failure.
  - by rewrite createDeepSeekStream_network_failure.
Qed.

Lemma network_failure_mapping_witness :
  @createDeepSeekStream Reference.runtime example_config []
    (Fails 50 (JsError "TypeError" "fetch failed")) quiet
  = (Throw (JsError "TypeError" "fetch failed"),
     {| sent := [@request_of example_config []]; aborted := false |}) ∧
  error_response (JsError "TypeError" "fetch failed")
  = Ok {| resp_status := 500; content_type := "text/event-stream";
          resp_body := JsonBody (JObj [("success", JBool false);
                                       ("error", JStr "fetch failed")]) |}.
Proof.
  apply (proj1 (@network_failure_mapping Reference.runtime example_config []
                  50%N quiet eq_refl ltac:(unfold TIMEOUT_MS; lia))).
  discriminate.
Defined.

(** X17. The status tells the body: every answer of the handler has
    the event-stream content type; an answer that carries the stream has
    status 200 and follows an upstream request; an answer that carries a
    JSON error never has a status in 200..299. *)
Theorem status_tells_the_body `{Runtime} req env net response w :
  foreign net →
  POST req env net quiet = (Ok response, w) →
  content_type response = "text/event-stream" ∧
  match resp_body response with
  | StreamBody _ => resp_status response = 200%N ∧ sent w ≠ []
  | JsonBody _ => (resp_status response < 200 ∨ 299 < resp_status response)%N
  end.
Proof.
  intros Hnet. rewrite POST_unfold.
  assert (Herr : ∀ e w0, (instanceof_ApiError e = true →
                          (exn_status e < 200 ∨ 299 < exn_status e)%N) →
            (error_response e, w0) = (Ok response, w) →
            content_type response = "text/event-stream" ∧
            match resp_body response with
            | StreamBody _ => resp_status response = 200%N ∧ sent w ≠ []
            | JsonBody _ => (resp_status response < 200
                             ∨ 299 < resp_status response)%N
            end).
  { intros e w0 He [= Hresp _]. unfold error_response in Hresp.
    apply new_Response_inv in Hresp as [-> _]. split; [done|]. cbn.
    destruct (instanceof_ApiError e); [by apply He|lia]. }
  destruct (validateAndParseRequest_cases req) as [[[[p ms] i] ->]| ->].
  2:{ apply Herr. cbn. lia. }
  destruct (validateNoReasoningContent ms) as [[]|e] eqn:Hrc.
  2:{ apply Herr.
      destruct (validateNoReasoningContent_throw ms e Hrc) as [->|[-> _]];
        [cbn; lia|done]. }
  pose proof (untyped_normalizeMessages_outcome
                ([Untyped.wrapper p "system"] ++ (Untyped.plain <$> ms)
                 ++ [Untyped.wrapper i "user"])) as Hhist.
  fold (Untyped.buildMessageHistory p ms i) in Hhist.
  destruct (Untyped.buildMessageHistory p ms i) as [history|e].
  2:{ apply Herr. by rewrite Hhist. }
  destruct (getApiConfig env) as [config|e] eqn:Hcfg.
  2:{ apply Herr. rewrite (getApiConfig_throw env e Hcfg). cbn. lia. }
  pose proof (createDeepSeekStream_sent config history net quiet) as Hsent.
  destruct (createDeepSeekStream config history net quiet) as [[stream|e] w0] eqn:E.
  - intros [= <- <-]. split; [done|]. cbn.
    destruct (Untyped.log_messages history) as [[]|e0] eqn:Hlog.
    2:{ by rewrite (createDeepSeekStream_unlogged _ _ _ _ _ Hlog) in E. }
    assert (∃ b, stream = StreamBody b) as [b ->].
    { rewrite createDeepSeekStream_logged in E by done.
      unfold try_catch, bind, lift, throw, ret in E.
      repeat (case_match; simplify_eq); try done; eauto;
        unfold handleStreamError in *; repeat (case_match; simplify_eq). }
    split; [done|]. cbn in Hsent. by rewrite Hsent.
  - apply Herr. by eapply createDeepSeekStream_error_status.
Qed.

Lemma status_tells_the_body_witness :
  let upstream := {| status := 502; statusText := "Bad Gateway"; text := Ok "";
                     has_body := true |} in
  let result := @POST Reference.runtime (Ok (example_request [])) example_env
                  (Responds 120 upstream) quiet in
  ∃ response, result.1 = Ok response ∧
    content_type response = "text/event-stream" ∧
    match resp_body response with
    | StreamBody _ => resp_status response = 200%N ∧ sent result.2 ≠ []
    | JsonBody _ => (resp_status response < 200 ∨ 299 < resp_status response)%N
    end.
Proof.
  intros upstream result. eexists. split; [vm_compute; reflexivity|].
  eapply (@status_tells_the_body Reference.runtime (Ok (example_request []))
            example_env (Responds 120 upstream) _ result.2).
  - exact I.
  - vm_compute. reflexivity.
Defined.

(** X18. An upstream answer with a status outside 200..299 reaches the
    client with that status where a response can carry it: when its body
    can be read and the detail it reports can be turned into a string, a
    handler that has got as far as [fetch] answers with the upstream's
    status, provided it lies in 300..599 and is not 304, and with the
    message of the table of statuses as JSON error; for any other status
    the constructor of the response throws and the handler answers
    nothing.  One request has been sent and nothing aborted.  A request of
    the declared types that passes both validators gets that far whenever
    a key is configured. *)
Theorem upstream_error_reaches_client `{Runtime} after upstream body detail :
  (after ≤ TIMEOUT_MS)%N → ok upstream = false →
  text upstream = Ok body → ToString (reported_message body) = Ok detail →
  let answer :=
    {| resp_status := status upstream; content_type := "text/event-stream";
       resp_body :=
         JsonBody (JObj [("success", JBool false);
                         ("error", JStr (mapped_message (status upstream)
                                           (statusText upstream) detail))]) |} in
  (∀ req env history config,
     reaches_fetch req env history config →
     (300 ≤ status upstream ≤ 599)%N → status upstream ≠ 304%N →
     POST req env (Responds after upstream) quiet
     = (Ok answer, {| sent := [request_of config history]; aborted := false |})) ∧
  (∀ req env history config,
     reaches_fetch req env history config →
     (status upstream < 200 ∨ 599 < status upstream ∨ status upstream = 304)%N →
     ∃ e,
       POST req env (Responds after upstream) quiet
       = (Throw e, {| sent := [request_of config history]; aborted := false |})) ∧
  (∀ req env prompt messages input key,
     declared req prompt messages input →
     DEEPSEEK_API_KEY env = Some key → key ≠ "" →
     (300 ≤ status upstream ≤ 599)%N → status upstream ≠ 304%N →
     ∃ request,
       POST req env (Responds after upstream) quiet
       = (Ok answer, {| sent := [request]; aborted := false |})).
Proof.
  intros Hafter%N.leb_le Hok Htext Hdetail answer.
  assert (Hpost : ∀ req env history config,
     reaches_fetch req env history config →
     POST req env (Responds after upstream) quiet
     = (new_Response (resp_body answer) (status upstream),
        {| sent := [request_of config history]; aborted := false |})).
  { intros req env history config Hreach.
    rewrite (POST_reaches req env _ history config Hreach).
    destruct Hreach as (? & ? & ? & _ & _ & _ & _ & Hlog).
    rewrite (createDeepSeekStream_rejected config _ after upstream quiet _ Hlog Hafter
               (validateApiResponse_rejects upstream body detail Hok Htext Hdetail)).
    assert ((if (status upstream =? 401)%N then API_ERROR_MESSAGES.INVALID_KEY
             else mapped_message (status upstream) (statusText upstream) detail)
            = mapped_message (status upstream) (statusText upstream) detail) as ->.
    { unfold mapped_message. by destruct (status upstream =? 401)%N. }
    reflexivity. }
  assert (Hreach : ∀ req env history config,
     reaches_fetch req env history config →
     (300 ≤ status upstream ≤ 599)%N → status upstream ≠ 304%N →
     POST req env (Responds after upstream) quiet
     = (Ok answer, {| sent := [request_of config history]; aborted := false |})).
  { intros req env history config Hreach Hrange H304.
    rewrite (Hpost req env history config Hreach), new_Response_Ok; [done|lia|].
    unfold null_body_status.
    destruct (N.eqb_spec (status upstream) 101); [lia|].
    destruct (N.eqb_spec (status upstream) 103); [lia|].
    destruct (N.eqb_spec (status upstream) 204); [lia|].
    destruct (N.eqb_spec (status upstream) 205); [lia|].
    by destruct (N.eqb_spec (status upstream) 304). }
  split; [done|]. split.
  - intros req env history config Hreaches Hrange.
    rewrite (Hpost req env history config Hreaches). unfold new_Response.
    destruct (N.ltb_spec (status upstream) 200); [by eexists|].
    destruct (N.ltb_spec 599 (status upstream)); [by eexists|].
    assert (status upstream = 304%N) as -> by lia. by eexists.
  - intros req env prompt messages input key Hdecl Hkey Hne Hrange H304.
    destruct (declared_reaches req env prompt messages input key Hdecl Hkey Hne)
      as (history & Hreaches & _).
    eexists. by apply Hreach.
Qed.

Lemma upstream_error_reaches_client_witness :
  let upstream := {| status := 429; statusText := "Too Many Requests";
                     text := Ok (error_payload "slow down"); has_body := true |} in
  ∃ request,
    @POST Reference.runtime (Ok (example_request [])) example_env
      (Responds 120 upstream) quiet
    = (Ok {| resp_status := status upstream; content_type := "text/event-stream";
             resp_body :=
               JsonBody (JObj [("success", JBool false);
                               ("error", JStr (@mapped_message (status upstream)
                                                 (statusText upstream) "slow down"))]) |},
       {| sent := [request]; aborted := false |}).
Proof.
  intros upstream.
  apply (proj2 (proj2 (@upstream_error_reaches_client Reference.runtime 120%N upstream
                         (error_payload "slow down") "slow down"
                         ltac:(unfold TIMEOUT_MS; lia) eq_refl eq_refl eq_refl))
           (Ok (example_request [])) example_env "be brief" [] "hello" "secret").
  - do 3 eexists. repeat split; reflexivity.
  - reflexivity.
  - discriminate.
  - cbn. lia.
  - discriminate.
Defined.

(** X19. What goes upstream: for a request of the declared types that
    passes both validators, with a credential configured, the one request
    sent goes to the configured base URL (the default one when unset or
    empty) followed by [/v1/chat/completions], carries the credential as
    bearer token, names the configured or default model, asks for at most
    4000 tokens as a stream, and holds messages that are the system
    prompt, the earlier messages and the input with adjacent same-role
    messages merged; when no two adjacent roles are equal, they are the
    two wrappers and, between them, the elements of [messages] exactly as
    they were received. *)
Theorem request_sent_upstream `{Runtime}
    req env net p ms i prompt messages input key :
  validateAndParseRequest req = Ok (p, ms, i) →
  validateNoReasoningContent ms = Ok () →
  as_string p = Some prompt → as_Messages ms = Some messages →
  as_string i = Some input →
  DEEPSEEK_API_KEY env = Some key → key ≠ "" →
  ∃ body,
    sent (snd (POST req env net quiet))
    = [{| url := or_else (DEEPSEEKAPI_BASE_URL env) "https://api.deepseek.com"
                  +:+ "/v1/chat/completions";
          authorization := "Bearer " +:+ key;
          api_key := key;
          body_model := or_else (DEEPSEEK_MODEL env) "deepseek-chat";
          body_messages := body;
          body_max_tokens := 4000;
          body_stream := true |}] ∧
    as_Messages body
    = Some (coalesce ({| role := "system"; content := prompt;
                         reasoning_content := None |}
                      :: messages
                      ++ [{| role := "user"; content := input;
                             reasoning_content := None |}])) ∧
    (untyped_alternating
       ([Untyped.wrapper p "system"] ++ (Untyped.plain <$> ms)
        ++ [Untyped.wrapper i "user"]) →
     body = [JObj [("content", JStr prompt); ("role", JStr "system")]]
            ++ ms
            ++ [JObj [("content", JStr input); ("role", JStr "user")]]).
Proof.
  intros Hreq Hrc Hp Hms Hi Hkey Hne.
  destruct (declared_reaches req env prompt messages input key
              ltac:(by exists p, ms, i) Hkey Hne) as (history & Hreaches & Hview).
  exists (Untyped.js <$> history). split; [|split; [done|]].
  - by rewrite (POST_sent req env net history _ Hreaches).
  - intros Halt. destruct Hreaches as (p' & ms' & i' & Hreq' & _ & Hhist & _).
    rewrite Hreq in Hreq'. injection Hreq' as <- <- <-.
    unfold Untyped.buildMessageHistory in Hhist.
    rewrite (untyped_normalize_alternating _ Halt) in Hhist. injection Hhist as <-.
    destruct p as [[| | |p'| |]|]; try done. injection Hp as ->.
    destruct i as [[| | |i'| |]|]; try done. injection Hi as ->.
    cbn [app]. rewrite fmap_cons, fmap_app, <- list_fmap_compose.
    cbn [fmap list_fmap app]. do 2 f_equal. apply list_fmap_id.
Qed.

Lemma request_sent_upstream_witness :
  ∃ body,
    sent (snd (@POST Reference.runtime
                 (Ok (example_request
                        [JObj [("role", JStr "user"); ("content", JStr "one")];
                         JObj [("role", JStr "user"); ("content", JStr "two")]]))
                 example_env Silent quiet))
    = [{| url := or_else (DEEPSEEKAPI_BASE_URL example_env) "https://api.deepseek.com"
                  +:+ "/v1/chat/completions";
          authorization := "Bearer " +:+ "secret";
          api_key := "secret";
          body_model := or_else (DEEPSEEK_MODEL example_env) "deepseek-chat";
          body_messages := body;
          body_max_tokens := 4000;
          body_stream := true |}] ∧
    as_Messages body
    = Some (coalesce ({| role := "system"; content := "be brief";
                         reasoning_content := None |}
                      :: [{| role := "user"; content := "one"; reasoning_content := None |};
                          {| role := "user"; content := "two"; reasoning_content := None |}]
                      ++ [{| role := "user"; content := "hello";
                             reasoning_content := None |}])) ∧
    (@untyped_alternating Reference.runtime
       ([Untyped.wrapper (Some (JStr "be brief")) "system"]
        ++ (Untyped.plain <$> [JObj [("role", JStr "user"); ("content", JStr "one")];
                               JObj [("role", JStr "user"); ("content", JStr "two")]])
        ++ [Untyped.wrapper (Some (JStr "hello")) "user"]) →
     body = [JObj [("content", JStr "be brief"); ("role", JStr "system")]]
            ++ [JObj [("role", JStr "user"); ("content", JStr "one")];
                JObj [("role", JStr "user"); ("content", JStr "two")]]
            ++ [JObj [("content", JStr "hello"); ("role", JStr "user")]]).
Proof.
  eapply (@request_sent_upstream Reference.runtime); try reflexivity. discriminate.
Defined.

(** * The view: taking the frames apart again *)

Lemma prefix_blocked tail : ∀ t s,
  bracket_free tail = true → String.prefix tail t = false → at_tag s →
  String.prefix tail (t +:+ s) = false.
Proof.
  induction tail as [|a tail IH]; intros t s Hfree Hpre Hs; [by destruct t|].
  cbn [bracket_free] in Hfree. apply andb_prop in Hfree as [Ha Hfree].
  destruct t as [|b t].
  - change ("" +:+ s) with s. destruct Hs as [->|[r ->]]; [done|].
    cbn [String.prefix]. destruct (ascii_dec a "["); [|done].
    subst a. done.
  - change (String b t +:+ s) with (String b (t +:+ s)).
    cbn [String.prefix] in *. destruct (ascii_dec a b); [|done]. by apply IH.
Qed.

Lemma find_none_inv pat c t :
  find pat (String c t) = None →
  String.prefix pat (String c t) = false ∧ find pat t = None.
Proof.
  cbn [find]. destruct (String.prefix pat (String c t)); [done|].
  destruct (find pat t) as [[? ?]|]; done.
Qed.

(** A text that does not contain a tag is passed over when the next tag
    is looked for. *)
Lemma find_past tail t s :
  bracket_free tail = true → find (String "[" tail) t = None → at_tag s →
  find (String "[" tail) (t +:+ s)
  = match find (String "[" tail) s with
    | Some (before, after) => Some (t +:+ before, after)
    | None => None
    end.
Proof.
  intros Hfree Hnone Hs. induction t as [|c t IH].
  - change ("" +:+ s) with s. by destruct (find _ s) as [[? ?]|].
  - apply find_none_inv in Hnone as [Hpre Hnone].
    change (String c t +:+ s) with (String c (t +:+ s)).
    cbn [find]. rewrite (IH Hnone).
    assert (String.prefix (String "[" tail) (String c (t +:+ s)) = false) as ->.
    { cbn [String.prefix] in *. destruct (ascii_dec "[" c); [|done].
      by apply prefix_blocked. }
    by destruct (find _ s) as [[? ?]|].
Qed.

Lemma prefix_app_self p s : String.prefix p (p +:+ s) = true.
Proof.
  induction p as [|a p IH]; [by destruct s|].
  change (String a p +:+ s) with (String a (p +:+ s)). cbn [String.prefix].
  by destruct (ascii_dec a a).
Qed.

Lemma string_drop_app p s : string_drop (String.length p) (p +:+ s) = s.
Proof.
  induction p as [|a p IH]; [by destruct s|].
  change (String a p +:+ s) with (String a (p +:+ s)). by cbn.
Qed.

Lemma find_here pat s : find pat (pat +:+ s) = Some ("", s).
Proof.
  destruct (pat +:+ s) eqn:E; cbn [find]; rewrite <- E, prefix_app_self;
    by rewrite string_drop_app.
Qed.

Lemma exec_all_skip fuel opening closing t s :
  find opening (t +:+ s)
  = match find opening s with
    | Some (before, after) => Some (t +:+ before, after)
    | None => None
    end →
  exec_all fuel opening closing (t +:+ s) = exec_all fuel opening closing s.
Proof.
  intros Hp. destruct fuel; [done|]. cbn [exec_all]. rewrite Hp.
  by destruct (find opening s) as [[? ?]|].
Qed.

Lemma exec_all_hit fuel opening tail fragment s :
  bracket_free tail = true → find (String "[" tail) fragment = None →
  exec_all (S fuel) opening (String "[" tail)
    (opening +:+ fragment +:+ String "[" tail +:+ s)
  = fragment :: exec_all fuel opening (String "[" tail) s.
Proof.
  intros Hfree Hnone. cbn [exec_all]. rewrite find_here.
  rewrite (find_past tail fragment _ Hfree Hnone) by (right; eauto).
  by rewrite find_here, string_app_empty.
Qed.

Lemma wire_cons f frames : wire (f :: frames) = frame_chunk f +:+ wire frames.
Proof.
  unfold wire. destruct frames; cbn [fmap list_fmap String.concat];
    [by rewrite string_app_empty|done].
Qed.

Lemma at_tag_wire frames s : at_tag s → at_tag (wire frames +:+ s).
Proof.
  intros Hs. destruct frames as [|f frames]; [exact Hs|].
  rewrite wire_cons. right. destruct f; eexists; reflexivity.
Qed.

Lemma length_append a b :
  String.length (a +:+ b) = (String.length a + String.length b)%nat.
Proof.
  induction a as [|x a IH]; [done|].
  change (String x a +:+ b) with (String x (a +:+ b)). cbn. by rewrite IH.
Qed.

Lemma wire_long frames s : (length frames ≤ String.length (wire frames +:+ s))%nat.
Proof.
  induction frames as [|f frames IH]; [cbn; lia|].
  rewrite wire_cons, string_app_assoc, length_append. cbn [length].
  assert (1 ≤ String.length (frame_chunk f))%nat by (destruct f; unfold frame_chunk, tagged; rewrite !length_append; cbn; lia). lia.
Qed.

Lemma chunk_reasoning fragment s :
  frame_chunk (Reasoning fragment) +:+ s
  = "[Reasoning]" +:+ fragment +:+ "[/Reasoning]" +:+ s.
Proof.
  change (frame_chunk (Reasoning fragment))
    with ("[Reasoning]" +:+ (fragment +:+ "[/Reasoning]")).
  by rewrite !string_app_assoc.
Qed.

Lemma chunk_content fragment s :
  frame_chunk (Content fragment) +:+ s
  = "[Content]" +:+ fragment +:+ "[/Content]" +:+ s.
Proof.
  change (frame_chunk (Content fragment))
    with ("[Content]" +:+ (fragment +:+ "[/Content]")).
  by rewrite !string_app_assoc.
Qed.

Lemma find_over_tags s :
  let over pat tag :=
    find pat (tag +:+ s)
    = match find pat s with
      | Some (before, after) => Some (tag +:+ before, after)
      | None => None
      end in
  over "[Reasoning]" "[Content]" ∧ over "[Reasoning]" "[/Content]" ∧
  over "[Content]" "[Reasoning]" ∧ over "[Content]" "[/Reasoning]".
Proof.
  cbn zeta. repeat split;
    destruct (find _ s) as [[before after]|] eqn:E;
    unfold String.append; cbn; fold String.append; by rewrite E.
Qed.

Lemma exec_all_reasoning frames : ∀ fuel s,
  Forall (λ f, tag_free (fragment_of f)) frames →
  (length frames ≤ fuel)%nat → at_tag s →
  (∀ fuel', exec_all fuel' "[Reasoning]" "[/Reasoning]" s = []) →
  exec_all fuel "[Reasoning]" "[/Reasoning]" (wire frames +:+ s)
  = omap reasoning_fragment frames.
Proof.
  intros fuel s Hall. revert fuel.
  induction Hall as [|f frames (HR & HR' & HC & HC') _ IH]; intros fuel Hfuel Hs Hend.
  - apply Hend.
  - rewrite wire_cons, string_app_assoc. cbn [length] in Hfuel.
    assert (Hrest : at_tag (wire frames +:+ s)) by by apply at_tag_wire.
    destruct (find_over_tags (wire frames +:+ s)) as (_ & Hover & _).
    destruct (find_over_tags (fragment_of f +:+ "[/Content]" +:+ wire frames +:+ s))
      as (Hover' & _).
    destruct f as [fragment|fragment]; cbn [fragment_of omap list_omap reasoning_fragment] in *.
    + destruct fuel as [|fuel]; [lia|].
      rewrite chunk_reasoning.
      rewrite (exec_all_hit fuel "[Reasoning]" "/Reasoning]") by done.
      f_equal. apply IH; [lia|done..].
    + rewrite chunk_content, exec_all_skip by done.
      rewrite exec_all_skip.
      2:{ apply (find_past "Reasoning]"); [done..|]. right. eauto. }
      rewrite exec_all_skip by done. apply IH; [lia|done..].
Qed.

Lemma exec_all_content frames : ∀ fuel s,
  Forall (λ f, tag_free (fragment_of f)) frames →
  (length frames ≤ fuel)%nat → at_tag s →
  (∀ fuel', exec_all fuel' "[Content]" "[/Content]" s = []) →
  exec_all fuel "[Content]" "[/Content]" (wire frames +:+ s)
  = omap content_fragment frames.
Proof.
  intros fuel s Hall. revert fuel.
  induction Hall as [|f frames (HR & HR' & HC & HC') _ IH]; intros fuel Hfuel Hs Hend.
  - apply Hend.
  - rewrite wire_cons, string_app_assoc. cbn [length] in Hfuel.
    assert (Hrest : at_tag (wire frames +:+ s)) by by apply at_tag_wire.
    destruct (find_over_tags (wire frames +:+ s)) as (_ & _ & _ & Hover).
    destruct (find_over_tags (fragment_of f +:+ "[/Reasoning]" +:+ wire frames +:+ s))
      as (_ & _ & Hover' & _).
    destruct f as [fragment|fragment]; cbn [fragment_of omap list_omap content_fragment] in *.
    + rewrite chunk_reasoning, exec_all_skip by done.
      rewrite exec_all_skip.
      2:{ apply (find_past "Content]"); [done..|]. right. eauto. }
      rewrite exec_all_skip by done. apply IH; [lia|done..].
    + destruct fuel as [|fuel]; [lia|].
      rewrite chunk_content.
      rewrite (exec_all_hit fuel "[Content]" "/Content]") by done.
      f_equal. apply IH; [lia|done..].
Qed.

Lemma concat_cons x l : String.concat "" (x :: l) = x +:+ String.concat "" l.
Proof. destruct l; [by rewrite string_app_empty|done]. Qed.

Lemma filter_cons_bool {A} (p : A → bool) x l :
  filter (λ a, p a) (x :: l) = if p x then x :: filter (λ a, p a) l else filter (λ a, p a) l.
Proof.
  rewrite filter_cons. destruct (decide (p x)) as [Hp|Hp]; destruct (p x); done.
Qed.

Lemma concat_thoughts frames :
  String.concat ""
    (filter (λ thought, negb (is_empty thought) && negb (String.eqb thought "null"))
       (omap reasoning_fragment frames))
  = String.concat ""
      (filter (λ s, negb (String.eqb s "null")) (reasoning_of <$> frames)).
Proof.
  induction frames as [|[fragment|fragment] frames IH]; [done| |];
    cbn [omap list_omap reasoning_fragment fmap list_fmap reasoning_of];
    rewrite !(filter_cons_bool (λ s, negb (String.eqb s "null")));
    rewrite ?(filter_cons_bool
                (λ s, negb (is_empty s) && negb (String.eqb s "null"))).
  - destruct fragment as [|c fragment]; cbn [is_empty negb andb].
    { change (negb (String.eqb "" "null")) with true. cbn iota.
      by rewrite concat_cons. }
    destruct (String.eqb (String c fragment) "null"); cbn [negb]; [done|].
    by rewrite !concat_cons, IH.
  - change (negb (String.eqb "" "null")) with true. cbn iota.
    by rewrite concat_cons.
Qed.

Lemma concat_parts frames :
  String.concat "" (filter (λ part, negb (is_empty part)) (omap content_fragment frames))
  = String.concat "" (content_of <$> frames).
Proof.
  induction frames as [|[fragment|fragment] frames IH]; [done| |];
    cbn [omap list_omap content_fragment fmap list_fmap content_of].
  - by rewrite concat_cons.
  - rewrite (filter_cons_bool (λ s, negb (is_empty s))), concat_cons.
    destruct fragment as [|c fragment]; cbn [is_empty negb]; [done|].
    by rewrite concat_cons, IH.
Qed.

Lemma extractThoughtChain_wire frames s :
  Forall (λ f, tag_free (fragment_of f)) frames → at_tag s →
  (∀ fuel, exec_all fuel "[Reasoning]" "[/Reasoning]" s = []) →
  (∀ fuel, exec_all fuel "[Content]" "[/Content]" s = []) →
  extractThoughtChain (wire frames +:+ s)
  = (String.concat ""
       (filter (λ s, negb (String.eqb s "null")) (reasoning_of <$> frames)),
     String.concat "" (content_of <$> frames)).
Proof.
  intros Hall Hs HR HC. unfold extractThoughtChain.
  rewrite exec_all_reasoning, exec_all_content by (done || apply wire_long).
  rewrite concat_thoughts. f_equal.
  rewrite <- concat_parts. by destruct (filter _ _).
Qed.

Lemma view_unfold frames :
  Forall (λ f, tag_free (fragment_of f)) frames →
  extractThoughtChain (wire frames)
  = (String.concat ""
       (filter (λ s, negb (String.eqb s "null")) (reasoning_of <$> frames)),
     String.concat "" (content_of <$> frames)).
Proof.
  intros Hall. rewrite <- (string_app_empty (wire frames)).
  apply extractThoughtChain_wire; [done|by left|by intros []..].
Qed.

(** X20. What the route frames, the view takes apart again: for any
    sequence of frames whose fragments contain none of the four tags, the
    thoughts extracted from the received text are the reasoning fragments
    joined in order, those equal to the text [null] left out, and the main
    content is the content fragments joined in order. *)
Theorem view_recovers_fragments frames :
  Forall (λ f, tag_free (fragment_of f)) frames →
  extractThoughtChain (wire frames)
  = (String.concat ""
       (filter (λ s, negb (String.eqb s "null")) (reasoning_of <$> frames)),
     String.concat "" (content_of <$> frames)).
Proof.
  intros Hall. rewrite <- (string_app_empty (wire frames)).
  apply extractThoughtChain_wire; [done|by left|by intros []..].
Qed.

Lemma view_recovers_fragments_witness :
  extractThoughtChain (wire [Reasoning "think"; Content "an"; Reasoning "null";
                             Content "swer"])
  = ("think", "answer").
Proof.
  apply (view_recovers_fragments [Reasoning "think"; Content "an"; Reasoning "null";
                                  Content "swer"]).
  repeat constructor.
Defined.

(** X21. A frame that has been opened and not yet closed is not shown:
    while the closing tag of the last frame has not arrived, the view
    shows what the complete frames before it give. *)
Theorem unfinished_frame_is_not_shown frames opening fragment :
  Forall (λ f, tag_free (fragment_of f)) frames → tag_free fragment →
  opening = "[Reasoning]" ∨ opening = "[Content]" →
  extractThoughtChain (wire frames +:+ opening +:+ fragment)
  = extractThoughtChain (wire frames).
Proof.
  intros Hall (HR & HR' & HC & HC') Hopening.
  rewrite (view_unfold frames Hall).
  destruct (find_over_tags fragment) as (H1 & _ & H2 & _).
  apply extractThoughtChain_wire; [done|destruct Hopening as [-> | ->]; right; eauto|..];
    intros [|fuel]; try done; cbn [exec_all];
    destruct Hopening as [-> | ->];
    rewrite ?find_here, ?H1, ?H2, ?HR, ?HR', ?HC, ?HC'; done.
Qed.

Lemma unfinished_frame_is_not_shown_witness :
  extractThoughtChain (wire [Reasoning "think"; Content "an"] +:+ "[Content]" +:+ "swer")
  = extractThoughtChain (wire [Reasoning "think"; Content "an"]).
Proof.
  apply unfinished_frame_is_not_shown; [repeat constructor..|by right].
Defined.

(** * The view: user messages *)

Lemma strip_sublist s : ∀ inside,
  sublist (list_ascii_of_string (strip inside s)) (list_ascii_of_string s).
Proof.
  induction s as [|c s IH]; intros inside; [done|].
  cbn [strip list_ascii_of_string].
  destruct inside; [destruct (Ascii.eqb c ">"); by apply sublist_cons|].
  destruct (_ && _); [by apply sublist_cons|].
  cbn [list_ascii_of_string]. by apply sublist_skip.
Qed.

Lemma has_app c a b : has c (a +:+ b) = has c a || has c b.
Proof.
  induction a as [|x a IH]; [done|].
  change (String x a +:+ b) with (String x (a +:+ b)). cbn [has].
  by rewrite IH, orb_assoc.
Qed.

(** Text without [<] is copied. *)
Lemma strip_text t s : has "<" t = false → strip false (t +:+ s) = t +:+ strip false s.
Proof.
  induction t as [|c t IH]; [done|].
  change (String c t +:+ s) with (String c (t +:+ s)).
  change (String c t +:+ strip false s) with (String c (t +:+ strip false s)).
  cbn [has strip]. intros [Hc Ht]%orb_false_elim. rewrite Hc. cbn [andb].
  by rewrite IH.
Qed.

(** A match is deleted up to its first [>]. *)
Lemma strip_inside t s :
  has ">" t = false → strip true (t +:+ String ">" s) = strip false s.
Proof.
  induction t as [|c t IH]; [done|].
  change (String c t +:+ String ">" s) with (String c (t +:+ String ">" s)).
  cbn [has strip]. intros [Hc Ht]%orb_false_elim. rewrite Hc. by apply IH.
Qed.

Lemma name_here_names name s :
  name ∈ ALLOWED_TAGS → boundary s = true → name_here (name +:+ s) = true.
Proof.
  intros Hname Hs. apply existsb_exists. exists name. split.
  - by apply list_elem_of_In.
  - assert (starts_ci name (name +:+ s) = Some s) as ->; [|done].
    unfold ALLOWED_TAGS in Hname.
    repeat (apply elem_of_cons in Hname as [->|Hname]);
      [..|by apply elem_of_nil in Hname]; by vm_compute.
Qed.

Lemma allowed_names name s :
  name ∈ ALLOWED_TAGS → boundary s = true → allowed (name +:+ s) = true.
Proof.
  intros Hname Hs. pose proof (name_here_names name s Hname Hs) as Hhere.
  unfold allowed. destruct (name +:+ s) as [|c r]; [done|].
  destruct c as [[] [] [] [] [] [] [] []]; rewrite Hhere; by rewrite ?orb_true_r.
Qed.

Lemma names_plain name : name ∈ ALLOWED_TAGS → has "<" name = false.
Proof.
  intros Hname. unfold ALLOWED_TAGS in Hname.
  repeat (apply elem_of_cons in Hname as [->|Hname]);
    [..|by apply elem_of_nil in Hname]; done.
Qed.

(** X22. The sanitiser only deletes: what it returns is the text with
    some characters left out, in order. *)
Theorem sanitize_only_deletes content :
  sublist (list_ascii_of_string (sanitize content)) (list_ascii_of_string content).
Proof. apply strip_sublist. Qed.

(** X23. Nothing is deleted from a text without [>]: a tag that is
    opened and never closed, whatever its name, stays in the HTML. *)
Theorem unclosed_tag_is_kept content :
  has ">" content = false → sanitize content = content.
Proof.
  unfold sanitize. induction content as [|c content IH]; [done|].
  cbn [has strip]. intros [Hc Hcontent]%orb_false_elim.
  rewrite Hcontent, andb_false_r. by rewrite IH.
Qed.

Lemma unclosed_tag_is_kept_witness :
  sanitize "<script src=//example.test/x.js" = "<script src=//example.test/x.js".
Proof. apply unclosed_tag_is_kept. reflexivity. Defined.

(** X24. A tag with one of the eight names is kept with all its
    attributes, whatever they are, as long as they hold no [<]; so is the
    closing tag.  What follows is sanitised as usual. *)
Theorem allowed_tag_keeps_attributes name attributes rest :
  name ∈ ALLOWED_TAGS → has "<" attributes = false →
  sanitize ("<" +:+ name +:+ " " +:+ attributes +:+ ">" +:+ rest)
  = "<" +:+ name +:+ " " +:+ attributes +:+ ">" +:+ sanitize rest ∧
  sanitize ("</" +:+ name +:+ ">" +:+ rest) = "</" +:+ name +:+ ">" +:+ sanitize rest.
Proof.
  intros Hname Hattr. unfold sanitize. split.
  - change ("<" +:+ name +:+ " " +:+ attributes +:+ ">" +:+ rest)
      with (String "<" (name +:+ " " +:+ attributes +:+ ">" +:+ rest)).
    cbn [strip]. rewrite allowed_names by done. cbn [negb andb]. f_equal.
    rewrite strip_text by by apply names_plain.
    f_equal. change (" " +:+ attributes +:+ ">" +:+ rest)
      with (String " " (attributes +:+ ">" +:+ rest)).
    cbn [strip]. f_equal. rewrite strip_text by done. done.
  - change ("</" +:+ name +:+ ">" +:+ rest)
      with (String "<" (String "/" (name +:+ ">" +:+ rest))).
    cbn [strip]. unfold allowed at 1.
    rewrite (name_here_names name (">" +:+ rest)) by done.
    cbn [orb negb andb strip]. do 2 f_equal.
    rewrite strip_text by by apply names_plain. done.
Qed.

Lemma allowed_tag_keeps_attributes_witness :
  sanitize ("<" +:+ "img" +:+ " " +:+ "src=x onerror=alert(1)" +:+ ">" +:+ "hi")
  = "<" +:+ "img" +:+ " " +:+ "src=x onerror=alert(1)" +:+ ">" +:+ sanitize "hi" ∧
  sanitize ("</" +:+ "img" +:+ ">" +:+ "hi") = "</" +:+ "img" +:+ ">" +:+ sanitize "hi".
Proof.
  apply allowed_tag_keeps_attributes; [|reflexivity].
  unfold ALLOWED_TAGS. set_solver.
Defined.

(** X25. A closed tag whose name is none of the eight is deleted with
    everything up to its first [>]; what follows is sanitised as usual. *)
Theorem other_tag_is_deleted inner rest :
  allowed (inner +:+ ">" +:+ rest) = false → has ">" inner = false →
  sanitize ("<" +:+ inner +:+ ">" +:+ rest) = sanitize rest.
Proof.
  intros Hallowed Hinner. unfold sanitize.
  change ("<" +:+ inner +:+ ">" +:+ rest) with (String "<" (inner +:+ ">" +:+ rest)).
  cbn [strip]. rewrite Hallowed, has_app. cbn [negb andb has Ascii.eqb].
  change (Ascii.eqb ">" ">") with true. rewrite orb_true_r.
  by apply strip_inside.
Qed.

Lemma other_tag_is_deleted_witness :
  sanitize ("<" +:+ "script src=x" +:+ ">" +:+ "alert(1)") = sanitize "alert(1)".
Proof. apply other_tag_is_deleted; reflexivity. Defined.
